(** * Reading partial results from a normalized graph cache

    A shallow embedding of the read path of apollo-cache-hermes: the
    completeness check [_visitSelection] driven by [walkOperation], the
    overlay of parameterized values [_walkAndOverlayDynamicValues], the query
    partitioner [partitionQuery] / [findMissingSelectionSets] and the
    orchestrator [read].

    JavaScript objects and arrays are references into a store: the overlay
    mutates the copies it makes, and what it must not mutate is the data the
    snapshot holds.  The store is therefore explicit: a [Heap] is a list of
    cells, a location is an index into it, and allocation appends. *)

From stdpp Require Import base gmap strings list.
From Stdlib Require Import ZArith.

#[local] Set Warnings "-register-all".

Open Scope string_scope.
Open Scope list_scope.
Open Scope nat_scope.

(** ** JSON values and the store *)

Definition loc := nat.

(** A JavaScript value as the read path meets it.  Numbers are opaque to this
    code apart from their truthiness, integers stand for them. *)
Inductive val :=
  | VUndef
  | VNull
  | VBool (b : bool)
  | VNum (n : Z)
  | VStr (s : string)
  | VRef (l : loc).

Abbreviation Props := (list (string * val)).

(** An object holds its own properties in insertion order.  An array holds its
    elements, and (being an object too) any named property written on it. *)
Inductive cell :=
  | Obj (props : Props)
  | Arr (elems : list val) (props : Props).

Abbreviation Heap := (list cell).

Definition NodeId := string.

Inductive PathPart :=
  | PKey (k : string)
  | PIdx (i : nat).

Definition cell_props (c : cell) : Props :=
  match c with
  | Obj ps => ps
  | Arr _ ps => ps
  end.

Definition set_cell_props (c : cell) (ps : Props) : cell :=
  match c with
  | Obj _ => Obj ps
  | Arr es _ => Arr es ps
  end.

Fixpoint assoc {A : Type} (k : string) (l : list (string * A)) : option A :=
  match l with
  | [] => None
  | (k', a) :: r => if String.eqb k k' then Some a else assoc k r
  end.

(** [o[k] = a] on the property list: an existing key keeps its place, a new
    one goes last. *)
Fixpoint assoc_set {A : Type} (k : string) (a : A) (l : list (string * A))
  : list (string * A) :=
  match l with
  | [] => [(k, a)]
  | (k', a') :: r =>
      if String.eqb k k' then (k, a) :: r else (k', a') :: assoc_set k a r
  end.

(** The cell a reference points to.  Stores met here are closed; a reference
    outside the store reads as an empty object. *)
Definition deref (h : Heap) (l : loc) : cell :=
  default (Obj []) (h !! l).

Definition alloc (h : Heap) (c : cell) : loc * Heap :=
  (List.length h, h ++ [c]).

(** [Array.isArray(v)], with the elements when it is one. *)
Definition as_array (h : Heap) (v : val) : option (list val) :=
  match v with
  | VRef l => match deref h l with
              | Arr es _ => Some es
              | Obj _ => None
              end
  | _ => None
  end.

(** JavaScript truthiness. *)
Definition truthy (v : val) : bool :=
  match v with
  | VUndef | VNull => false
  | VBool b => b
  | VNum n => negb (Z.eqb n 0)
  | VStr s => negb (String.eqb s "")
  | VRef _ => true
  end.

(** [v === null]. *)
Definition isNull (v : val) : bool :=
  match v with
  | VNull => true
  | _ => false
  end.

(** Modelled from the spec: [isNil] of src/util, absent from the sources at
    hand: "a missing object", [undefined] or [null] (type [nil] of
    primitive.ts). *)
Definition isNil (v : val) : bool :=
  match v with
  | VUndef | VNull => true
  | _ => false
  end.

(** Modelled from the spec: [isObject] of src/util, absent from the sources at
    hand: the value is "a container/object", that is a reference (arrays are
    [typeof 'object'] too), never [null] and never a scalar. *)
Definition isObject (v : val) : bool :=
  match v with
  | VRef _ => true
  | _ => false
  end.

(** The names a plain object answers to without holding them: the members of
    [Object.prototype] (ECMAScript, 20.1.3, the legacy accessors included).
    The store holds what an object holds itself, so [read_prop] and
    [has_prop] below say what [value[key]] and [key in value] say of an
    object for every name but these (and, of an array, for every name but
    [length], the indices and the members of [Array.prototype]).  A statement
    about what is read under a name the query is free to choose is made for
    the other names. *)
Definition objectPrototype : list string :=
  ["constructor"; "hasOwnProperty"; "isPrototypeOf"; "propertyIsEnumerable";
   "toLocaleString"; "toString"; "valueOf"; "__proto__";
   "__defineGetter__"; "__defineSetter__"; "__lookupGetter__";
   "__lookupSetter__"].

(** [value[key]] read on a reference: the properties the object holds
    itself. *)
Definition read_prop (h : Heap) (l : loc) (key : string) : val :=
  default VUndef (assoc key (cell_props (deref h l))).

(** [key in value] on a reference: whether the object holds the key
    itself. *)
Definition has_prop (h : Heap) (l : loc) (key : string) : bool :=
  match assoc key (cell_props (deref h l)) with
  | Some _ => true
  | None => false
  end.

(** [get], the helper of [walkOperation]:
    [value !== null && typeof value === 'object' ? value[key] : undefined]. *)
Definition get (h : Heap) (value : val) (key : string) : val :=
  match value with
  | VRef l => read_prop h l key
  | _ => VUndef
  end.

(** ** Query documents (the graphql AST, as far as the read path looks) *)

Inductive ValueNode :=
  | VariableNode (name : string)
  | IntValue (n : Z)
  | StringValue (s : string)
  | BooleanValue (b : bool)
  | NullValue.

Record ArgumentNode := { arg_name : string; arg_value : ValueNode }.

Record DirectiveNode :=
  { dir_name : string; dir_arguments : list ArgumentNode }.

(** A selection.  AST nodes are JavaScript objects and the partitioner looks
    them up by reference ([fields.indexOf(selection)]); [ref] stands for that
    reference: two nodes of one parsed document are the same object exactly
    when their [ref]s agree. *)
Inductive SelectionNode :=
  | Field (ref : nat) (alias : option string) (name : string)
          (arguments : list ArgumentNode) (directives : list DirectiveNode)
          (selectionSet : option (list SelectionNode))
  | FragmentSpread (ref : nat) (name : string)
                   (directives : list DirectiveNode)
  | InlineFragment (ref : nat) (typeCondition : option string)
                   (directives : list DirectiveNode)
                   (selectionSet : list SelectionNode).

Abbreviation SelectionSetNode := (list SelectionNode).

Definition sel_ref (s : SelectionNode) : nat :=
  match s with
  | Field r _ _ _ _ _ => r
  | FragmentSpread r _ _ => r
  | InlineFragment r _ _ _ => r
  end.

Definition sel_directives (s : SelectionNode) : list DirectiveNode :=
  match s with
  | Field _ _ _ _ d _ => d
  | FragmentSpread _ _ d => d
  | InlineFragment _ _ d _ => d
  end.

Definition isField (s : SelectionNode) : bool :=
  match s with
  | Field _ _ _ _ _ _ => true
  | _ => false
  end.

(** [a === b] on AST nodes. *)
Definition same_node (a b : SelectionNode) : bool :=
  Nat.eqb (sel_ref a) (sel_ref b).

(** [fields.indexOf(selection) !== -1]. *)
Definition listed (fields : list SelectionNode) (selection : SelectionNode)
  : bool :=
  existsb (same_node selection) fields.

Inductive OperationType := OpQuery | OpMutation | OpSubscription.

Inductive DefinitionNode :=
  | OperationDefinition (operation : OperationType) (name : option string)
                        (variableDefinitions : list string)
                        (directives : list DirectiveNode)
                        (selectionSet : SelectionSetNode)
  | FragmentDefinition (name : string) (typeCondition : string)
                       (directives : list DirectiveNode)
                       (selectionSet : SelectionSetNode).

Record DocumentNode := { definitions : list DefinitionNode }.

Definition def_selectionSet (d : DefinitionNode) : SelectionSetNode :=
  match d with
  | OperationDefinition _ _ _ _ ss => ss
  | FragmentDefinition _ _ _ ss => ss
  end.

(** [{ ...definition, selectionSet }]. *)
Definition with_selectionSet (d : DefinitionNode) (ss : SelectionSetNode)
  : DefinitionNode :=
  match d with
  | OperationDefinition o n vs ds _ => OperationDefinition o n vs ds ss
  | FragmentDefinition n t ds _ => FragmentDefinition n t ds ss
  end.

Definition isOperation (d : DefinitionNode) : bool :=
  match d with
  | OperationDefinition _ _ _ _ _ => true
  | FragmentDefinition _ _ _ _ => false
  end.

Abbreviation Variables := (gmap string val).

Record RawOperation :=
  { raw_rootId : NodeId;
    document : DocumentNode;
    variables : Variables }.

(** ** Compiled queries *)

Abbreviation FieldArguments := (list (string * val)).

(** [ParsedQueryNode]: the selection it was compiled from, the compiled
    sub-selection, the schema name when the field is aliased, the resolved
    arguments when it is parameterized. *)
Inductive ParsedQueryNode :=
  | PQNode (selection : SelectionNode)
           (children : option (list (string * ParsedQueryNode)))
           (schemaName : option string)
           (args : option FieldArguments)
           (hasParameterizedChildren : bool).

(** A compiled selection set: response key to node, in the order [for ... in]
    enumerates the keys.  It stands for a JavaScript object, whose keys are
    distinct. *)
Abbreviation ParsedQuery := (list (string * ParsedQueryNode)).

Definition selection (n : ParsedQueryNode) : SelectionNode :=
  match n with PQNode s _ _ _ _ => s end.
Definition children (n : ParsedQueryNode) : option ParsedQuery :=
  match n with PQNode _ c _ _ _ => c end.
Definition schemaName (n : ParsedQueryNode) : option string :=
  match n with PQNode _ _ s _ _ => s end.
Definition args (n : ParsedQueryNode) : option FieldArguments :=
  match n with PQNode _ _ _ a _ => a end.
Definition hasParameterizedChildren (n : ParsedQueryNode) : bool :=
  match n with PQNode _ _ _ _ b => b end.

(** How deep the sub-selections below a node go, and below the nodes of a
    compiled selection set. *)
Fixpoint nodeDepth (n : ParsedQueryNode) : nat :=
  match n with
  | PQNode _ (Some l) _ _ _ =>
      S ((fix depths (l : list (string * ParsedQueryNode)) : nat :=
            match l with
            | [] => 0
            | (_, n') :: r => Nat.max (nodeDepth n') (depths r)
            end) l)
  | PQNode _ None _ _ _ => 0
  end.

Fixpoint mapDepth (fields : list (string * ParsedQueryNode)) : nat :=
  match fields with
  | [] => 0
  | (_, n) :: r => Nat.max (nodeDepth n) (mapDepth r)
  end.

Record OperationInstance :=
  { op_ref : nat;            (* the identity of the instance object *)
    rootId : NodeId;
    isStatic : bool;
    info_parsed : ParsedQuery;  (* [info.parsed] *)
    parsedQuery : ParsedQuery }.

(** ** The generic walker, [walkOperation] *)

Record OperationWalkNode :=
  { parsedOperation : ParsedQuery;
    parentSelection : option SelectionNode;
    parent : val }.

Section Walker.
Context {State : Type}.
Variable h : Heap.

(** An [OperationVisitor]; the state [State] stands for the variables its
    closure updates.  It answers [true] when the walk should stop. *)
Variable visitor :
  val -> list (string * SelectionNode) -> option SelectionNode -> State -> bool * State.

(** The children queued after a visit that said go on, in pushing order. *)
Definition queued_children (parsedOperation : ParsedQuery) (parent : val)
  : list OperationWalkNode :=
  flat_map
    (fun '(fieldName, node) =>
       match children node with
       | Some nextParsedQuery =>
           [ {| parsedOperation := nextParsedQuery;
                parentSelection := Some (selection node);
                parent := get h parent fieldName |} ]
       | None => []
       end)
    parsedOperation.

(** One turn of the [while (stack.length)] loop on the node just popped.
    The head of the list is the top of the stack. *)
Definition walk_step (node : OperationWalkNode)
           (stack : list OperationWalkNode) (s : State)
  : list OperationWalkNode * State :=
  match parent node with
  | VNull => (stack, s)
  | _ =>
      match as_array h (parent node) with
      | Some elems =>
          (map (fun e => {| parsedOperation := parsedOperation node;
                            parentSelection := parentSelection node;
                            parent := e |}) elems ++ stack, s)
      | None =>
          let fields :=
            map (fun '(fieldName, n) => (fieldName, selection n))
                (parsedOperation node) in
          match fields with
          | [] => (stack, s)
          | _ :: _ =>
              let '(shouldStop, s') :=
                visitor (parent node) fields (parentSelection node) s in
              if shouldStop then (stack, s')
              else (rev (queued_children (parsedOperation node) (parent node))
                      ++ stack, s')
          end
      end
  end.

(** The loop; [None] when [fuel] turns did not empty the stack. *)
Fixpoint walk_loop (fuel : nat) (stack : list OperationWalkNode) (s : State)
  : option State :=
  match stack with
  | [] => Some s
  | node :: rest =>
      match fuel with
      | O => None
      | S fuel' =>
          let '(stack', s') := walk_step node rest s in
          walk_loop fuel' stack' s'
      end
  end.

Definition walkOperation (fuel : nat) (rootOperation : ParsedQuery)
           (result : val) (s : State) : option State :=
  walk_loop fuel
            [ {| parsedOperation := rootOperation;
                 parentSelection := None;
                 parent := result |} ]
            s.
End Walker.

(** ** The cache context and the snapshot *)

(** The collaborators [read] reaches through [context].  [entityIdForValue]
    may look into the store; [entityTransformer], when configured, enriches
    the fresh copy it is handed, seen here as a function on that copy's own
    properties; [resolverRedirects] is looked up by type name and field name
    ([deepGet] on the configured table). *)
Record CacheContext :=
  { entityIdForValue : Heap -> val -> option NodeId;
    entityTransformer : option (Props -> Props);
    resolverRedirects :
      val -> string -> option (FieldArguments -> option NodeId);
    parseOperation : RawOperation -> OperationInstance }.

(** [if (valueId)] on a node id: a string, truthy unless empty. *)
Definition truthy_id (id : option NodeId) : bool :=
  match id with
  | Some s => negb (String.eqb s "")
  | None => false
  end.

Record NodeSnapshot := { data : val }.

Record QueryResult :=
  { result : val;
    complete : option bool;
    entityIds : option (gset NodeId);
    dynamicNodeIds : option (gset NodeId);
    partitionedQuery : option DocumentNode }.

(** The [{}] a first read starts from. *)
Definition emptyQueryResult : QueryResult :=
  {| result := VUndef; complete := None; entityIds := None;
     dynamicNodeIds := None; partitionedQuery := None |}.

(** Modelled from the spec: [GraphSnapshot], absent from the sources at hand:
    "an immutable-per-version mapping from node identity to stored node
    data", with "a read-result memoization table keyed by operation instance
    identity". *)
Record GraphSnapshot :=
  { _values : gmap NodeId NodeSnapshot;
    readCache : gmap nat QueryResult }.

(** Modelled from the spec: [getNodeSnapshot(id) -> { data, ...} | undefined]
    of the graph store. *)
Definition getNodeSnapshot (snapshot : GraphSnapshot) (id : NodeId)
  : option NodeSnapshot :=
  _values snapshot !! id.

(** Modelled from the spec: [getNodeData(id) -> JSON-like value | undefined]
    of the graph store. *)
Definition getNodeData (snapshot : GraphSnapshot) (id : NodeId) : val :=
  match getNodeSnapshot snapshot id with
  | Some s => data s
  | None => VUndef
  end.

Definition set_readCache (snapshot : GraphSnapshot) (operation : OperationInstance)
           (queryResult : QueryResult) : GraphSnapshot :=
  {| _values := _values snapshot;
     readCache := <[op_ref operation := queryResult]> (readCache snapshot) |}.

(** ** The completeness check, [_visitSelection] *)

(** What the visitor's closure updates. *)
Record VisitState :=
  { v_complete : bool;
    v_missingFields : list SelectionNode;
    v_nodeIds : option (gset NodeId) }.

(** [field in value]; the visitor asks it of objects only. *)
Definition in_value (h : Heap) (field : string) (value : val) : bool :=
  match value with
  | VRef l => has_prop h l field
  | _ => false
  end.

(** The [for (const [field, fieldNode] of fields)] loop: the selection of the
    first field the value does not hold, where the loop breaks. *)
Fixpoint first_absent (h : Heap) (value : val)
         (fields : list (string * SelectionNode)) : option SelectionNode :=
  match fields with
  | [] => None
  | (field, fieldNode) :: rest =>
      if negb (in_value h field value) then Some fieldNode
      else first_absent h value rest
  end.

Definition opt_list {A : Type} (o : option A) : list A :=
  match o with Some a => [a] | None => [] end.

(** [if (nodeIds && isObject(value))]: the entity the value is joins the
    set, when a set is being collected. *)
Definition noteEntity (context : CacheContext) (h : Heap) (value : val)
           (nodeIds : option (gset NodeId)) : option (gset NodeId) :=
  match nodeIds with
  | Some ids =>
      match entityIdForValue context h value with
      | Some nodeId => Some ({[nodeId]} ∪ ids)
      | None => Some ids
      end
  | None => None
  end.

(** The visitor [_visitSelection] hands to [walkOperation]. *)
Definition visit (context : CacheContext) (h : Heap) (value : val)
           (fields : list (string * SelectionNode))
           (parentSelection : option SelectionNode) (s : VisitState)
  : bool * VisitState :=
  match value with
  | VUndef =>
      (true, {| v_complete := false;
                v_missingFields := v_missingFields s ++ opt_list parentSelection;
                v_nodeIds := v_nodeIds s |})
  | _ =>
      if negb (isObject value) then (false, s)
      else
        let nodeIds := noteEntity context h value (v_nodeIds s) in
        match first_absent h value fields with
        | Some fieldNode =>
            (false, {| v_complete := false;
                       v_missingFields := v_missingFields s ++ [fieldNode];
                       v_nodeIds := nodeIds |})
        | None =>
            (false, {| v_complete := v_complete s;
                       v_missingFields := v_missingFields s;
                       v_nodeIds := nodeIds |})
        end
  end.

Definition _visitSelection (fuel : nat) (query : OperationInstance)
           (context : CacheContext) (h : Heap) (result : val)
           (nodeIds : option (gset NodeId)) : option VisitState :=
  let nodeIds' :=
    match nodeIds, result with
    | Some ids, VUndef => Some ids
    | Some ids, _ => Some ({[rootId query]} ∪ ids)
    | None, _ => None
    end in
  walkOperation h (visit context h) fuel (info_parsed query) result
                {| v_complete := true; v_missingFields := [];
                   v_nodeIds := nodeIds' |}.

(** ** The partitioner, the overlay and [read] *)

(** [getMainDefinition] of apollo-utilities: [checkDocument] refuses a
    document with more than one operation; then the operation definition, or
    failing one the first fragment definition; [None] where it throws. *)
Definition getMainDefinition (queryDoc : DocumentNode) : option DefinitionNode :=
  match filter (fun d => isOperation d = true) (definitions queryDoc) with
  | _ :: _ :: _ => None
  | [operation] => Some operation
  | [] => head (definitions queryDoc)
  end.

Record OverlayWalkNode :=
  { ow_value : val;
    containerId : NodeId;
    parsedMap : ParsedQuery;
    path : list PathPart }.

(** The store, the work list and the set [dynamicNodeIds] the overlay fills
    in.  The head of [o_queue] is the end of the JavaScript array, where
    [push] and [pop] work. *)
Record OverlayState :=
  { o_heap : Heap;
    o_queue : list OverlayWalkNode;
    o_dynamicNodeIds : gset NodeId }.

(** How a piece of the overlay ends: normally, or with the [TypeError] of a
    property access on [null] / [undefined] or of a property written on a
    primitive (the module is strict code).  The state reached is kept either
    way. *)
Inductive step_result :=
  | Next (st : OverlayState)
  | TypeError (st : OverlayState).

Inductive outcome :=
  | Finished (st : OverlayState)
  | Thrown (st : OverlayState)
  | OutOfFuel (st : OverlayState).

(** [value[key]] as an expression; [None] is the [TypeError]. *)
Definition js_read (h : Heap) (value : val) (key : string) : option val :=
  match value with
  | VRef l => Some (read_prop h l key)
  | VUndef | VNull => None
  | _ => Some VUndef
  end.

Definition write_prop (h : Heap) (l : loc) (key : string) (v : val) : Heap :=
  <[l := set_cell_props (deref h l) (assoc_set key v (cell_props (deref h l)))]> h.

(** [value[key] = v]; [None] is the [TypeError]. *)
Definition js_write (h : Heap) (value : val) (key : string) (v : val)
  : option Heap :=
  match value with
  | VRef l => Some (write_prop h l key v)
  | _ => None
  end.

(** [array[i] = v] on an array cell. *)
Definition write_elem (h : Heap) (l : loc) (i : nat) (v : val) : Heap :=
  match deref h l with
  | Arr es ps => <[l := Arr (<[i := v]> es) ps]> h
  | Obj _ => h
  end.

Definition read_elem (h : Heap) (l : loc) (i : nat) : val :=
  match deref h l with
  | Arr es _ => default VUndef (es !! i)
  | Obj _ => VUndef
  end.

(** [_wrapValue]: a fresh shallow copy of an object or array, [{}] for
    [undefined], any other value as it is. *)
Definition _wrapValue (value : val) (context : CacheContext) (h : Heap)
  : val * Heap :=
  match value with
  | VUndef => let '(l, h') := alloc h (Obj []) in (VRef l, h')
  | VRef l0 =>
      match deref h l0 with
      | Arr es _ => let '(l, h') := alloc h (Arr es []) in (VRef l, h')
      | Obj ps =>
          let newValue :=
            match entityTransformer context with
            | Some transform =>
                if truthy_id (entityIdForValue context h value)
                then transform ps else ps
            | None => ps
            end in
          let '(l, h') := alloc h (Obj newValue) in (VRef l, h')
      end
  | _ => (value, h)
  end.

(** A stage of [read]: it goes on, it throws with [queryResult] as far as
    it was filled in, or the model ran out of fuel. *)
Inductive stage (A : Type) :=
  | Go (a : A)
  | Raise (queryResult : QueryResult) (h : Heap)
  | NoFuel.
Arguments Go {A} a.
Arguments Raise {A} queryResult h.
Arguments NoFuel {A}.

Inductive read_outcome :=
  | Returned (queryResult : QueryResult) (cacheHit : bool)
             (snapshot : GraphSnapshot) (h : Heap)
  | Raised (snapshot : GraphSnapshot) (h : Heap)
  | Exhausted.

(** What [read] carries from one [if] to the next: [queryResult],
    [missingFields], [cacheHit] and the store. *)
Abbreviation ReadVars := (QueryResult * list SelectionNode * bool * Heap)%type.

Definition stage_bind {A B : Type} (s : stage A) (f : A -> stage B) : stage B :=
  match s with
  | Go a => f a
  | Raise q h => Raise q h
  | NoFuel => NoFuel
  end.

Section Read.
(** [shouldInclude] of apollo-utilities, which evaluates the [@skip] and
    [@include] directives of a selection against the variables. *)
Variable shouldInclude : SelectionNode -> Variables -> bool.

(** [nodeIdForParameterizedValue] of the snapshot editor: the identity of a
    parameterized field, a function of the container, the path and the
    arguments. *)
Variable nodeIdForParameterizedValue :
  NodeId -> list PathPart -> FieldArguments -> NodeId.

(** [StaticNodeId.QueryRoot]. *)
Variable QueryRoot : NodeId.

(** *** [findMissingSelectionSets] *)

(** The callback of [selectionSet.selections.forEach]: what one selection
    adds to [resultSelectionsSet.selections]. *)
Fixpoint missingSelection (variables : Variables)
         (fields : list SelectionNode) (selection : SelectionNode)
  : list SelectionNode :=
  if negb (shouldInclude selection variables) then []
  else
    match selection with
    | Field r a n ar ds None =>
        if listed fields selection then [selection] else []
    | Field r a n ar ds (Some subSelections) =>
        if listed fields selection then [selection]
        else
          let selectionToInsert :=
            (fix each (l : list SelectionNode) : list SelectionNode :=
               match l with
               | [] => []
               | s :: rest => missingSelection variables fields s ++ each rest
               end) subSelections in
          match selectionToInsert with
          | [] => []
          | _ :: _ => [Field r a n ar ds (Some selectionToInsert)]
          end
    | _ => []
    end.

Definition findMissingSelectionSets (selectionSet : SelectionSetNode)
           (variables : Variables) (fields : list SelectionNode)
  : SelectionSetNode :=
  flat_map (missingSelection variables fields) selectionSet.

(** [partitionQuery]; [fragmentMapForDocument] is computed there and never
    read. *)
Definition partitionQuery (fields : list SelectionNode)
           (originalOperation : RawOperation) : option RawOperation :=
  match getMainDefinition (document originalOperation) with
  | None => None
  | Some mainDefinition =>
      Some {| raw_rootId := raw_rootId originalOperation;
              variables := variables originalOperation;
              document :=
                {| definitions :=
                     [ with_selectionSet mainDefinition
                         (findMissingSelectionSets
                            (def_selectionSet mainDefinition)
                            (variables originalOperation) fields) ] |} |}
  end.

(** *** [_walkAndOverlayDynamicValues] *)

(** [node.schemaName ? node.schemaName : key]. *)
Definition fieldNameOf (key : string) (node : ParsedQueryNode) : string :=
  match schemaName node with
  | Some s => if String.eqb s "" then key else s
  | None => key
  end.

(** The type name a redirect is looked up under: [value.__typename], or
    ['Query'] when there is none and the container is the query root. *)
Definition typeNameFor (typeName : val) (containerId : NodeId) : val :=
  if negb (truthy typeName) && String.eqb containerId QueryRoot
  then VStr "Query" else typeName.

(** The lookup of a parameterized field: its own identity first, then the
    redirect configured for the type and field.  [Some None] is "still no
    snapshot", [None] the [TypeError] of [value.__typename]. *)
Definition resolveParameterized (context : CacheContext)
           (snapshot : GraphSnapshot) (h : Heap) (value : val)
           (containerId : NodeId) (path : list PathPart)
           (fieldName : string) (nodeArgs : FieldArguments)
  : option (option (NodeId * NodeSnapshot)) :=
  let childId :=
    nodeIdForParameterizedValue containerId (path ++ [PKey fieldName]) nodeArgs in
  match getNodeSnapshot snapshot childId with
  | Some childSnapshot => Some (Some (childId, childSnapshot))
  | None =>
      match js_read h value "__typename" with
      | None => None
      | Some typeName0 =>
          let typeName := typeNameFor typeName0 containerId in
          match resolverRedirects context typeName fieldName with
          | Some redirect =>
              match redirect nodeArgs with
              | Some redirected =>
                  match getNodeSnapshot snapshot redirected with
                  | Some childSnapshot => Some (Some (redirected, childSnapshot))
                  | None => Some None
                  end
              | None => Some None
              end
          | None => Some None
          end
      end
  end.

(** [for (let i = child.length - 1; i >= 0; i--)] over the fresh array at
    [child]; [n] is [i + 1]. *)
Fixpoint wrapElements (context : CacheContext) (child : loc)
         (nextContainerId : NodeId) (nodeChildren : ParsedQuery)
         (nextPath : list PathPart) (n : nat)
         (h : Heap) (queue : list OverlayWalkNode)
  : Heap * list OverlayWalkNode :=
  match n with
  | O => (h, queue)
  | S i =>
      match read_elem h child i with
      | VNull => wrapElements context child nextContainerId nodeChildren
                              nextPath i h queue
      | e =>
          let '(e', h1) := _wrapValue e context h in
          let h2 := write_elem h1 child i e' in
          wrapElements context child nextContainerId nodeChildren nextPath i h2
                       ({| ow_value := e'; containerId := nextContainerId;
                           parsedMap := nodeChildren;
                           path := nextPath ++ [PIdx i] |} :: queue)
      end
  end.

(** The values [_wrapValue] makes a copy of: objects, arrays, and [undefined]
    (for which it makes an empty object). *)
Definition isCopied (v : val) : bool :=
  match v with
  | VUndef | VRef _ => true
  | _ => false
  end.

(** [node.hasParameterizedChildren && node.children && child !== null] *)
Definition descends (node : ParsedQueryNode) (child : val) : bool :=
  hasParameterizedChildren node
  && match children node with Some _ => true | None => false end
  && negb (isNull child).

(** "Have we reached a leaf?": when not, the child is copied and queued. *)
Definition descend (context : CacheContext) (node : ParsedQueryNode)
           (child : val) (nextContainerId : NodeId)
           (nextPath : list PathPart)
           (h : Heap) (queue : list OverlayWalkNode)
  : val * Heap * list OverlayWalkNode :=
  match children node with
  | Some nodeChildren =>
      if hasParameterizedChildren node && negb (isNull child) then
        match as_array h child with
        | Some elems =>
            let '(l, h1) := alloc h (Arr elems []) in
            let '(h2, queue') :=
              wrapElements context l nextContainerId nodeChildren nextPath
                           (List.length elems) h1 queue in
            (VRef l, h2, queue')
        | None =>
            let '(child', h1) := _wrapValue child context h in
            (child', h1,
             {| ow_value := child'; containerId := nextContainerId;
                parsedMap := nodeChildren; path := nextPath |} :: queue)
        end
      else (child, h, queue)
  | None => (child, h, queue)
  end.

(** The tail of the loop body: the child is copied and queued when the walk
    goes on below it, then written under the response key,
    [value[key] = child]. *)
Definition linkChild (context : CacheContext) (value : val) (key : string)
           (node : ParsedQueryNode) (child : val)
           (nextContainerId : NodeId) (nextPath : list PathPart)
           (st : OverlayState) : step_result :=
  let '(child', h', queue') :=
    descend context node child nextContainerId nextPath
            (o_heap st) (o_queue st) in
  match js_write h' value key child' with
  | Some h'' =>
      Next {| o_heap := h''; o_queue := queue';
              o_dynamicNodeIds := o_dynamicNodeIds st |}
  | None =>
      TypeError {| o_heap := h'; o_queue := queue';
                   o_dynamicNodeIds := o_dynamicNodeIds st |}
  end.

(** The body of [for (const key in parsedMap)]. *)
Definition overlayField (context : CacheContext) (snapshot : GraphSnapshot)
           (value : val) (containerId : NodeId) (path : list PathPart)
           (key : string) (node : ParsedQueryNode) (st : OverlayState)
  : step_result :=
  let fieldName := fieldNameOf key node in
  match args node with
  | Some nodeArgs =>
      match resolveParameterized context snapshot (o_heap st) value
                                 containerId path fieldName nodeArgs with
      | None => TypeError st
      | Some None => Next st
      | Some (Some (childId, childSnapshot)) =>
          linkChild context value key node (data childSnapshot) childId []
                    {| o_heap := o_heap st; o_queue := o_queue st;
                       o_dynamicNodeIds := {[childId]} ∪ o_dynamicNodeIds st |}
      end
  | None =>
      match js_read (o_heap st) value fieldName with
      | None => TypeError st
      | Some child =>
          linkChild context value key node child containerId
                    (path ++ [PKey fieldName]) st
      end
  end.

Fixpoint overlayFields (context : CacheContext) (snapshot : GraphSnapshot)
         (value : val) (containerId : NodeId) (path : list PathPart)
         (fields : ParsedQuery) (st : OverlayState) : step_result :=
  match fields with
  | [] => Next st
  | (key, node) :: rest =>
      match overlayField context snapshot value containerId path key node st with
      | Next st' =>
          overlayFields context snapshot value containerId path rest st'
      | TypeError st' => TypeError st'
      end
  end.

(** The container a walk node's fields are relative to: the entity the
    value is, when it is one. *)
Definition containerOf (context : CacheContext) (h : Heap)
           (walkNode : OverlayWalkNode) : NodeId * list PathPart :=
  match entityIdForValue context h (ow_value walkNode) with
  | Some valueId =>
      if truthy_id (Some valueId) then (valueId, [])
      else (containerId walkNode, path walkNode)
  | None => (containerId walkNode, path walkNode)
  end.

(** One turn of [while (queue.length)] on the node just popped. *)
Definition overlayNode (context : CacheContext) (snapshot : GraphSnapshot)
           (walkNode : OverlayWalkNode) (st : OverlayState) : step_result :=
  let '(containerId, path) := containerOf context (o_heap st) walkNode in
  overlayFields context snapshot (ow_value walkNode) containerId path
                (parsedMap walkNode) st.

Fixpoint overlayLoop (fuel : nat) (context : CacheContext)
         (snapshot : GraphSnapshot) (st : OverlayState) : outcome :=
  match o_queue st with
  | [] => Finished st
  | walkNode :: rest =>
      match fuel with
      | O => OutOfFuel st
      | S fuel' =>
          match overlayNode context snapshot walkNode
                            {| o_heap := o_heap st; o_queue := rest;
                               o_dynamicNodeIds := o_dynamicNodeIds st |} with
          | Next st' => overlayLoop fuel' context snapshot st'
          | TypeError st' => Thrown st'
          end
      end
  end.

(** [_walkAndOverlayDynamicValues]: how the loop ended, and the value
    returned when it finished. *)
Definition _walkAndOverlayDynamicValues (fuel : nat)
           (query : OperationInstance) (context : CacheContext)
           (snapshot : GraphSnapshot) (h : Heap) (result : val)
           (dynamicNodeIds : gset NodeId) : outcome * val :=
  match getNodeSnapshot snapshot (rootId query) with
  | None =>
      (Finished {| o_heap := h; o_queue := [];
                   o_dynamicNodeIds := dynamicNodeIds |}, result)
  | Some rootSnapshot =>
      let '(newResult, h1) := _wrapValue result context h in
      (overlayLoop fuel context snapshot
         {| o_heap := h1;
            o_queue := [ {| ow_value := newResult; containerId := rootId query;
                            parsedMap := parsedQuery query; path := [] |} ];
            o_dynamicNodeIds := dynamicNodeIds |},
       newResult)
  end.

(** *** [read] *)

(** [if (!queryResult.result) { ... }] *)
Definition readResult (fuel : nat) (context : CacheContext)
           (snapshot : GraphSnapshot) (operation : OperationInstance)
           (includeNodeIds : bool) (queryResult : QueryResult) (h : Heap)
  : stage ReadVars :=
  if truthy (result queryResult) then Go (queryResult, [], true, h)
  else
    let result0 := getNodeData snapshot (rootId operation) in
    let overlaid : stage (val * option (gset NodeId) * Heap) :=
      if isStatic operation then Go (result0, dynamicNodeIds queryResult, h)
      else
        match _walkAndOverlayDynamicValues fuel operation context snapshot h
                                           result0 ∅ with
        | (Finished st, newResult) =>
            Go (newResult, Some (o_dynamicNodeIds st), o_heap st)
        | (Thrown st, _) =>
            Raise {| result := result0; complete := complete queryResult;
                     entityIds := entityIds queryResult;
                     dynamicNodeIds := dynamicNodeIds queryResult;
                     partitionedQuery := partitionedQuery queryResult |}
                  (o_heap st)
        | (OutOfFuel _, _) => NoFuel
        end in
    match overlaid with
    | Go (result1, dynamicIds, h1) =>
        match _visitSelection fuel operation context h1 result1
                              (if includeNodeIds then Some ∅ else None) with
        | Some visitResult =>
            Go ({| result := result1;
                   complete := Some (v_complete visitResult);
                   entityIds := v_nodeIds visitResult;
                   dynamicNodeIds := dynamicIds;
                   partitionedQuery := partitionedQuery queryResult |},
                v_missingFields visitResult, false, h1)
        | None => NoFuel
        end
    | Raise q h1 => Raise q h1
    | NoFuel => NoFuel
    end.

(** [if (includeNodeIds && !queryResult.entityIds) { ... }] *)
Definition readNodeIds (fuel : nat) (context : CacheContext)
           (operation : OperationInstance) (includeNodeIds : bool)
           (vars : ReadVars) : stage ReadVars :=
  let '(queryResult, missingFields, cacheHit, h) := vars in
  match includeNodeIds, entityIds queryResult with
  | true, None =>
      match _visitSelection fuel operation context h (result queryResult)
                            (Some ∅) with
      | Some visitResult =>
          Go ({| result := result queryResult;
                 complete := Some (v_complete visitResult);
                 entityIds := v_nodeIds visitResult;
                 dynamicNodeIds := dynamicNodeIds queryResult;
                 partitionedQuery := partitionedQuery queryResult |},
              v_missingFields visitResult, false, h)
      | None => NoFuel
      end
  | _, _ => Go vars
  end.

(** [if (!queryResult.result || missingFields.length === 0) ... else ...] *)
Definition readPartition (raw : RawOperation) (vars : ReadVars)
  : stage ReadVars :=
  let '(queryResult, missingFields, cacheHit, h) := vars in
  let withPartition (d : DocumentNode) : QueryResult :=
    {| result := result queryResult; complete := complete queryResult;
       entityIds := entityIds queryResult;
       dynamicNodeIds := dynamicNodeIds queryResult;
       partitionedQuery := Some d |} in
  if negb (truthy (result queryResult))
     || Nat.eqb (List.length missingFields) 0
  then Go (withPartition (document raw), missingFields, cacheHit, h)
  else
    match partitionQuery missingFields raw with
    | Some partitioned =>
        Go (withPartition (document partitioned), missingFields, cacheHit, h)
    | None => Raise queryResult h
    end.

(** [read].  [queryResult] is the object held by [readCache], so what was
    assigned to it is in the cache however the call ends.  [cacheHit] is
    what the tracer's [readEnd] is told. *)
Definition read (fuel : nat) (context : CacheContext) (raw : RawOperation)
           (snapshot : GraphSnapshot) (h : Heap) (includeNodeIds : bool)
  : read_outcome :=
  let operation := parseOperation context raw in
  let queryResult :=
    default emptyQueryResult (readCache snapshot !! op_ref operation) in
  match
    stage_bind
      (stage_bind
         (readResult fuel context snapshot operation includeNodeIds
                     queryResult h)
         (readNodeIds fuel context operation includeNodeIds))
      (readPartition raw)
  with
  | Go (queryResult', _, cacheHit, h') =>
      Returned queryResult' cacheHit
               (set_readCache snapshot operation queryResult') h'
  | Raise queryResult' h' =>
      Raised (set_readCache snapshot operation queryResult') h'
  | NoFuel => Exhausted
  end.

End Read.

(** ** Predicates the statements are written with *)

(** A value that, when it is a reference, points to one of the cells from
    [n] on and before [m]: one allocated while the store grew from [n] cells
    to [m]. *)
Definition between (n m : nat) (v : val) : Prop :=
  ∀ l, v = VRef l → n ≤ l < m.

(** The state a piece of the overlay leaves, however it ends. *)
Definition state_of (r : step_result) : OverlayState :=
  match r with
  | Next st => st
  | TypeError st => st
  end.

Definition final_state (o : outcome) : OverlayState :=
  match o with
  | Finished st => st
  | Thrown st => st
  | OutOfFuel st => st
  end.

(** A walk node the overlay queued while the store grew from [n] cells to
    [m], for the sub-selection [nodeChildren]: its value is never [null] or
    [undefined], and is a copy made in the meantime when it is a
    reference. *)
Definition queued_for (n m : nat) (nodeChildren : ParsedQuery)
           (w : OverlayWalkNode) : Prop :=
  between n m (ow_value w)
  ∧ isNil (ow_value w) = false
  ∧ parsedMap w = nodeChildren.

(** The same, for the sub-selection of one of [fields]. *)
Definition pushed_ok (n m : nat) (fields : ParsedQuery)
           (w : OverlayWalkNode) : Prop :=
  ∃ key node, (key, node) ∈ fields
              ∧ ∃ nodeChildren, children node = Some nodeChildren
                                ∧ queued_for n m nodeChildren w.

(** The references among the values of the queue [q] lie from [n] on and
    before [m], each below those above it in the queue: the copies are there
    in the order they were made, the latest on top. *)
Fixpoint layered (n m : nat) (q : list OverlayWalkNode) : Prop :=
  match q with
  | [] => True
  | w :: q' =>
      match ow_value w with
      | VRef l => n ≤ l < m ∧ layered n l q'
      | _ => layered n m q'
      end
  end.

(** What working on the fields [fields] of the walk node [value] may change:
    the store grows; a cell that was there is as it was unless [value] points
    to it, and then its properties outside the keys of [fields] are as they
    were; the queue gains copies only, each for the sub-selection of one of
    [fields]; the set of dynamic ids grows. *)
Definition effect (value : val) (fields : ParsedQuery)
           (st st' : OverlayState) : Prop :=
  List.length (o_heap st) ≤ List.length (o_heap st')
  ∧ (∀ v, v < List.length (o_heap st) → value ≠ VRef v →
          o_heap st' !! v = o_heap st !! v)
  ∧ (∀ t k, value = VRef t → t < List.length (o_heap st) →
            k ∉ map fst fields →
            read_prop (o_heap st') t k = read_prop (o_heap st) t k)
  ∧ (∃ pushed, o_queue st' = pushed ++ o_queue st
               ∧ Forall (pushed_ok (List.length (o_heap st))
                                   (List.length (o_heap st')) fields) pushed
               ∧ layered (List.length (o_heap st))
                         (List.length (o_heap st')) pushed)
  ∧ o_dynamicNodeIds st ⊆ o_dynamicNodeIds st'.

(** No walk node, queued or to come, points to the cell at [v]. *)
Definition untouched (v : loc) (st : OverlayState) : Prop :=
  v < List.length (o_heap st)
  ∧ Forall (λ w, ow_value w ≠ VRef v) (o_queue st).

(** The walk nodes that point to the cell at [l] have their fields among
    [keys]. *)
Definition guarded (l : loc) (keys : list string) (st : OverlayState) : Prop :=
  l < List.length (o_heap st)
  ∧ Forall (λ w, ow_value w = VRef l →
                 ∀ k, k ∈ map fst (parsedMap w) → k ∈ keys) (o_queue st).

(** What holds of the queue at every turn of the overlay's loop: its values
    are cells of the store, copies in the order they were made, and none is
    [null] or [undefined]. *)
Definition wellQueued (st : OverlayState) : Prop :=
  layered 0 (List.length (o_heap st)) (o_queue st)
  ∧ Forall (λ w, isNil (ow_value w) = false) (o_queue st).

(** No selection in the tree carries a directive. *)
Fixpoint directiveFree (s : SelectionNode) : bool :=
  match s with
  | Field _ _ _ _ ds sub =>
      match ds with [] => true | _ :: _ => false end
      && match sub with
         | Some ss => forallb directiveFree ss
         | None => true
         end
  | FragmentSpread _ _ ds => match ds with [] => true | _ :: _ => false end
  | InlineFragment _ _ ds ss =>
      match ds with [] => true | _ :: _ => false end
      && forallb directiveFree ss
  end.

(** What a selection kept by the partitioner is: a field, either one of the
    missing nodes kept as it stands, or a copy of a field of the query whose
    selection set was rebuilt, is not empty, and holds such selections
    only. *)
Inductive Rebuilt (fields : list SelectionNode) : SelectionNode → Prop :=
  | Rebuilt_verbatim r a n ar ds sub :
      listed fields (Field r a n ar ds sub) = true →
      Rebuilt fields (Field r a n ar ds sub)
  | Rebuilt_copy r a n ar ds ss :
      ss ≠ [] →
      Forall (Rebuilt fields) ss →
      Rebuilt fields (Field r a n ar ds (Some ss)).

(** The value is there and, when it is an object, is no array and holds
    [key]. *)
Definition presentWith (h : Heap) (value : val) (key : string) : Prop :=
  match value with
  | VUndef => False
  | VRef l => as_array h value = None ∧ has_prop h l key = true
  | _ => True
  end.

(** The response keys of a compiled node's sub-selection and of a compiled
    selection set, at every depth. *)
Fixpoint nodeKeys (n : ParsedQueryNode) : list string :=
  match n with
  | PQNode _ (Some l) _ _ _ =>
      (fix keys (l : list (string * ParsedQueryNode)) : list string :=
         match l with
         | [] => []
         | (k, n') :: r => k :: nodeKeys n' ++ keys r
         end) l
  | PQNode _ None _ _ _ => []
  end.

Fixpoint mapKeys (fields : list (string * ParsedQueryNode)) : list string :=
  match fields with
  | [] => []
  | (k, n) :: r => k :: nodeKeys n ++ mapKeys r
  end.

(** No response key of the compiled selection set, at any depth, is the name
    of a member of [Object.prototype]: the completeness check, which asks
    [field in value] and reads [value[field]] for these keys, then sees what
    the objects hold themselves and nothing else. *)
Definition ownKeysOnly (po : ParsedQuery) : bool :=
  forallb (λ key, negb (existsb (String.eqb key) objectPrototype))
          (mapKeys po).

(** The names of a compiled node's sub-selection and of a compiled
    selection set, at every depth: the response keys, under which the overlay
    writes, and the names in the schema, under which it reads. *)
Fixpoint nodeNames (n : ParsedQueryNode) : list string :=
  match n with
  | PQNode _ (Some l) _ _ _ =>
      (fix names (l : list (string * ParsedQueryNode)) : list string :=
         match l with
         | [] => []
         | (k, n') :: r => k :: fieldNameOf k n' :: nodeNames n' ++ names r
         end) l
  | PQNode _ None _ _ _ => []
  end.

Fixpoint mapNames (fields : list (string * ParsedQueryNode)) : list string :=
  match fields with
  | [] => []
  | (k, n) :: r => k :: fieldNameOf k n :: nodeNames n ++ mapNames r
  end.

(** None of them is the name of a member of [Object.prototype]: the overlay,
    which reads [value[fieldName]] and writes [value[key]], then reads and
    writes what the objects hold themselves. *)
Definition ownNamesOnly (po : ParsedQuery) : bool :=
  forallb (λ name, negb (existsb (String.eqb name) objectPrototype))
          (mapNames po).

(** [e] is one of the elements of the array [v]. *)
Definition element_of (h : Heap) (e v : val) : Prop :=
  ∃ elems, as_array h v = Some elems ∧ e ∈ elems.

(** The value has all the compiled selection set asks for: [null] has, an
    array when each element has, any other value when nothing is asked; a
    value of which fields are asked is there, holds every field when it is
    an object, and has under each field with a sub-selection a value that
    has all the sub-selection asks for. *)
Inductive Satisfied (h : Heap) : ParsedQuery → val → Prop :=
  | Satisfied_null po : Satisfied h po VNull
  | Satisfied_array po v elems :
      as_array h v = Some elems →
      Forall (Satisfied h po) elems →
      Satisfied h po v
  | Satisfied_nothing_asked v :
      v ≠ VNull → as_array h v = None → Satisfied h [] v
  | Satisfied_fields po v :
      v ≠ VNull → as_array h v = None → po ≠ [] →
      v ≠ VUndef →
      (isObject v = true →
       ∀ key node, (key, node) ∈ po → in_value h key v = true) →
      (∀ key node sub,
         (key, node) ∈ po → children node = Some sub →
         Satisfied h sub (get h v key)) →
      Satisfied h po v.

(** A selection node of the compiled selection set, at any depth. *)
Inductive selects : ParsedQuery → SelectionNode → Prop :=
  | selects_here po key node :
      (key, node) ∈ po → selects po (selection node)
  | selects_below po key node sub sel :
      (key, node) ∈ po → children node = Some sub → selects sub sel →
      selects po sel.

(** The walk nodes the completeness check comes to from [node]: the node
    itself; where its value is an array, those it comes to from an element of
    the array, paired with the node's own selection set; where its value is
    there and is no array, those it comes to from the sub-selection of one of
    its fields, paired with what the value holds under the field and queued
    under the field's selection. *)
Inductive comes_to (h : Heap) : OperationWalkNode → OperationWalkNode → Prop :=
  | comes_to_itself node : comes_to h node node
  | comes_to_element node elems e target :
      as_array h (parent node) = Some elems →
      e ∈ elems →
      comes_to h {| parsedOperation := parsedOperation node;
                    parentSelection := parentSelection node;
                    parent := e |} target →
      comes_to h node target
  | comes_to_field node key n sub target :
      parent node ≠ VNull →
      parent node ≠ VUndef →
      as_array h (parent node) = None →
      (key, n) ∈ parsedOperation node →
      children n = Some sub →
      comes_to h {| parsedOperation := sub;
                    parentSelection := Some (selection n);
                    parent := get h (parent node) key |} target →
      comes_to h node target.

(** A selection of the selection set at any depth, through the selection
    sets of its fields. *)
Inductive Within : list SelectionNode → SelectionNode → Prop :=
  | Within_here ss s : s ∈ ss → Within ss s
  | Within_below ss r a n ar ds sub s :
      Field r a n ar ds (Some sub) ∈ ss → Within sub s → Within ss s.

(** A field the partitioner comes to: it is in the selection set, or in the
    selection set of a field it comes to, and is included under the
    variables, as is every field above it. *)
Inductive Reached (shouldInclude : SelectionNode → Variables → bool)
          (variables : Variables)
  : list SelectionNode → SelectionNode → Prop :=
  | Reached_here ss s :
      s ∈ ss → isField s = true → shouldInclude s variables = true →
      Reached shouldInclude variables ss s
  | Reached_below ss r a n ar ds sub s :
      Field r a n ar ds (Some sub) ∈ ss →
      shouldInclude (Field r a n ar ds (Some sub)) variables = true →
      Reached shouldInclude variables sub s →
      Reached shouldInclude variables ss s.

(** [kept] is what is left of the selection set [ss] when selections are
    dropped and the selection sets of fields cut down in the same way:
    nothing is added, renamed or moved. *)
Inductive Pruned : list SelectionNode → list SelectionNode → Prop :=
  | Pruned_nil : Pruned [] []
  | Pruned_drop s ss kept : Pruned ss kept → Pruned (s :: ss) kept
  | Pruned_keep s ss kept : Pruned ss kept → Pruned (s :: ss) (s :: kept)
  | Pruned_trim r a n ar ds sub sub' ss kept :
      Pruned sub sub' → Pruned ss kept →
      Pruned (Field r a n ar ds (Some sub) :: ss)
             (Field r a n ar ds (Some sub') :: kept).

(** The walk nodes the overlay queues for the elements of a copied array,
    the one for the first element on top: one for each element that is not
    [null], with the element's index added to the path; [i] is the index of
    the first of [elems]. *)
Fixpoint elementNodes (nextContainerId : NodeId) (nodeChildren : ParsedQuery)
         (nextPath : list PathPart) (i : nat) (elems : list val)
  : list OverlayWalkNode :=
  match elems with
  | [] => []
  | e :: rest =>
      (if isNull e then []
       else [ {| ow_value := e; containerId := nextContainerId;
                 parsedMap := nodeChildren; path := nextPath ++ [PIdx i] |} ])
        ++ elementNodes nextContainerId nodeChildren nextPath (S i) rest
  end.

(** What the overlay makes of an element of an array it copies: [null] stays,
    an object, an array or [undefined] gives way to a copy allocated from
    [base] on, any other value stays. *)
Definition wrappedAs (base : nat) (e e' : val) : Prop :=
  if isNull e then e' = VNull
  else if isCopied e then ∃ l, e' = VRef l ∧ base ≤ l
       else e' = e.

(** Every array among [h], the cells of a store from location [i] on, holds
    references to cells before its own only. *)
Fixpoint arrays_point_down_from (i : nat) (h : Heap) : bool :=
  match h with
  | [] => true
  | c :: rest =>
      match c with
      | Arr elems _ =>
          forallb (λ e, match e with VRef l => l <? i | _ => true end) elems
      | Obj _ => true
      end
      && arrays_point_down_from (S i) rest
  end.

(** A test that is enough for no array of the store to hold itself. *)
Definition arrays_point_down (h : Heap) : bool := arrays_point_down_from 0 h.

(** The keys of a compiled selection set are distinct, as are those of the
    JavaScript object it stands for, and so are the keys of each sub-selection
    below it. *)
Inductive keysDistinct : ParsedQuery → Prop :=
  | keysDistinct_intro po :
      NoDup (map fst po) →
      (∀ key node sub,
         (key, node) ∈ po → children node = Some sub → keysDistinct sub) →
      keysDistinct po.

(** The cell at [a] refers to the cell at [b]: it holds a reference to it
    under one of its keys, or, being an array, as one of its elements. *)
Definition refers (h : Heap) (a b : loc) : Prop :=
  (∃ key, read_prop h a key = VRef b)
  ∨ (∃ elems, as_array h (VRef a) = Some elems ∧ VRef b ∈ elems).

(** The cell at [b] is part of the value at [a]: it is [a], or one comes to
    it from [a] from reference to reference. *)
Definition partOf (h : Heap) (a b : loc) : Prop := rtc (refers h) a b.

(** The states the overlay's loop comes to from [st]: [st] itself, and those
    it comes to from the state a turn of the loop leaves, when that turn has
    not thrown. *)
Inductive overlayComesTo
          (nodeIdForParameterizedValue :
             NodeId → list PathPart → FieldArguments → NodeId)
          (QueryRoot : NodeId)
          (context : CacheContext) (snapshot : GraphSnapshot)
  : OverlayState → OverlayState → Prop :=
  | overlayComesTo_here st :
      overlayComesTo nodeIdForParameterizedValue QueryRoot context snapshot
                     st st
  | overlayComesTo_turn st walkNode rest st1 st' :
      o_queue st = walkNode :: rest →
      overlayNode nodeIdForParameterizedValue QueryRoot context snapshot
                  walkNode
                  {| o_heap := o_heap st; o_queue := rest;
                     o_dynamicNodeIds := o_dynamicNodeIds st |}
      = Next st1 →
      overlayComesTo nodeIdForParameterizedValue QueryRoot context snapshot
                     st1 st' →
      overlayComesTo nodeIdForParameterizedValue QueryRoot context snapshot
                     st st'.

(** The cell at [x] hangs from the cell at [root] in the state [st]: it is
    [root], or a cell referred to by one that hangs from [root] and that the
    loop is done with, no walk node pointing to it. *)
Inductive hangs (st : OverlayState) (root : loc) : loc → Prop :=
  | hangs_root : hangs st root root
  | hangs_below u x :
      hangs st root u →
      untouched u st →
      refers (o_heap st) u x →
      hangs st root x.

(** What holds of every state the overlay of a result held in the store [h]
    comes to, [newResult] being the value it returns: the cells of [h] are
    as they were; the walk nodes point to copies, each made after those below
    it in the queue; the keys of their maps are distinct; and each copy hangs
    from the one returned. *)
Definition overlayKeeps (h : Heap) (newResult : val) (st : OverlayState)
  : Prop :=
  List.length h ≤ List.length (o_heap st)
  ∧ (∀ l, l < List.length h → o_heap st !! l = h !! l)
  ∧ layered (List.length h) (List.length (o_heap st)) (o_queue st)
  ∧ Forall (λ w, keysDistinct (parsedMap w)) (o_queue st)
  ∧ ∀ w x, w ∈ o_queue st → ow_value w = VRef x →
           ∃ root, newResult = VRef root ∧ hangs st root x.

(** What the keys of a walk node's object refer to once a field is linked:
    the walk nodes queued for the field. *)
Definition linked (h' : Heap) (v : loc) (keys : list string)
           (base top : nat) (pushed : list OverlayWalkNode) : Prop :=
  ∀ w x, w ∈ pushed → ow_value w = VRef x →
    base ≤ x < top
    ∧ ∃ key, key ∈ keys
        ∧ (read_prop h' v key = VRef x
           ∨ ∃ arr elems,
               read_prop h' v key = VRef arr
               ∧ base ≤ arr < top
               ∧ as_array h' (VRef arr) = Some elems
               ∧ VRef x ∈ elems
               ∧ ∀ w', w' ∈ pushed → ow_value w' ≠ VRef arr).

(** ** Sample documents, stores and contexts *)

(** The query [{ a b }], its compiled form, and the query [{ a }] made of
    its first field. *)
Definition aField := Field 1 None "a" [] [] None.
Definition bField := Field 2 None "b" [] [] None.

Definition siblingsDocument : DocumentNode :=
  {| definitions := [OperationDefinition OpQuery None [] [] [aField; bField]] |}.

Definition onlyADocument : DocumentNode :=
  {| definitions := [OperationDefinition OpQuery None [] [] [aField]] |}.

Definition siblingsParsed : ParsedQuery :=
  [("a", PQNode aField None None None false);
   ("b", PQNode bField None None None false)].

(** The query [{ foo { bar { fizz } baz { buzz } } }]. *)
Definition fizzField := Field 4 None "fizz" [] [] None.
Definition buzzField := Field 5 None "buzz" [] [] None.
Definition barField := Field 2 None "bar" [] [] (Some [fizzField]).
Definition bazField := Field 3 None "baz" [] [] (Some [buzzField]).
Definition fooField := Field 1 None "foo" [] [] (Some [barField; bazField]).

Definition nestedDocument : DocumentNode :=
  {| definitions := [OperationDefinition OpQuery None [] [] [fooField]] |}.

(** Its compiled form, as the test "parses queries with nested fields" of
    [parseQuery] has it, each node with the selection it comes from. *)
Definition nestedParsed : ParsedQuery :=
  [("foo",
    PQNode fooField
      (Some [("bar", PQNode barField
                       (Some [("fizz", PQNode fizzField None None None false)])
                       None None false);
             ("baz", PQNode bazField
                       (Some [("buzz", PQNode buzzField None None None false)])
                       None None false)])
      None None false)].

(** The query [{ foo { baz { buzz } } }], made of the nodes above. *)
Definition bazOnlyDocument : DocumentNode :=
  {| definitions :=
       [OperationDefinition OpQuery None [] []
          [Field 1 None "foo" [] [] (Some [bazField])]] |}.

Definition rootQuery : NodeId := "ROOT_QUERY".

Definition nestedRaw : RawOperation :=
  {| raw_rootId := rootQuery; document := nestedDocument; variables := ∅ |}.

Definition nestedOperation : OperationInstance :=
  {| op_ref := 0; rootId := rootQuery; isStatic := true;
     info_parsed := nestedParsed; parsedQuery := nestedParsed |}.

(** A context without entities, transformer or redirects. *)
Definition plainContext (operation : OperationInstance) : CacheContext :=
  {| entityIdForValue := fun _ _ => None;
     entityTransformer := None;
     resolverRedirects := fun _ _ => None;
     parseOperation := fun _ => operation |}.

(** No directive is looked at: every selection is included. *)
Definition includeAll : SelectionNode -> Variables -> bool := fun _ _ => true.

(** An identity for parameterized fields that spells out the container and
    the last path part. *)
Definition sampleNodeId (containerId : NodeId) (path : list PathPart)
           (nodeArgs : FieldArguments) : NodeId :=
  match last path with
  | Some (PKey k) => containerId +:+ "~" +:+ k
  | _ => containerId
  end.

Definition rootedAt (l : loc) : GraphSnapshot :=
  {| _values := {[ rootQuery := {| data := VRef l |} ]}; readCache := ∅ |}.

(** [{ foo: { bar: { fizz: 1 } } }] *)
Definition storeBarOnly : Heap :=
  [Obj [("foo", VRef 1)]; Obj [("bar", VRef 2)]; Obj [("fizz", VNum 1)]].

(** [{ foo: { bar: {} } }] *)
Definition storeEmptyBar : Heap :=
  [Obj [("foo", VRef 1)]; Obj [("bar", VRef 2)]; Obj []].

Definition siblingsRaw : RawOperation :=
  {| raw_rootId := rootQuery; document := siblingsDocument; variables := ∅ |}.

Definition siblingsOperation : OperationInstance :=
  {| op_ref := 1; rootId := rootQuery; isStatic := true;
     info_parsed := siblingsParsed; parsedQuery := siblingsParsed |}.

(** [{}], and [{ a: 1 }]: the former with the data [{ a }] asks for. *)
Definition storeEmptyRoot : Heap := [Obj []].
Definition storeWithA : Heap := [Obj [("a", VNum 1)]].

(** [{ foo: 5 }] *)
Definition storeScalarFoo : Heap := [Obj [("foo", VNum 5)]].

(** The query [{ count(min: 1) }], compiled; a snapshot that holds the
    parameterized value, and one that does not. *)
Definition countField :=
  Field 6 None "count" [{| arg_name := "min"; arg_value := IntValue 1 |}] [] None.

Definition countNode : ParsedQueryNode :=
  PQNode countField None None (Some [("min", VNum 1)]) false.

Definition countParsed : ParsedQuery := [("count", countNode)].

Definition countOperation : OperationInstance :=
  {| op_ref := 2; rootId := rootQuery; isStatic := false;
     info_parsed := countParsed; parsedQuery := countParsed |}.

Definition countedSnapshot : GraphSnapshot :=
  {| _values :=
       <[ "ROOT_QUERY~count" := {| data := VNum 7 |} ]>
         {[ rootQuery := {| data := VRef 0 |} ]};
     readCache := ∅ |}.

(** The overlay as it starts on the root [{}] of that query: the copy of the
    root at location 1, queued. *)
Definition countStart : OverlayState :=
  {| o_heap := [Obj []; Obj []];
     o_queue := [ {| ow_value := VRef 1; containerId := rootQuery;
                     parsedMap := countParsed; path := [] |} ];
     o_dynamicNodeIds := ∅ |}.

(** A snapshot without a root. *)
Definition emptySnapshot : GraphSnapshot :=
  {| _values := ∅; readCache := ∅ |}.

(** [{ foo: { bar: { fizz: 1 }, baz: { buzz: 2 } } }] *)
Definition storeComplete : Heap :=
  [Obj [("foo", VRef 1)]; Obj [("bar", VRef 2); ("baz", VRef 3)];
   Obj [("fizz", VNum 1)]; Obj [("buzz", VNum 2)]].

(** [{ foo: null }] *)
Definition storeNullFoo : Heap := [Obj [("foo", VNull)]].

(** A visitor that keeps the values it is called on and never stops the
    walk. *)
Definition logValues (value : val) (fields : list (string * SelectionNode))
           (parentSelection : option SelectionNode) (seen : list val)
  : bool * list val :=
  (false, seen ++ [value]).

(** The query [{ total: count }], compiled, and the overlay as it starts on
    the root [{ count: 3 }]: the copy of the root at location 1, queued. *)
Definition totalField := Field 7 (Some "total") "count" [] [] None.

Definition totalNode : ParsedQueryNode :=
  PQNode totalField None (Some "count") None false.

Definition totalParsed : ParsedQuery := [("total", totalNode)].

Definition totalStart : OverlayState :=
  {| o_heap := [Obj [("count", VNum 3)]; Obj [("count", VNum 3)]];
     o_queue := [ {| ow_value := VRef 1; containerId := rootQuery;
                     parsedMap := totalParsed; path := [] |} ];
     o_dynamicNodeIds := ∅ |}.

(** A snapshot whose read cache holds, for the nested query, a result read
    without node ids. *)
Definition cachedSnapshot : GraphSnapshot :=
  {| _values := {[ rootQuery := {| data := VRef 0 |} ]};
     readCache :=
       {[ 0 := {| result := VRef 0; complete := Some false;
                  entityIds := None; dynamicNodeIds := None;
                  partitionedQuery := Some bazOnlyDocument |} ]} |}.

(** The field [items { count(min: 1) }], compiled, and a store whose second
    cell is the array [[{ id: 1 }, null, 2]]. *)
Definition itemsNode : ParsedQueryNode :=
  PQNode (Field 8 None "items" [] [] (Some [countField]))
         (Some countParsed) None None true.

Definition storeItems : Heap :=
  [Obj [("id", VNum 1)]; Arr [VRef 0; VNull; VNum 2] []].

(** A context that redirects the field [count] of the type [Query] to the
    node [counter], and a snapshot that holds that node. *)
Definition redirectContext : CacheContext :=
  {| entityIdForValue := fun _ _ => None;
     entityTransformer := None;
     resolverRedirects :=
       fun typeName fieldName =>
         match typeName with
         | VStr name =>
             if String.eqb name "Query" && String.eqb fieldName "count"
             then Some (fun _ => Some "counter")
             else None
         | _ => None
         end;
     parseOperation := fun _ => countOperation |}.

Definition redirectedSnapshot : GraphSnapshot :=
  {| _values :=
       <[ "counter" := {| data := VNum 9 |} ]>
         {[ rootQuery := {| data := VRef 0 |} ]};
     readCache := ∅ |}.

(** The query [{ foo { bar } }] compiled with a selection set for [bar] of
    which nothing is left. *)
Definition hollowBarField := Field 2 None "bar" [] [] (Some []).
Definition hollowFooField := Field 1 None "foo" [] [] (Some [hollowBarField]).

Definition hollowParsed : ParsedQuery :=
  [("foo",
    PQNode hollowFooField
      (Some [("bar", PQNode hollowBarField (Some []) None None false)])
      None None false)].

Definition hollowOperation : OperationInstance :=
  {| op_ref := 3; rootId := rootQuery; isStatic := true;
     info_parsed := hollowParsed; parsedQuery := hollowParsed |}.

(** The query [{ items { count(min: 1) } }], compiled, a store whose root
    holds an object under [items], and the state the overlay of that root
    comes to with its first turn: the copy of the root at location 2 holds
    under [items] the copy made of the object, at location 3, which is
    queued. *)
Definition itemsParsed : ParsedQuery := [("items", itemsNode)].

Definition itemsOperation : OperationInstance :=
  {| op_ref := 4; rootId := rootQuery; isStatic := false;
     info_parsed := itemsParsed; parsedQuery := itemsParsed |}.

Definition storeItemsObject : Heap :=
  [Obj [("items", VRef 1)]; Obj [("id", VNum 1)]].

Definition itemsDescended : OverlayState :=
  {| o_heap := [Obj [("items", VRef 1)]; Obj [("id", VNum 1)];
                Obj [("items", VRef 3)]; Obj [("id", VNum 1)]];
     o_queue := [ {| ow_value := VRef 3; containerId := rootQuery;
                     parsedMap := countParsed; path := [PKey "items"] |} ];
     o_dynamicNodeIds := ∅ |}.

(** ** The walker and the completeness visitor *)

Section WalkerFacts.
Context {State : Type}.
Variable h : Heap.
Variable visitor :
  val -> list (string * SelectionNode) -> option SelectionNode -> State -> bool * State.

Lemma walk_loop_nil fuel (s : State) : walk_loop h visitor fuel [] s = Some s.
Proof. by destruct fuel. Qed.

Lemma walk_loop_step fuel node stack (s : State) :
  walk_loop h visitor (S fuel) (node :: stack) s =
  walk_loop h visitor fuel (walk_step h visitor node stack s).1
            (walk_step h visitor node stack s).2.
Proof. simpl. by destruct (walk_step h visitor node stack s). Qed.

(** More fuel never changes an answer. *)
Lemma walk_loop_mono fuel : ∀ fuel' stack (s s' : State),
  walk_loop h visitor fuel stack s = Some s' →
  (fuel ≤ fuel')%nat →
  walk_loop h visitor fuel' stack s = Some s'.
Proof.
  induction fuel as [|fuel IH]; intros fuel' stack s s' Hrun Hle.
  - destruct stack; [|done]. by rewrite walk_loop_nil.
  - destruct stack as [|node stack]; [by rewrite walk_loop_nil|].
    destruct fuel' as [|fuel']; [lia|].
    rewrite walk_loop_step in Hrun. rewrite walk_loop_step.
    apply IH; [done|lia].
Qed.

Lemma walk_step_null po psel stack (s : State) :
  walk_step h visitor
            {| parsedOperation := po; parentSelection := psel; parent := VNull |}
            stack s = (stack, s).
Proof. done. Qed.
End WalkerFacts.

Lemma fields_of_nonempty (po : ParsedQuery) :
  po ≠ [] →
  ∃ f fs, map (λ '(fieldName, n), (fieldName, selection n)) po = f :: fs.
Proof. destruct po as [|[k n] po]; [done|]. intros _. simpl. eauto. Qed.

(** A turn of the walk on a node paired with [undefined]. *)
Lemma walk_step_undefined context h po enclosing stack s :
  po ≠ [] →
  walk_step h (visit context h)
            {| parsedOperation := po; parentSelection := enclosing;
               parent := VUndef |} stack s
  = (stack, {| v_complete := false;
               v_missingFields := v_missingFields s ++ opt_list enclosing;
               v_nodeIds := v_nodeIds s |}).
Proof.
  intros Hpo. destruct (fields_of_nonempty po Hpo) as (f & fs & Hfields).
  unfold walk_step. simpl. by rewrite Hfields.
Qed.

(** A value that is there but is no object: the visitor leaves its state as
    it is and answers [false]. *)
Lemma visit_scalar context h value fields enclosing s :
  isNil value = false → isObject value = false →
  visit context h value fields enclosing s = (false, s).
Proof. by destruct value. Qed.

Lemma get_scalar h value key :
  isObject value = false → get h value key = VUndef.
Proof. by destruct value. Qed.

Lemma queued_children_scalar h (po : ParsedQuery) value :
  isObject value = false →
  queued_children h po value = queued_children h po VUndef.
Proof.
  intros Hv. unfold queued_children.
  induction po as [|[k n] po IH]; [done|].
  simpl. rewrite IH. by rewrite (get_scalar h value k Hv).
Qed.




(** C5.  A node paired with [null] is dropped as it is popped: the visitor is
    not called, nothing is queued below it, and the walk goes on exactly as
    if the node had never been on the stack; a [null] result is complete. *)
Theorem null_short_circuits_the_walk
        (context : CacheContext) (h : Heap) (po : ParsedQuery)
        (enclosing : option SelectionNode)
        (stack : list OperationWalkNode) (s : VisitState) (fuel : nat)
        (query : OperationInstance) (nodeIds : option (gset NodeId)) :
  let node :=
    {| parsedOperation := po; parentSelection := enclosing; parent := VNull |} in
  walk_step h (visit context h) node stack s = (stack, s)
  ∧ walk_loop h (visit context h) (S fuel) (node :: stack) s
    = walk_loop h (visit context h) fuel stack s
  ∧ ∃ ids, _visitSelection (S fuel) query context h VNull nodeIds
           = Some {| v_complete := true; v_missingFields := [];
                     v_nodeIds := ids |}.
Proof.
  intros node. split; [done|]. split; [done|].
  eexists. unfold _visitSelection, walkOperation.
  cbn [walk_loop]. rewrite walk_step_null. by rewrite walk_loop_nil.
Qed.

(** ** The partitioner *)

(** Induction on selections, through the selection sets they hold. *)
Section SelectionInduction.
Variable P : SelectionNode → Prop.
Hypothesis Hleaf : ∀ r a n ar ds, P (Field r a n ar ds None).
Hypothesis Hfield :
  ∀ r a n ar ds ss, Forall P ss → P (Field r a n ar ds (Some ss)).
Hypothesis Hspread : ∀ r n ds, P (FragmentSpread r n ds).
Hypothesis Hinline :
  ∀ r t ds ss, Forall P ss → P (InlineFragment r t ds ss).

Fixpoint selection_ind (s : SelectionNode) : P s :=
  let all :=
    fix all (l : list SelectionNode) : Forall P l :=
      match l with
      | [] => @List.Forall_nil _ P
      | x :: r => @List.Forall_cons _ P x r (selection_ind x) (all r)
      end in
  match s with
  | Field r a n ar ds None => Hleaf r a n ar ds
  | Field r a n ar ds (Some ss) => Hfield r a n ar ds ss (all ss)
  | FragmentSpread r n ds => Hspread r n ds
  | InlineFragment r t ds ss => Hinline r t ds ss (all ss)
  end.
End SelectionInduction.

Lemma Rebuilt_isField fields s : Rebuilt fields s → isField s = true.
Proof. by intros []. Qed.

Section PartitionerFacts.
Variable shouldInclude : SelectionNode → Variables → bool.

Lemma missingSelection_each variables fields (l : list SelectionNode) :
  (fix each (l : list SelectionNode) : list SelectionNode :=
     match l with
     | [] => []
     | s :: rest =>
         missingSelection shouldInclude variables fields s ++ each rest
     end) l
  = findMissingSelectionSets shouldInclude l variables fields.
Proof. induction l as [|s l IH]; [done|]. simpl. by rewrite IH. Qed.

(** The recursion as the source writes it. *)
Lemma missingSelection_eq variables fields selection :
  missingSelection shouldInclude variables fields selection =
  if negb (shouldInclude selection variables) then []
  else
    match selection with
    | Field r a n ar ds None =>
        if listed fields selection then [selection] else []
    | Field r a n ar ds (Some subSelections) =>
        if listed fields selection then [selection]
        else
          match findMissingSelectionSets shouldInclude subSelections
                                         variables fields with
          | [] => []
          | selectionToInsert =>
              [Field r a n ar ds (Some selectionToInsert)]
          end
    | _ => []
    end.
Proof.
  destruct selection as [r a n ar ds [ss|]| |]; try done.
  cbn [missingSelection]. rewrite missingSelection_each.
  by destruct (findMissingSelectionSets _ ss variables fields).
Qed.

Lemma findMissingSelectionSets_cons variables fields s ss :
  findMissingSelectionSets shouldInclude (s :: ss) variables fields =
  missingSelection shouldInclude variables fields s
    ++ findMissingSelectionSets shouldInclude ss variables fields.
Proof. done. Qed.

Lemma missingSelection_rebuilt variables fields selection :
  Forall (Rebuilt fields)
         (missingSelection shouldInclude variables fields selection).
Proof.
  induction selection as [r a n ar ds|r a n ar ds ss IH| |] using selection_ind;
    rewrite missingSelection_eq;
    destruct (negb (shouldInclude _ variables)); try done.
  - destruct (listed fields _) eqn:Hl; [|done].
    apply List.Forall_cons; [|done]. by apply Rebuilt_verbatim.
  - destruct (listed fields _) eqn:Hl.
    { apply List.Forall_cons; [|done]. by apply Rebuilt_verbatim. }
    assert (Forall (Rebuilt fields)
              (findMissingSelectionSets shouldInclude ss variables fields))
      as Hall.
    { clear Hl. induction IH as [|s ss Hs _ IHss]; [done|].
      rewrite findMissingSelectionSets_cons. by apply Forall_app. }
    destruct (findMissingSelectionSets shouldInclude ss variables fields)
      as [|s0 kept] eqn:Hkept; [done|].
    apply List.Forall_cons; [|done]. by apply Rebuilt_copy.
Qed.

Lemma findMissingSelectionSets_rebuilt variables fields ss :
  Forall (Rebuilt fields)
         (findMissingSelectionSets shouldInclude ss variables fields).
Proof.
  induction ss as [|s ss IH]; [done|].
  rewrite findMissingSelectionSets_cons.
  apply Forall_app. split; [apply missingSelection_rebuilt|done].
Qed.

(** C10.  For a document with one operation definition, [partitionQuery]
    returns a document whose only definition is that operation with its
    selection set rebuilt (the fragment definitions are gone), and every
    selection of a rebuilt selection set is a field: a missing node as it
    stands, or a copy with a rebuilt, non-empty selection set. *)
Theorem partitionQuery_keeps_one_definition_of_fields
        (fields : list SelectionNode) (raw : RawOperation)
        (main : DefinitionNode) :
  fields ≠ [] →
  filter (λ d, isOperation d = true) (definitions (document raw)) = [main] →
  ∃ kept partitioned,
    partitionQuery shouldInclude fields raw = Some partitioned
    ∧ definitions (document partitioned) = [with_selectionSet main kept]
    ∧ kept = findMissingSelectionSets shouldInclude (def_selectionSet main)
                                      (variables raw) fields
    ∧ Forall (Rebuilt fields) kept
    ∧ Forall (λ s, isField s = true) kept.
Proof.
  intros _ Hmain. unfold partitionQuery, getMainDefinition. rewrite Hmain.
  eexists _, _. split; [done|]. split; [done|]. split; [done|].
  pose proof (findMissingSelectionSets_rebuilt
                (variables raw) fields (def_selectionSet main)) as Hall.
  split; [done|].
  eapply Forall_impl; [exact Hall|]. intros s. apply Rebuilt_isField.
Qed.
End PartitionerFacts.

Lemma partitionQuery_keeps_one_definition_of_fields_witness :
  ∃ partitioned,
    partitionQuery includeAll [bazField] nestedRaw = Some partitioned
    ∧ document partitioned = bazOnlyDocument.
Proof.
  destruct (partitionQuery_keeps_one_definition_of_fields
              includeAll [bazField] nestedRaw
              (OperationDefinition OpQuery None [] [] [fooField]))
    as (kept & partitioned & Hp & Hdefs & Hkept & _); [done|reflexivity|].
  exists partitioned. split; [done|].
  destruct partitioned as [? [defs] ?]. simpl in Hdefs. subst. reflexivity.
Defined.

(** ** Runs of the completeness check *)

Lemma has_prop_of_read h l k :
  read_prop h l k ≠ VUndef → has_prop h l k = true.
Proof. unfold read_prop, has_prop. by destruct (assoc k _). Qed.

(** The visitor on an object. *)
Lemma visit_object context h l fields enclosing s :
  visit context h (VRef l) fields enclosing s =
  (false,
   {| v_complete :=
        match first_absent h (VRef l) fields with
        | Some _ => false
        | None => v_complete s
        end;
      v_missingFields :=
        v_missingFields s ++ opt_list (first_absent h (VRef l) fields);
      v_nodeIds := noteEntity context h (VRef l) (v_nodeIds s) |}).
Proof.
  unfold visit. cbn [isObject negb].
  destruct (first_absent h (VRef l) fields); [done|].
  by rewrite app_nil_r.
Qed.

(** A turn of the walk on an object that is no array. *)
Lemma walk_step_object context h k n po enclosing l stack s :
  as_array h (VRef l) = None →
  walk_step h (visit context h)
            {| parsedOperation := (k, n) :: po; parentSelection := enclosing;
               parent := VRef l |} stack s =
  (rev (queued_children h ((k, n) :: po) (VRef l)) ++ stack,
   (visit context h (VRef l)
          (map (λ '(fieldName, n), (fieldName, selection n)) ((k, n) :: po))
          enclosing s).2).
Proof.
  intros Harr. unfold walk_step.
  cbn [parent parsedOperation parentSelection]. rewrite Harr.
  cbn [map]. by rewrite visit_object.
Qed.

Lemma noteEntity_is_Some context h value ids :
  is_Some (noteEntity context h value ids) ↔ is_Some ids.
Proof.
  unfold noteEntity. destruct ids as [ids|]; [|done].
  destruct (entityIdForValue context h value); split; eauto.
Qed.

Lemma visit_nodeIds_is_Some context h value fields enclosing s :
  is_Some (v_nodeIds (visit context h value fields enclosing s).2)
  ↔ is_Some (v_nodeIds s).
Proof.
  destruct value; try done.
  rewrite visit_object. apply noteEntity_is_Some.
Qed.

Lemma walk_step_nodeIds_is_Some context h node stack s :
  is_Some (v_nodeIds (walk_step h (visit context h) node stack s).2)
  ↔ is_Some (v_nodeIds s).
Proof.
  unfold walk_step. destruct (parent node) eqn:Hp; try done;
    destruct (as_array h _); try done;
    destruct (map _ (parsedOperation node)) as [|f fs]; try done;
    pose proof (visit_nodeIds_is_Some context h (parent node) (f :: fs)
                  (parentSelection node) s) as Hv;
    rewrite Hp in Hv;
    destruct (visit context h _ (f :: fs) (parentSelection node) s) as [[] s'];
    done.
Qed.

(** The walk collects node ids exactly when it was given a set for them. *)
Lemma walk_loop_nodeIds_is_Some context h fuel : ∀ stack s s',
  walk_loop h (visit context h) fuel stack s = Some s' →
  (is_Some (v_nodeIds s') ↔ is_Some (v_nodeIds s)).
Proof.
  induction fuel as [|fuel IH]; intros stack s s' Hrun.
  - destruct stack; [|done]. by injection Hrun as <-.
  - destruct stack as [|node stack]; [by injection Hrun as <-|].
    rewrite walk_loop_step in Hrun. apply IH in Hrun.
    rewrite Hrun. apply walk_step_nodeIds_is_Some.
Qed.

Lemma visitSelection_nodeIds_is_Some fuel query context h result nodeIds s :
  _visitSelection fuel query context h result nodeIds = Some s →
  (is_Some (v_nodeIds s) ↔ is_Some nodeIds).
Proof.
  unfold _visitSelection, walkOperation. intros Hrun.
  apply walk_loop_nodeIds_is_Some in Hrun. rewrite Hrun. cbn [v_nodeIds].
  destruct nodeIds, result; split; eauto; by intros [? ?].
Qed.

(** The walk of a value that has what the one leaf field [key] asks for:
    nothing is flagged and nothing queued. *)
Lemma walk_step_leaf_present context h key leafSelection enclosing value stack s :
  presentWith h value key →
  ∃ ids,
    walk_step h (visit context h)
              {| parsedOperation := [(key, PQNode leafSelection None None None false)];
                 parentSelection := enclosing; parent := value |} stack s
    = (stack, {| v_complete := v_complete s;
                 v_missingFields := v_missingFields s; v_nodeIds := ids |})
    ∧ (is_Some ids ↔ is_Some (v_nodeIds s)).
Proof.
  destruct s as [c m ids]. destruct value as [| | b | n | str | l];
    intros Hp; try done; try by (eexists; split; [reflexivity|]).
  destruct Hp as [Harr Hhas].
  eexists. rewrite walk_step_object, visit_object by done.
  cbn [map selection first_absent in_value queued_children flat_map children].
  rewrite Hhas. cbn [negb opt_list rev app snd v_missingFields v_complete v_nodeIds].
  rewrite app_nil_r. split; [done|]. apply noteEntity_is_Some.
Qed.

(** The completeness check of [{ foo { bar { fizz } baz { buzz } } }] on a
    result whose [foo] has its [bar] and lacks [baz]: [baz] is pushed once by
    the field loop of [foo] when the key is not there at all, and once more
    when the walk meets the [undefined] below it. *)
Lemma visit_nested_missing_baz context h rootL fooL barValue ids0 :
  as_array h (VRef rootL) = None →
  read_prop h rootL "foo" = VRef fooL →
  as_array h (VRef fooL) = None →
  read_prop h fooL "bar" = barValue →
  presentWith h barValue "fizz" →
  read_prop h fooL "baz" = VUndef →
  ∃ ids,
    (is_Some ids ↔ is_Some ids0)
    ∧ ∀ fuel, (4 ≤ fuel)%nat →
        walkOperation h (visit context h) fuel nestedParsed (VRef rootL)
                      {| v_complete := true; v_missingFields := [];
                         v_nodeIds := ids0 |}
        = Some {| v_complete := false;
                  v_missingFields :=
                    (if has_prop h fooL "baz" then [] else [bazField])
                      ++ [bazField];
                  v_nodeIds := ids |}.
Proof.
  intros Hroot Hfoo Hfooarr Hbar Hpresent Hbaz.
  assert (has_prop h rootL "foo" = true) as Hhasfoo
      by (apply has_prop_of_read; by rewrite Hfoo).
  assert (has_prop h fooL "bar" = true) as Hhasbar.
  { apply has_prop_of_read. rewrite Hbar. by destruct barValue. }
  set (s2 := {| v_complete := false;
                v_missingFields :=
                  (if has_prop h fooL "baz" then [] else [bazField]) ++ [bazField];
                v_nodeIds :=
                  noteEntity context h (VRef fooL)
                             (noteEntity context h (VRef rootL) ids0) |}).
  destruct (walk_step_leaf_present context h "fizz" fizzField (Some barField)
              barValue [] s2 Hpresent) as (ids & Hstep & Hids).
  exists ids. split.
  { rewrite Hids. subst s2. cbn [v_nodeIds].
    by rewrite !noteEntity_is_Some. }
  intros fuel Hfuel. do 4 (destruct fuel as [|fuel]; [lia|]). clear Hfuel.
  unfold walkOperation, nestedParsed.
  rewrite walk_loop_step, walk_step_object, visit_object by done.
  cbn [map selection first_absent in_value queued_children flat_map children
       fst snd get rev app opt_list v_complete v_missingFields v_nodeIds].
  rewrite Hhasfoo, Hfoo. cbn [negb opt_list app fst snd].
  rewrite walk_loop_step, walk_step_object, visit_object by done.
  cbn [map selection first_absent in_value queued_children flat_map children
       fst snd get rev app opt_list v_complete v_missingFields v_nodeIds].
  rewrite Hhasbar, Hbar, Hbaz. cbn [negb].
  rewrite walk_loop_step.
  cbn [walk_step parent as_array parsedOperation map selection visit
       parentSelection opt_list fst snd v_complete v_missingFields v_nodeIds].
  rewrite walk_loop_step.
  replace {| v_complete := false; v_missingFields := _; v_nodeIds := _ |}
    with s2; last first.
  { subst s2. f_equal. by destruct (has_prop h fooL "baz"). }
  rewrite Hstep. cbn [fst snd]. by rewrite walk_loop_nil.
Qed.

Section ReadFacts.
Variable shouldInclude : SelectionNode → Variables → bool.
Variable nodeIdForParameterizedValue :
  NodeId → list PathPart → FieldArguments → NodeId.
Variable QueryRoot : NodeId.

Local Abbreviation read := (read shouldInclude nodeIdForParameterizedValue QueryRoot).

(** Where no selection carries a directive, [shouldInclude] lets every
    selection through. *)
Lemma missingSelection_directiveFree variables fields :
  (∀ s, sel_directives s = [] → shouldInclude s variables = true) →
  ∀ selection, directiveFree selection = true →
  missingSelection shouldInclude variables fields selection
  = missingSelection includeAll variables fields selection.
Proof.
  intros Hinc selection.
  induction selection as [r a n ar ds|r a n ar ds ss IH|r n ds|r t ds ss IH]
    using selection_ind; intros Hfree; rewrite !missingSelection_eq.
  - destruct ds; [|done]. by rewrite Hinc.
  - destruct ds; [|done]. rewrite Hinc by done. cbn [includeAll negb].
    destruct (listed fields _); [done|].
    assert (findMissingSelectionSets shouldInclude ss variables fields
            = findMissingSelectionSets includeAll ss variables fields) as ->;
      [|done].
    cbn [directiveFree andb] in Hfree.
    induction IH as [|s ss Hs _ IHss]; [done|].
    cbn [forallb] in Hfree. apply andb_prop in Hfree as [Hfs Hfss].
    rewrite !findMissingSelectionSets_cons. by rewrite Hs, IHss.
  - by destruct (shouldInclude _ _).
  - by destruct (shouldInclude _ _).
Qed.

(** The partition of the nested query when [baz] is what is missing. *)
Lemma partition_nested_missing_baz (raw : RawOperation) (twice : bool) :
  (∀ s, sel_directives s = [] → shouldInclude s (variables raw) = true) →
  document raw = nestedDocument →
  ∃ partitioned,
    partitionQuery shouldInclude
                   ((if twice then [bazField] else []) ++ [bazField]) raw
    = Some partitioned
    ∧ document partitioned = bazOnlyDocument.
Proof.
  intros Hinc Hdoc. unfold partitionQuery. rewrite Hdoc.
  eexists. split; [reflexivity|].
  cbn [document getMainDefinition nestedDocument definitions filter].
  unfold bazOnlyDocument. do 2 f_equal.
  cbn [with_selectionSet def_selectionSet]. f_equal.
  rewrite findMissingSelectionSets_cons.
  rewrite (missingSelection_directiveFree _ _ Hinc) by reflexivity.
  by destruct twice.
Qed.

(** C1, as the code has it.  [{ foo { bar { fizz } baz { buzz } } }] read
    for the first time against a snapshot whose root holds an object [foo],
    in which [bar] is there and has its [fizz] and [baz] is absent: the read
    is not complete, every entry of the missing list is the [baz] selection
    node, and the partitioned document is [{ foo { baz { buzz } } }]. *)
Theorem read_nested_query_partitions_to_baz
        (context : CacheContext) (raw : RawOperation)
        (snapshot : GraphSnapshot) (h : Heap) (includeNodeIds : bool)
        (operation : OperationInstance) (rootL fooL : loc) (barValue : val) :
  (∀ s, sel_directives s = [] → shouldInclude s (variables raw) = true) →
  document raw = nestedDocument →
  parseOperation context raw = operation →
  info_parsed operation = nestedParsed →
  isStatic operation = true →
  readCache snapshot !! op_ref operation = None →
  getNodeData snapshot (rootId operation) = VRef rootL →
  as_array h (VRef rootL) = None →
  read_prop h rootL "foo" = VRef fooL →
  as_array h (VRef fooL) = None →
  read_prop h fooL "bar" = barValue →
  presentWith h barValue "fizz" →
  read_prop h fooL "baz" = VUndef →
  ∃ queryResult visitResult snapshot',
    (∀ fuel, (4 ≤ fuel)%nat →
       read fuel context raw snapshot h includeNodeIds
       = Returned queryResult false snapshot' h
       ∧ _visitSelection fuel operation context h (VRef rootL)
                         (if includeNodeIds then Some ∅ else None)
         = Some visitResult)
    ∧ complete queryResult = Some false
    ∧ v_complete visitResult = false
    ∧ (∀ s, s ∈ v_missingFields visitResult ↔ s = bazField)
    ∧ partitionedQuery queryResult = Some bazOnlyDocument.
Proof.
  intros Hinc Hdoc Hparse Hparsed Hstatic Hcache Hdata
         Hroot Hfoo Hfooarr Hbar Hpresent Hbaz.
  set (ids0 := if includeNodeIds
               then Some ({[rootId operation]} ∪ (∅ : gset NodeId))
               else None).
  destruct (visit_nested_missing_baz context h rootL fooL barValue ids0
              Hroot Hfoo Hfooarr Hbar Hpresent Hbaz) as (ids & Hids & Hwalk).
  destruct (partition_nested_missing_baz raw (negb (has_prop h fooL "baz"))
              Hinc Hdoc) as (partitioned & Hpart & Hpdoc).
  assert (∀ fuel, (4 ≤ fuel)%nat →
            _visitSelection fuel operation context h (VRef rootL)
                            (if includeNodeIds then Some ∅ else None)
            = Some {| v_complete := false;
                      v_missingFields :=
                        (if has_prop h fooL "baz" then [] else [bazField])
                          ++ [bazField];
                      v_nodeIds := ids |}) as Hvisit.
  { intros fuel Hfuel. unfold _visitSelection. rewrite Hparsed.
    rewrite <- (Hwalk fuel Hfuel). subst ids0. by destruct includeNodeIds. }
  eexists _, _, _. split; [|split; [|split; [|split]]].
  - intros fuel Hfuel. split; [|by apply Hvisit].
    unfold read. rewrite Hparse, Hcache. cbn [default].
    unfold readResult. cbn [result emptyQueryResult truthy].
    rewrite Hstatic, Hdata, (Hvisit fuel Hfuel).
    cbn [stage_bind readNodeIds entityIds v_nodeIds v_complete v_missingFields].
    assert (match includeNodeIds, ids with
            | true, None => False
            | _, _ => True
            end) as Hsome.
    { destruct includeNodeIds, ids; try done.
      subst ids0. destruct Hids as [_ Hids].
      by destruct Hids as [? ?]; [eexists|]. }
    assert ((if has_prop h fooL "baz" then [] else [bazField]) ++ [bazField]
            = (if negb (has_prop h fooL "baz") then [bazField] else [])
                ++ [bazField]) as Hlist
        by by destruct (has_prop h fooL "baz").
    rewrite Hlist.
    destruct includeNodeIds, ids; try done;
      cbn [stage_bind readPartition result truthy negb orb];
      (destruct (negb (has_prop h fooL "baz"));
       cbn [app List.length Nat.eqb] in *; rewrite Hpart, Hpdoc; reflexivity).
  - done.
  - done.
  - intros s. cbn [v_missingFields].
    destruct (has_prop h fooL "baz"); cbn [app];
      rewrite ?elem_of_cons, elem_of_nil; tauto.
  - done.
Qed.
End ReadFacts.

Lemma read_nested_query_partitions_to_baz_witness :
  ∃ queryResult snapshot',
    read includeAll sampleNodeId rootQuery 4 (plainContext nestedOperation)
         nestedRaw (rootedAt 0) storeBarOnly false
    = Returned queryResult false snapshot' storeBarOnly
    ∧ complete queryResult = Some false
    ∧ partitionedQuery queryResult = Some bazOnlyDocument.
Proof.
  destruct (read_nested_query_partitions_to_baz
              includeAll sampleNodeId rootQuery
              (plainContext nestedOperation) nestedRaw (rootedAt 0)
              storeBarOnly false nestedOperation 0 1 (VRef 2))
    as (queryResult & visitResult & snapshot' & Hread & Hc & _ & _ & Hp);
    try reflexivity.
  { split; reflexivity. }
  exists queryResult, snapshot'. split; [|done].
  apply (Hread 4). lia.
Defined.

(** C1 as stated fails: with [foo.bar] there but empty, [{ foo: { bar: {} } }],
    and [foo.baz] absent, the missing list holds [fizz] as well and the
    partitioned document is the whole query. *)
Lemma read_nested_query_empty_bar_flags_fizz :
  read_prop storeEmptyBar 1 "bar" = VRef 2
  ∧ read_prop storeEmptyBar 1 "baz" = VUndef
  ∧ _visitSelection 10 nestedOperation (plainContext nestedOperation)
                    storeEmptyBar (VRef 0) None
    = Some {| v_complete := false;
              v_missingFields := [bazField; bazField; fizzField];
              v_nodeIds := None |}
  ∧ ∃ queryResult snapshot',
      read includeAll sampleNodeId rootQuery 10 (plainContext nestedOperation)
           nestedRaw (rootedAt 0) storeEmptyBar false
      = Returned queryResult false snapshot' storeEmptyBar
      ∧ partitionedQuery queryResult = Some nestedDocument
      ∧ nestedDocument ≠ bazOnlyDocument.
Proof.
  split; [reflexivity|]. split; [reflexivity|]. split; [reflexivity|].
  eexists _, _. split; [reflexivity|]. split; [reflexivity|]. discriminate.
Qed.

(** C2, where the code departs from it.  [{ a b }] read against a root that
    holds neither field: the field loop stops at [a], so the partitioned
    document is [{ a }]; read again against the root extended with exactly
    the data [{ a }] asks for, the result is still not complete, [b] being
    absent. *)
Theorem partition_leaves_out_later_sibling :
  (∃ queryResult snapshot',
     read includeAll sampleNodeId rootQuery 10 (plainContext siblingsOperation)
          siblingsRaw (rootedAt 0) storeEmptyRoot false
     = Returned queryResult false snapshot' storeEmptyRoot
     ∧ complete queryResult = Some false
     ∧ partitionedQuery queryResult = Some onlyADocument)
  ∧ _visitSelection 10 siblingsOperation (plainContext siblingsOperation)
                    storeEmptyRoot (VRef 0) None
    = Some {| v_complete := false; v_missingFields := [aField];
              v_nodeIds := None |}
  ∧ (∃ queryResult snapshot',
       read includeAll sampleNodeId rootQuery 10 (plainContext siblingsOperation)
            siblingsRaw (rootedAt 0) storeWithA false
       = Returned queryResult false snapshot' storeWithA
       ∧ complete queryResult = Some false).
Proof.
  split; [|split].
  - eexists _, _. split; [reflexivity|]. split; reflexivity.
  - reflexivity.
  - eexists _, _. split; reflexivity.
Qed.

(** ** The overlay *)

Lemma assoc_assoc_set_eq {A} k (a : A) l : assoc k (assoc_set k a l) = Some a.
Proof.
  induction l as [|[k' a'] l IH]; simpl.
  - by rewrite String.eqb_refl.
  - destruct (String.eqb k k') eqn:E; simpl; rewrite ?String.eqb_refl, ?E; done.
Qed.

Lemma assoc_assoc_set_ne {A} k k' (a : A) l :
  k' ≠ k → assoc k' (assoc_set k a l) = assoc k' l.
Proof.
  intros Hne. induction l as [|[k0 a0] l IH]; simpl.
  - by apply String.eqb_neq in Hne as ->.
  - destruct (String.eqb k k0) eqn:E; simpl.
    + apply String.eqb_eq in E as <-. by apply String.eqb_neq in Hne as ->.
    + by rewrite IH.
Qed.

Lemma cell_props_set c ps : cell_props (set_cell_props c ps) = ps.
Proof. by destruct c. Qed.

Lemma deref_app h ext l : l < List.length h → deref (h ++ ext) l = deref h l.
Proof. intros Hl. unfold deref. by rewrite lookup_app_l. Qed.

Lemma deref_lookup h h' l : h' !! l = h !! l → deref h' l = deref h l.
Proof. unfold deref. by intros ->. Qed.

Lemma read_prop_lookup h h' l k : h' !! l = h !! l → read_prop h' l k = read_prop h l k.
Proof. intros H. unfold read_prop. by rewrite (deref_lookup _ _ _ H). Qed.

Lemma length_write_prop h t k c : List.length (write_prop h t k c) = List.length h.
Proof. unfold write_prop. apply length_insert. Qed.

Lemma lookup_write_prop_ne h t k c l : l ≠ t → write_prop h t k c !! l = h !! l.
Proof. intros Hne. unfold write_prop. by apply list_lookup_insert_ne. Qed.

Lemma read_prop_write_prop_eq h t k c :
  t < List.length h → read_prop (write_prop h t k c) t k = c.
Proof.
  intros Ht. unfold read_prop, write_prop, deref at 1.
  rewrite list_lookup_insert_eq by done. simpl.
  by rewrite cell_props_set, assoc_assoc_set_eq.
Qed.

Lemma read_prop_write_prop_ne h t k c k' :
  k' ≠ k → read_prop (write_prop h t k c) t k' = read_prop h t k'.
Proof.
  intros Hne. destruct (decide (t < List.length h)) as [Ht|Ht].
  - unfold read_prop, write_prop, deref at 1.
    rewrite list_lookup_insert_eq by done. simpl.
    by rewrite cell_props_set, assoc_assoc_set_ne.
  - unfold write_prop. rewrite list_insert_ge by lia. done.
Qed.

Lemma write_prop_app h ext t k c :
  List.length h ≤ t → ∃ ext', write_prop (h ++ ext) t k c = h ++ ext'.
Proof.
  intros Ht. unfold write_prop. eexists.
  by rewrite insert_app_r_alt.
Qed.

Lemma length_write_elem h t i v : List.length (write_elem h t i v) = List.length h.
Proof. unfold write_elem. destruct (deref h t); [done|]. apply length_insert. Qed.

Lemma write_elem_app h ext t i v :
  List.length h ≤ t → ∃ ext', write_elem (h ++ ext) t i v = h ++ ext'.
Proof.
  intros Ht. unfold write_elem. destruct (deref _ t); [by eexists|].
  eexists. by rewrite insert_app_r_alt.
Qed.

(** [_wrapValue] only allocates; a copy it makes is a new cell. *)
Lemma wrapValue_effect value context h value' h' :
  _wrapValue value context h = (value', h') →
  (∃ ext, h' = h ++ ext)
  ∧ between (List.length h) (List.length h') value'
  ∧ (isNull value = false → isNil value' = false)
  ∧ (isObject value = true ∨ value = VUndef →
     value' = VRef (List.length h))
  ∧ (isObject value = false → value ≠ VUndef → value' = value ∧ h' = h).
Proof.
  unfold _wrapValue, alloc.
  destruct value as [| | b | n | s | l0]; intros Heq;
    try (injection Heq as <- <-;
         split; [by exists []; rewrite app_nil_r|];
         split; [by intros l|]; split; [done|];
         split; [by intros [|]|done]).
  - injection Heq as <- <-.
    split; [by eexists|].
    split; [intros l [= <-]; rewrite length_app; cbn; lia|].
    split; [done|]. split; done.
  - destruct (deref h l0); injection Heq as <- <-;
      (split; [by eexists|]);
      (split; [intros l [= <-]; rewrite length_app; cbn; lia|]);
      (split; [done|]); split; done.
Qed.

Lemma between_le n n' m m' v :
  n' ≤ n → m ≤ m' → between n m v → between n' m' v.
Proof. intros Hn Hm Hb l Hl. specialize (Hb l Hl). lia. Qed.

Lemma queued_for_le n n' m m' nodeChildren w :
  n' ≤ n → m ≤ m' →
  queued_for n m nodeChildren w → queued_for n' m' nodeChildren w.
Proof. intros Hn Hm (Hb & Hnil & Hmap). split; [by eapply between_le|done]. Qed.

Lemma pushed_ok_le n n' m m' fields fields' w :
  n' ≤ n → m ≤ m' → fields ⊆ fields' →
  pushed_ok n m fields w → pushed_ok n' m' fields' w.
Proof.
  intros Hn Hm Hsub (key & node & Hin & c & Hc & Hq).
  exists key, node. split; [by apply Hsub|].
  exists c. split; [done|]. by eapply queued_for_le.
Qed.

Lemma layered_weaken n n' q : ∀ m m',
  n' ≤ n → m ≤ m' → layered n m q → layered n' m' q.
Proof.
  induction q as [|w q IH]; intros m m' Hn Hm; [done|]. cbn.
  destruct (ow_value w); try by apply IH.
  intros [Hl Hq]. split; [lia|]. by apply (IH l l).
Qed.

Lemma layered_app n k p q : ∀ m,
  n ≤ k → k ≤ m → layered k m p → layered n k q → layered n m (p ++ q).
Proof.
  induction p as [|w p IH]; intros m Hn Hk Hp Hq; cbn in *.
  - by apply (layered_weaken n n q k m).
  - destruct (ow_value w); try by apply IH.
    destruct Hp as [Hl Hp]. split; [lia|]. apply IH; [done|lia|done..].
Qed.

Lemma layered_between n q : ∀ m,
  layered n m q → Forall (λ w, between n m (ow_value w)) q.
Proof.
  induction q as [|w q IH]; intros m Hq; [done|]. cbn in Hq.
  destruct (ow_value w) as [| | b | z | s | l] eqn:Hw;
    try (apply Forall_cons; split; [by rewrite Hw|by apply IH]).
  destruct Hq as [Hl Hq]. apply Forall_cons. split.
  - rewrite Hw. by intros l' [= <-].
  - eapply Forall_impl; [apply (IH l Hq)|].
    intros w'. apply between_le; lia.
Qed.

(** Below the node on top, no queued node points to the cell it points
    to. *)
Lemma layered_head n m w q v :
  ow_value w = VRef v →
  layered n m (w :: q) →
  n ≤ v < m ∧ Forall (λ w', between n v (ow_value w')) q.
Proof.
  intros Hw Hq. cbn in Hq. rewrite Hw in Hq. destruct Hq as [Hv Hq].
  split; [done|]. by apply layered_between.
Qed.

Lemma wrapElements_S context child cid nodeChildren nextPath i h queue :
  wrapElements context child cid nodeChildren nextPath (S i) h queue =
  if isNull (read_elem h child i)
  then wrapElements context child cid nodeChildren nextPath i h queue
  else
    let '(e', h1) := _wrapValue (read_elem h child i) context h in
    wrapElements context child cid nodeChildren nextPath i
                 (write_elem h1 child i e')
                 ({| ow_value := e'; containerId := cid;
                     parsedMap := nodeChildren;
                     path := nextPath ++ [PIdx i] |} :: queue).
Proof. simpl. by destruct (read_elem h child i). Qed.

(** The loop over a fresh array writes into that array and into nothing
    older, and queues copies only. *)
Lemma wrapElements_effect context child cid nodeChildren nextPath hb :
  List.length hb ≤ child →
  ∀ n h queue h' queue',
    (∃ ext, h = hb ++ ext) →
    wrapElements context child cid nodeChildren nextPath n h queue = (h', queue') →
    (∃ ext, h' = hb ++ ext)
    ∧ List.length h ≤ List.length h'
    ∧ ∃ pushed, queue' = pushed ++ queue
                ∧ Forall (queued_for (List.length hb) (List.length h')
                                     nodeChildren) pushed
                ∧ layered (List.length h) (List.length h') pushed.
Proof.
  intros Hchild. induction n as [|i IH]; intros h queue h' queue' Hext Hrun.
  - injection Hrun as <- <-. split; [done|]. split; [done|]. by exists [].
  - rewrite wrapElements_S in Hrun.
    destruct (isNull (read_elem h child i)) eqn:Hnull; [by eapply IH|].
    destruct (_wrapValue (read_elem h child i) context h) as [e' h1] eqn:Hwrap.
    apply wrapValue_effect in Hwrap as ([ext1 ->] & Hfresh & Hnil & _).
    destruct Hext as [ext ->].
    destruct (write_elem_app hb (ext ++ ext1) child i e' Hchild) as [ext2 Hw].
    pose proof (length_write_elem ((hb ++ ext) ++ ext1) child i e') as Hlen.
    rewrite <- app_assoc, Hw in Hrun. rewrite <- app_assoc, Hw in Hlen.
    apply IH in Hrun as (Hext' & Hlen' & pushed & -> & Hpushed & Hlayered);
      [|by eexists].
    rewrite !length_app in *.
    split; [done|]. split; [lia|].
    eexists (pushed ++ [_]). split; [by rewrite <- app_assoc|]. split.
    + apply Forall_app. split; [done|].
      apply Forall_singleton. split; [|split; [by apply Hnil|done]].
      eapply between_le; [| |exact Hfresh]; rewrite ?length_app; lia.
    + eapply (layered_app _ (List.length hb + List.length ext2));
        [lia|lia|done|].
      cbn. destruct e' as [| | b | z | s | l]; try done.
      split; [|done]. specialize (Hfresh l eq_refl). lia.
Qed.

(** What [descend] does: it allocates, queues copies, and hands back the
    child itself or the copy it made of it. *)
Lemma descend_effect context node child cid nextPath h queue child' h' queue' :
  descend context node child cid nextPath h queue = (child', h', queue') →
  (∃ ext, h' = h ++ ext)
  ∧ (∃ pushed, queue' = pushed ++ queue
               ∧ Forall (λ w, ∃ nodeChildren,
                             children node = Some nodeChildren
                             ∧ queued_for (List.length h) (List.length h')
                                          nodeChildren w) pushed
               ∧ layered (List.length h) (List.length h') pushed)
  ∧ (descends node child = false → child' = child)
  ∧ (isObject child = false → child ≠ VUndef → child' = child)
  ∧ (descends node child = true → isObject child = true ∨ child = VUndef →
     child' = VRef (List.length h)).
Proof.
  unfold descend, descends.
  destruct (children node) as [nodeChildren|]; last first.
  { intros [= <- <- <-]. rewrite andb_false_r.
    split; [by exists []; rewrite app_nil_r|]. split; [by exists []|]. done. }
  destruct (hasParameterizedChildren node); cbn [andb]; last first.
  { intros [= <- <- <-].
    split; [by exists []; rewrite app_nil_r|]. split; [by exists []|]. done. }
  destruct (isNull child) eqn:Hnull; cbn [negb].
  { intros [= <- <- <-].
    split; [by exists []; rewrite app_nil_r|]. split; [by exists []|].
    split; [done|]. split; [done|]. done. }
  destruct (as_array h child) as [elems|] eqn:Harr.
  - unfold alloc.
    destruct (wrapElements _ _ _ _ _ _ _ _) as [h2 queue2] eqn:Hwrap.
    intros [= <- <- <-].
    apply (wrapElements_effect context (List.length h) cid nodeChildren nextPath h)
      in Hwrap as (Hext & _ & pushed & Hq & Hpushed & Hlayered);
      [|done|by eexists].
    split; [done|]. split.
    { exists pushed. split; [done|]. split.
      - eapply Forall_impl; [exact Hpushed|].
        intros w Hw. by exists nodeChildren.
      - eapply layered_weaken; [| |exact Hlayered];
          rewrite ?length_app; cbn; lia. }
    split; [done|].
    split; [|done]. intros Hobj. destruct child; done.
  - destruct (_wrapValue child context h) as [c1 h1] eqn:Hwrap.
    intros [= <- <- <-].
    apply wrapValue_effect in Hwrap as (Hext & Hfresh & Hnil & Hcopy & Hsame).
    split; [done|]. split.
    { eexists [_]. split; [done|]. split.
      - apply Forall_singleton. exists nodeChildren. split; [done|].
        split; [done|]. split; [by apply Hnil|done].
      - cbn. destruct c1 as [| | b | z | s | l]; try done.
        split; [|done]. by apply Hfresh. }
    split; [done|]. split; [intros; by apply Hsame|]. intros _. apply Hcopy.
Qed.

(** The copy of a stored object, where no transformer is configured: a new
    cell with the properties of the object, queued with the sub-selection. *)
Lemma descend_object context node nodeChildren d ps cid nextPath h queue :
  children node = Some nodeChildren →
  hasParameterizedChildren node = true →
  deref h d = Obj ps →
  entityTransformer context = None →
  descend context node (VRef d) cid nextPath h queue
  = (VRef (List.length h), h ++ [Obj ps],
     {| ow_value := VRef (List.length h); containerId := cid;
        parsedMap := nodeChildren; path := nextPath |} :: queue).
Proof.
  intros Hch Hpar Hd Htr. unfold descend, as_array, _wrapValue, alloc.
  by rewrite Hch, Hpar, Hd, Htr.
Qed.

Section OverlayFacts.
Variable nodeIdForParameterizedValue :
  NodeId → list PathPart → FieldArguments → NodeId.
Variable QueryRoot : NodeId.

Local Abbreviation overlayField :=
  (overlayField nodeIdForParameterizedValue QueryRoot).
Local Abbreviation overlayFields :=
  (overlayFields nodeIdForParameterizedValue QueryRoot).
Local Abbreviation overlayNode :=
  (overlayNode nodeIdForParameterizedValue QueryRoot).
Local Abbreviation overlayLoop :=
  (overlayLoop nodeIdForParameterizedValue QueryRoot).
Local Abbreviation resolveParameterized :=
  (resolveParameterized nodeIdForParameterizedValue QueryRoot).

Lemma effect_refl value fields st : effect value fields st st.
Proof.
  split; [done|]. split; [done|]. split; [done|].
  split; [by exists []|done].
Qed.

Lemma effect_trans value fields1 fields2 st1 st2 st3 :
  effect value fields1 st1 st2 → effect value fields2 st2 st3 →
  effect value (fields1 ++ fields2) st1 st3.
Proof.
  intros (Hlen1 & Hcell1 & Hprop1 & (p1 & Hq1 & Hp1 & Hl1) & Hdyn1)
         (Hlen2 & Hcell2 & Hprop2 & (p2 & Hq2 & Hp2 & Hl2) & Hdyn2).
  split; [lia|]. split; [|split; [|split]].
  - intros v Hv Hne. rewrite Hcell2, Hcell1; [done..|lia|done].
  - intros t k Ht Hlt Hk. rewrite map_app, elem_of_app in Hk.
    rewrite Hprop2 by (done || lia || tauto).
    apply Hprop1; (done || tauto).
  - exists (p2 ++ p1). split; [by rewrite Hq2, Hq1, app_assoc|]. split.
    + apply Forall_app. split.
      * eapply Forall_impl; [exact Hp2|].
        intros w. apply pushed_ok_le; [lia..|]. intros x. set_solver.
      * eapply Forall_impl; [exact Hp1|].
        intros w. apply pushed_ok_le; [lia..|]. intros x. set_solver.
    + by apply (layered_app _ (List.length (o_heap st2))).
  - set_solver.
Qed.

Lemma linkChild_effect context value key node child cid nextPath st :
  effect value [(key, node)] st
         (state_of (linkChild context value key node child cid nextPath st)).
Proof.
  unfold linkChild.
  destruct (descend _ _ _ _ _ _ _) as [[child' h'] queue'] eqn:Hd.
  apply descend_effect in Hd
    as ([ext ->] & (pushed & Hq & Hpushed0 & Hlayered) & _).
  assert (∃ pushed, queue' = pushed ++ o_queue st
                    ∧ Forall (pushed_ok (List.length (o_heap st))
                                        (List.length (o_heap st ++ ext))
                                        [(key, node)]) pushed
                    ∧ layered (List.length (o_heap st))
                              (List.length (o_heap st ++ ext)) pushed)
    as Hpushed.
  { exists pushed. split; [done|]. split; [|done].
    eapply Forall_impl; [exact Hpushed0|].
    intros w Hw. exists key, node. split; [apply list_elem_of_here|done]. }
  clear Hq Hpushed0 Hlayered. unfold effect.
  destruct value as [| | b | n | s | t]; cbn [js_write state_of o_heap o_queue
                                              o_dynamicNodeIds];
    try (split; [rewrite length_app; lia|];
         split; [by intros v Hv _; apply lookup_app_l|];
         split; [done|]; split; done).
  rewrite length_write_prop.
  split; [rewrite length_app; lia|].
  split; [|split; [|split; [done|done]]].
  - intros v Hv Hne. rewrite lookup_write_prop_ne by congruence.
    by apply lookup_app_l.
  - intros t' k [= <-] Ht Hk.
    rewrite read_prop_write_prop_ne
      by (intros ->; apply Hk, list_elem_of_here).
    apply read_prop_lookup. by apply lookup_app_l.
Qed.

Lemma overlayField_effect context snapshot value cid path key node st :
  effect value [(key, node)] st
         (state_of (overlayField context snapshot value cid path key node st)).
Proof.
  unfold overlayField. destruct (args node) as [nodeArgs|].
  - destruct (resolveParameterized _ _ _ _ _ _ _ _) as [[[childId cs]|]|];
      try apply effect_refl.
    change [(key, node)] with ([] ++ [(key, node)]).
    eapply effect_trans; [|apply linkChild_effect].
    split; [done|]. split; [done|]. split; [done|].
    split; [by exists []|]. cbn. set_solver.
  - destruct (js_read _ _ _); [apply linkChild_effect|apply effect_refl].
Qed.

Lemma overlayFields_effect context snapshot value cid path fields : ∀ st,
  effect value fields st
         (state_of (overlayFields context snapshot value cid path fields st)).
Proof.
  induction fields as [|[key node] fields IH]; intros st; [apply effect_refl|].
  cbn [overlayFields].
  pose proof (overlayField_effect context snapshot value cid path key node st)
    as Hfield.
  destruct (overlayField _ _ _ _ _ _ _ _) as [st'|st'].
  - change ((key, node) :: fields) with ([(key, node)] ++ fields).
    eapply effect_trans; [exact Hfield|apply IH].
  - change ((key, node) :: fields) with ([(key, node)] ++ fields).
    eapply effect_trans; [exact Hfield|apply effect_refl].
Qed.

Lemma overlayNode_effect context snapshot walkNode st :
  effect (ow_value walkNode) (parsedMap walkNode) st
         (state_of (overlayNode context snapshot walkNode st)).
Proof.
  unfold overlayNode. destruct (containerOf _ _ _) as [cid p].
  apply overlayFields_effect.
Qed.

Lemma untouched_step context snapshot v walkNode rest st :
  o_queue st = walkNode :: rest →
  untouched v st →
  let st' := state_of (overlayNode context snapshot walkNode
                         {| o_heap := o_heap st; o_queue := rest;
                            o_dynamicNodeIds := o_dynamicNodeIds st |}) in
  untouched v st' ∧ o_heap st' !! v = o_heap st !! v
  ∧ o_dynamicNodeIds st ⊆ o_dynamicNodeIds st'.
Proof.
  intros Hq [Hv Hall] st'. rewrite Hq in Hall.
  apply Forall_cons in Hall as [Hw Hrest].
  pose proof (overlayNode_effect context snapshot walkNode
                {| o_heap := o_heap st; o_queue := rest;
                   o_dynamicNodeIds := o_dynamicNodeIds st |})
    as (Hlen & Hcell & _ & (pushed & Hqueue & Hpushed & Hlayered) & Hdyn).
  cbn [o_heap o_queue o_dynamicNodeIds] in *. subst st'.
  split; [|split; [by apply Hcell|done]].
  split; [lia|]. rewrite Hqueue.
  apply Forall_app. split; [|done].
  eapply Forall_impl; [exact Hpushed|].
  intros w (_ & _ & _ & _ & _ & Hfresh & _) Heq.
  specialize (Hfresh v Heq). lia.
Qed.

(** The loop never writes into a cell no walk node points to. *)
Lemma overlayLoop_untouched context snapshot v fuel : ∀ st,
  untouched v st →
  o_heap (final_state (overlayLoop fuel context snapshot st)) !! v
  = o_heap st !! v.
Proof.
  induction fuel as [|fuel IH]; intros st Hun.
  - cbn. by destruct (o_queue st).
  - cbn [overlayLoop].
    destruct (o_queue st) as [|walkNode rest] eqn:Hq; [done|].
    destruct (untouched_step context snapshot v walkNode rest st Hq Hun)
      as (Hun' & Hcell & _).
    destruct (overlayNode _ _ _ _) as [st'|st']; cbn [state_of] in *.
    + by rewrite IH.
    + done.
Qed.

Lemma overlayLoop_dynamicNodeIds context snapshot fuel : ∀ st,
  o_dynamicNodeIds st
  ⊆ o_dynamicNodeIds (final_state (overlayLoop fuel context snapshot st)).
Proof.
  induction fuel as [|fuel IH]; intros st.
  - cbn. by destruct (o_queue st).
  - cbn [overlayLoop].
    destruct (o_queue st) as [|walkNode rest] eqn:Hq; [done|].
    pose proof (overlayNode_effect context snapshot walkNode
                  {| o_heap := o_heap st; o_queue := rest;
                     o_dynamicNodeIds := o_dynamicNodeIds st |})
      as (_ & _ & _ & _ & Hdyn).
    destruct (overlayNode _ _ _ _) as [st'|st']; cbn [state_of final_state] in *.
    + etrans; [exact Hdyn|apply IH].
    + done.
Qed.

Lemma overlayLoop_length context snapshot fuel : ∀ st,
  List.length (o_heap st)
  ≤ List.length (o_heap (final_state (overlayLoop fuel context snapshot st))).
Proof.
  induction fuel as [|fuel IH]; intros st.
  - cbn. by destruct (o_queue st).
  - cbn [overlayLoop].
    destruct (o_queue st) as [|walkNode rest] eqn:Hq; [done|].
    pose proof (overlayNode_effect context snapshot walkNode
                  {| o_heap := o_heap st; o_queue := rest;
                     o_dynamicNodeIds := o_dynamicNodeIds st |})
      as (Hlen & _).
    destruct (overlayNode _ _ _ _) as [st'|st']; cbn [state_of final_state] in *.
    + etrans; [exact Hlen|apply IH].
    + done.
Qed.

(** The loop writes an object's properties under the response keys of the
    walk nodes that point to it, and no other. *)
Lemma overlayLoop_guarded context snapshot l keys k fuel : ∀ st,
  guarded l keys st →
  k ∉ keys →
  read_prop (o_heap (final_state (overlayLoop fuel context snapshot st))) l k
  = read_prop (o_heap st) l k.
Proof.
  induction fuel as [|fuel IH]; intros st Hg Hk.
  - cbn. by destruct (o_queue st).
  - cbn [overlayLoop].
    destruct (o_queue st) as [|walkNode rest] eqn:Hq; [done|].
    destruct Hg as [Hl Hall]. rewrite Hq in Hall.
    apply Forall_cons in Hall as [Hw Hrest].
    pose proof (overlayNode_effect context snapshot walkNode
                  {| o_heap := o_heap st; o_queue := rest;
                     o_dynamicNodeIds := o_dynamicNodeIds st |})
      as (Hlen & Hcell & Hprop & (pushed & Hqueue & Hpushed & Hlayered) & _).
    cbn [o_heap o_queue] in *.
    assert (read_prop (o_heap (state_of (overlayNode context snapshot walkNode
                  {| o_heap := o_heap st; o_queue := rest;
                     o_dynamicNodeIds := o_dynamicNodeIds st |}))) l k
            = read_prop (o_heap st) l k) as Hstep.
    { destruct (ow_value walkNode) as [| | b | n | s | l'] eqn:Hv;
        try (apply read_prop_lookup, Hcell; done).
      destruct (decide (l' = l)) as [->|Hne].
      - apply Hprop; [done..|]. intros Hin. apply Hk. by apply Hw.
      - apply read_prop_lookup, Hcell; [done|congruence]. }
    assert (guarded l keys (state_of (overlayNode context snapshot walkNode
                  {| o_heap := o_heap st; o_queue := rest;
                     o_dynamicNodeIds := o_dynamicNodeIds st |}))) as Hg'.
    { split; [lia|]. rewrite Hqueue. apply Forall_app. split; [|done].
      eapply Forall_impl; [exact Hpushed|].
      intros w (_ & _ & _ & _ & _ & Hb & _) Heq. specialize (Hb l Heq). lia. }
    destruct (overlayNode _ _ _ _) as [st'|st']; cbn [state_of final_state] in *.
    + by rewrite IH.
    + done.
Qed.

(** *** The overlay comes to an end *)

Lemma nodeDepth_children node nodeChildren :
  children node = Some nodeChildren →
  nodeDepth node = S (mapDepth nodeChildren).
Proof.
  destruct node as [sel [c|] sn a hp]; intros [= <-]. reflexivity.
Qed.

Lemma mapDepth_elem key node (fields : ParsedQuery) :
  (key, node) ∈ fields → nodeDepth node ≤ mapDepth fields.
Proof.
  induction fields as [|[k n] fields IH]; [by intros ?%elem_of_nil|].
  intros [[= <- <-]|Hin]%elem_of_cons; cbn; [lia|].
  specialize (IH Hin). lia.
Qed.

Lemma pushed_ok_depth n m fields w :
  pushed_ok n m fields w → mapDepth (parsedMap w) < mapDepth fields.
Proof.
  intros (key & node & Hin & c & Hc & _ & _ & ->).
  apply mapDepth_elem in Hin. rewrite (nodeDepth_children _ _ Hc) in Hin. lia.
Qed.

Lemma overlayLoop_empty context snapshot fuel st :
  o_queue st = [] → overlayLoop fuel context snapshot st = Finished st.
Proof. intros Hq. destruct fuel; cbn; by rewrite Hq. Qed.

Lemma overlayLoop_pop context snapshot fuel st walkNode rest :
  o_queue st = walkNode :: rest →
  overlayLoop (S fuel) context snapshot st =
  match overlayNode context snapshot walkNode
                    {| o_heap := o_heap st; o_queue := rest;
                       o_dynamicNodeIds := o_dynamicNodeIds st |} with
  | Next st' => overlayLoop fuel context snapshot st'
  | TypeError st' => Thrown st'
  end.
Proof. intros Hq. cbn [overlayLoop]. by rewrite Hq. Qed.

(** The walk nodes on top of the queue are worked off, with all they queue
    in turn, in a number of turns that can be told beforehand: each node
    queued stands for a sub-selection of the one it was queued from. *)
Lemma overlayLoop_works_off context snapshot depth : ∀ st top rest,
  o_queue st = top ++ rest →
  Forall (λ w, mapDepth (parsedMap w) < depth) top →
  ∃ n,
    (∃ thrown, ∀ m, overlayLoop (n + m) context snapshot st = Thrown thrown)
    ∨ (∃ st', o_queue st' = rest
              ∧ ∀ m, overlayLoop (n + m) context snapshot st
                     = overlayLoop m context snapshot st').
Proof.
  induction depth as [|depth IHdepth]; intros st top.
  - intros rest Hq Htop. destruct top as [|w top].
    + exists 0. right. by exists st.
    + apply Forall_cons in Htop as [Hw _]. lia.
  - revert st. induction top as [|w top IHtop]; intros st rest Hq Htop.
    + exists 0. right. by exists st.
    + apply Forall_cons in Htop as [Hw Htop]. cbn [app] in Hq.
      pose proof (overlayNode_effect context snapshot w
                    {| o_heap := o_heap st; o_queue := top ++ rest;
                       o_dynamicNodeIds := o_dynamicNodeIds st |})
        as (_ & _ & _ & (pushed & Hqueue & Hpushed & Hlayered) & _).
      cbn [o_queue] in Hqueue.
      destruct (overlayNode context snapshot w _) as [st1|st1] eqn:Hnode;
        cbn [state_of] in *.
      * assert (Forall (λ w', mapDepth (parsedMap w') < depth) pushed) as Hdeep.
        { eapply Forall_impl; [exact Hpushed|].
          intros w' Hw'%pushed_ok_depth. lia. }
        destruct (IHdepth st1 pushed (top ++ rest) Hqueue Hdeep)
          as (n1 & [(thrown & Hthrown)|(st2 & Hq2 & Hrun2)]).
        { exists (S n1). left. exists thrown. intros m.
          cbn [Nat.add]. by rewrite (overlayLoop_pop _ _ _ _ _ _ Hq), Hnode. }
        destruct (IHtop st2 rest Hq2 Htop)
          as (n2 & [(thrown & Hthrown)|(st3 & Hq3 & Hrun3)]).
        { exists (S (n1 + n2)). left. exists thrown. intros m.
          cbn [Nat.add]. rewrite (overlayLoop_pop _ _ _ _ _ _ Hq), Hnode.
          by rewrite <- Nat.add_assoc, Hrun2. }
        exists (S (n1 + n2)). right. exists st3. split; [done|]. intros m.
        cbn [Nat.add]. rewrite (overlayLoop_pop _ _ _ _ _ _ Hq), Hnode.
        by rewrite <- Nat.add_assoc, Hrun2.
      * exists 1. left. exists st1. intros m.
        cbn [Nat.add]. by rewrite (overlayLoop_pop _ _ _ _ _ _ Hq), Hnode.
Qed.

(** Enough fuel, and the loop has finished or thrown; more fuel changes
    nothing. *)
Lemma overlayLoop_terminates context snapshot st :
  ∃ enough o,
    (∀ fuel, enough ≤ fuel → overlayLoop fuel context snapshot st = o)
    ∧ match o with OutOfFuel _ => False | _ => True end.
Proof.
  assert (∃ depth, Forall (λ w, mapDepth (parsedMap w) < depth) (o_queue st))
    as [depth Hdepth].
  { induction (o_queue st) as [|w q [depth IH]]; [by exists 0|].
    exists (S (Nat.max (mapDepth (parsedMap w)) depth)).
    apply Forall_cons. split; [lia|].
    eapply Forall_impl; [exact IH|]. intros w' Hw'. cbn in Hw'. lia. }
  destruct (overlayLoop_works_off context snapshot depth st (o_queue st) []
              ltac:(by rewrite app_nil_r) Hdepth)
    as (n & [(thrown & Hthrown)|(st' & Hq' & Hrun)]).
  - exists n, (Thrown thrown). split; [|done]. intros fuel Hfuel.
    replace fuel with (n + (fuel - n)) by lia. apply Hthrown.
  - exists n, (Finished st'). split; [|done]. intros fuel Hfuel.
    replace fuel with (n + (fuel - n)) by lia.
    rewrite Hrun. by apply overlayLoop_empty.
Qed.

Lemma heap_extended (h h' : Heap) :
  List.length h ≤ List.length h' →
  (∀ l, l < List.length h → h' !! l = h !! l) →
  h' = h ++ drop (List.length h) h'.
Proof.
  intros Hlen Hcells. rewrite <- (take_drop (List.length h) h') at 1.
  f_equal. apply list_eq. intros i.
  destruct (decide (i < List.length h)) as [Hi|Hi].
  - rewrite lookup_take_lt by done. by apply Hcells.
  - rewrite lookup_take_ge by lia. symmetry. apply lookup_ge_None_2. lia.
Qed.

(** C9.  Whatever the overlay is given and however it ends (finished, thrown
    or out of fuel), the store it leaves is the store it was given followed
    by the cells it allocated: every cell that was there, and so all the data
    the snapshot's nodes hold, is as it was. *)
Theorem overlay_writes_into_its_own_copies_only
        (fuel : nat) (query : OperationInstance) (context : CacheContext)
        (snapshot : GraphSnapshot) (h : Heap) (result : val)
        (dynamicNodeIds : gset NodeId) :
  ∃ allocated,
    o_heap (final_state
              (_walkAndOverlayDynamicValues
                 nodeIdForParameterizedValue QueryRoot fuel query context
                 snapshot h result dynamicNodeIds).1)
    = h ++ allocated.
Proof.
  unfold _walkAndOverlayDynamicValues.
  destruct (getNodeSnapshot snapshot (rootId query)) as [rootSnapshot|];
    [|by exists []; cbn; rewrite app_nil_r].
  destruct (_wrapValue result context h) as [newResult h1] eqn:Hwrap.
  apply wrapValue_effect in Hwrap as ([ext ->] & Hfresh & _).
  cbn [fst]. eexists. apply heap_extended.
  - etrans; [|apply overlayLoop_length]. cbn. rewrite length_app. lia.
  - intros l Hl. rewrite overlayLoop_untouched.
    + cbn. by apply lookup_app_l.
    + split; [cbn; rewrite length_app; lia|].
      apply Forall_singleton. cbn. intros Heq.
      specialize (Hfresh l Heq). lia.
Qed.

(** C7.  A parameterized field whose own identity is not in the snapshot,
    and for which no redirect leads to a node of the snapshot: the loop body
    goes on to the next key with the store, the queue and the set of dynamic
    ids as they were, and without a [TypeError]. *)
Theorem unresolved_parameterized_field_is_left_alone
        (context : CacheContext) (snapshot : GraphSnapshot) (value : val)
        (containerId : NodeId) (path : list PathPart) (key : string)
        (node : ParsedQueryNode) (nodeArgs : FieldArguments)
        (st : OverlayState) :
  args node = Some nodeArgs →
  isNil value = false →
  getNodeSnapshot snapshot
    (nodeIdForParameterizedValue containerId
       (path ++ [PKey (fieldNameOf key node)]) nodeArgs) = None →
  (∀ typeName redirect redirected,
     js_read (o_heap st) value "__typename" = Some typeName →
     resolverRedirects context (typeNameFor QueryRoot typeName containerId)
                       (fieldNameOf key node) = Some redirect →
     redirect nodeArgs = Some redirected →
     getNodeSnapshot snapshot redirected = None) →
  overlayField context snapshot value containerId path key node st = Next st.
Proof.
  intros Hargs Hnil Hown Hredirect.
  unfold overlayField, resolveParameterized.
  rewrite Hargs, Hown.
  destruct (js_read (o_heap st) value "__typename") as [typeName|] eqn:Hread;
    [|by destruct value].
  destruct (resolverRedirects context _ _) as [redirect|] eqn:Hr; [|done].
  destruct (redirect nodeArgs) as [redirected|] eqn:Hid; [|done].
  by rewrite (Hredirect typeName redirect redirected).
Qed.

Lemma overlayFields_app context snapshot value cid path pre post st :
  overlayFields context snapshot value cid path (pre ++ post) st =
  match overlayFields context snapshot value cid path pre st with
  | Next st' => overlayFields context snapshot value cid path post st'
  | TypeError st' => TypeError st'
  end.
Proof.
  revert st. induction pre as [|[key node] pre IH]; intros st; [done|].
  cbn [app overlayFields].
  destruct (overlayField _ _ _ _ _ _ _ _); [apply IH|done].
Qed.

(** On a walk node whose value is an object or an array the loop body never
    throws: every read and every write has an object to work on. *)
Lemma overlayField_object context snapshot v cid path key node st :
  ∃ st',
    overlayField context snapshot (VRef v) cid path key node st = Next st'.
Proof.
  assert (∀ child cid' nextPath st0, ∃ st',
            linkChild context (VRef v) key node child cid' nextPath st0
            = Next st') as Hlink.
  { intros child cid' nextPath st0. unfold linkChild.
    destruct (descend _ _ _ _ _ _ _) as [[child' h'] queue'].
    cbn [js_write]. by eexists. }
  unfold overlayField. destruct (args node) as [nodeArgs|].
  - unfold resolveParameterized.
    destruct (getNodeSnapshot snapshot _) as [childSnapshot|]; [apply Hlink|].
    cbn [js_read].
    destruct (resolverRedirects context _ _) as [redirect|]; [|by eexists].
    destruct (redirect nodeArgs) as [redirected|]; [|by eexists].
    destruct (getNodeSnapshot snapshot redirected); [apply Hlink|by eexists].
  - cbn [js_read]. apply Hlink.
Qed.

Lemma overlayFields_object context snapshot v cid path fields : ∀ st,
  ∃ st',
    overlayFields context snapshot (VRef v) cid path fields st = Next st'.
Proof.
  induction fields as [|[key node] fields IH]; intros st; [by eexists|].
  cbn [overlayFields].
  destruct (overlayField_object context snapshot v cid path key node st)
    as [st1 ->].
  apply IH.
Qed.

Lemma overlayNode_object context snapshot walkNode v st :
  ow_value walkNode = VRef v →
  ∃ st', overlayNode context snapshot walkNode st = Next st'.
Proof.
  intros Hvalue. unfold overlayNode.
  destruct (containerOf context (o_heap st) walkNode) as [cid p].
  rewrite Hvalue. apply overlayFields_object.
Qed.

(** The loop body on a parameterized field that resolves, in a walk node
    whose value is an object. *)
Lemma overlayField_resolved context snapshot v cid path key node nodeArgs
      childSnapshot st :
  args node = Some nodeArgs →
  v < List.length (o_heap st) →
  getNodeSnapshot snapshot
    (nodeIdForParameterizedValue cid (path ++ [PKey (fieldNameOf key node)])
                                 nodeArgs) = Some childSnapshot →
  ∃ st',
    overlayField context snapshot (VRef v) cid path key node st = Next st'
    ∧ nodeIdForParameterizedValue cid (path ++ [PKey (fieldNameOf key node)])
                                  nodeArgs ∈ o_dynamicNodeIds st'
    ∧ read_prop (o_heap st') v key
      = if descends node (data childSnapshot) && isCopied (data childSnapshot)
        then VRef (List.length (o_heap st))
        else data childSnapshot.
Proof.
  intros Hargs Hv Hsnap.
  unfold overlayField, resolveParameterized.
  rewrite Hargs, Hsnap. unfold linkChild. cbn [o_heap o_queue o_dynamicNodeIds].
  destruct (descend _ _ _ _ _ _ _) as [[child' h'] queue'] eqn:Hd.
  apply descend_effect in Hd as ([ext ->] & _ & Hleaf & Hscalar & Hcopy).
  cbn [js_write]. eexists. split; [done|].
  cbn [o_heap o_dynamicNodeIds]. split; [set_solver|].
  rewrite read_prop_write_prop_eq by (rewrite length_app; lia).
  destruct (descends node (data childSnapshot)) eqn:Hdesc; cbn [andb];
    [|by apply Hleaf].
  destruct (data childSnapshot) as [| | b | n | s | l] eqn:Hdata; cbn [isCopied];
    try (by apply Hscalar); apply Hcopy; auto.
Qed.

(** The same where the data is a stored object and no transformer is
    configured: the state the loop body leaves. *)
Lemma overlayField_resolved_object context snapshot v cid path key node
      nodeArgs nodeChildren childSnapshot d ps st :
  args node = Some nodeArgs →
  getNodeSnapshot snapshot
    (nodeIdForParameterizedValue cid (path ++ [PKey (fieldNameOf key node)])
                                 nodeArgs) = Some childSnapshot →
  data childSnapshot = VRef d →
  deref (o_heap st) d = Obj ps →
  entityTransformer context = None →
  children node = Some nodeChildren →
  hasParameterizedChildren node = true →
  overlayField context snapshot (VRef v) cid path key node st
  = Next {| o_heap :=
              write_prop (o_heap st ++ [Obj ps]) v key
                         (VRef (List.length (o_heap st)));
            o_queue :=
              {| ow_value := VRef (List.length (o_heap st));
                 containerId :=
                   nodeIdForParameterizedValue
                     cid (path ++ [PKey (fieldNameOf key node)]) nodeArgs;
                 parsedMap := nodeChildren; path := [] |} :: o_queue st;
            o_dynamicNodeIds :=
              {[nodeIdForParameterizedValue
                  cid (path ++ [PKey (fieldNameOf key node)]) nodeArgs]}
                ∪ o_dynamicNodeIds st |}.
Proof.
  intros Hargs Hsnap Hdata Hd Htr Hch Hpar.
  unfold overlayField, resolveParameterized.
  rewrite Hargs, Hsnap, Hdata. unfold linkChild.
  cbn [o_heap o_queue o_dynamicNodeIds].
  by rewrite (descend_object context node nodeChildren d ps _ _ _ _
                Hch Hpar Hd Htr).
Qed.

(** *** The queue at every turn *)

(** The overlay starts with a queue that is as [wellQueued] says, unless it
    is handed [null] for a result. *)
Lemma wellQueued_start context h result newResult h1 cid fields path0
      dynamicNodeIds :
  isNull result = false →
  _wrapValue result context h = (newResult, h1) →
  wellQueued {| o_heap := h1;
                o_queue := [ {| ow_value := newResult; containerId := cid;
                                parsedMap := fields; path := path0 |} ];
                o_dynamicNodeIds := dynamicNodeIds |}.
Proof.
  intros Hnull Hwrap.
  apply wrapValue_effect in Hwrap as (_ & Hb & Hnil & _).
  split; cbn.
  - destruct newResult as [| | b | z | s | l]; try done.
    split; [|done]. specialize (Hb l eq_refl). lia.
  - apply Forall_singleton. by apply Hnil.
Qed.

(** A turn of the loop leaves the queue so. *)
Lemma wellQueued_turn context snapshot st walkNode rest :
  wellQueued st →
  o_queue st = walkNode :: rest →
  wellQueued (state_of (overlayNode context snapshot walkNode
                          {| o_heap := o_heap st; o_queue := rest;
                             o_dynamicNodeIds := o_dynamicNodeIds st |})).
Proof.
  intros [Hlayered Hnil] Hq. rewrite Hq in Hlayered, Hnil.
  apply Forall_cons in Hnil as [_ Hnil].
  pose proof (overlayNode_effect context snapshot walkNode
                {| o_heap := o_heap st; o_queue := rest;
                   o_dynamicNodeIds := o_dynamicNodeIds st |})
    as (Hlen & _ & _ & (pushed & Hqueue & Hpushed & Hpl) & _).
  cbn [o_heap o_queue] in *.
  assert (layered 0 (List.length (o_heap st)) rest) as Hrest.
  { cbn in Hlayered. destruct (ow_value walkNode); try done.
    destruct Hlayered as [Hl Hlayered].
    eapply layered_weaken; [| |exact Hlayered]; lia. }
  split; rewrite Hqueue.
  - by apply (layered_app _ (List.length (o_heap st))); [lia|..].
  - apply Forall_app. split; [|done].
    eapply Forall_impl; [exact Hpushed|].
    by intros w (_ & _ & _ & _ & _ & _ & Hn & _).
Qed.

End OverlayFacts.

(** ** Reading twice *)

Section ReadTwice.
Variable shouldInclude : SelectionNode → Variables → bool.
Variable nodeIdForParameterizedValue :
  NodeId → list PathPart → FieldArguments → NodeId.
Variable QueryRoot : NodeId.

Local Abbreviation overlayField :=
  (overlayField nodeIdForParameterizedValue QueryRoot).
Local Abbreviation overlayFields :=
  (overlayFields nodeIdForParameterizedValue QueryRoot).
Local Abbreviation overlayNode :=
  (overlayNode nodeIdForParameterizedValue QueryRoot).
Local Abbreviation overlayLoop :=
  (overlayLoop nodeIdForParameterizedValue QueryRoot).
Local Abbreviation overlay :=
  (_walkAndOverlayDynamicValues nodeIdForParameterizedValue QueryRoot).
Local Abbreviation readResult :=
  (readResult nodeIdForParameterizedValue QueryRoot).
Local Abbreviation readPartition := (readPartition shouldInclude).
Local Abbreviation read :=
  (read shouldInclude nodeIdForParameterizedValue QueryRoot).

(** The overlay looks at the nodes of the snapshot, not at its cache. *)
Lemma overlayFields_readCache context snapshot operation queryResult
      value cid path fields : ∀ st,
  overlayFields context (set_readCache snapshot operation queryResult)
                value cid path fields st
  = overlayFields context snapshot value cid path fields st.
Proof.
  induction fields as [|[key node] fields IH]; intros st; [done|].
  cbn [overlayFields].
  change (overlayField context (set_readCache snapshot operation queryResult)
                       value cid path key node st)
    with (overlayField context snapshot value cid path key node st).
  destruct (overlayField _ _ _ _ _ _ _ _); [apply IH|done].
Qed.

Lemma overlayLoop_readCache context snapshot operation queryResult fuel : ∀ st,
  overlayLoop fuel context (set_readCache snapshot operation queryResult) st
  = overlayLoop fuel context snapshot st.
Proof.
  induction fuel as [|fuel IH]; intros st; [done|].
  cbn [overlayLoop]. destruct (o_queue st) as [|walkNode rest]; [done|].
  unfold overlayNode. destruct (containerOf _ _ _) as [cid p].
  rewrite overlayFields_readCache.
  destruct (overlayFields _ _ _ _ _ _ _); [apply IH|done].
Qed.

Lemma overlay_readCache fuel query context snapshot operation queryResult h
      result dynamicNodeIds :
  overlay fuel query context (set_readCache snapshot operation queryResult) h
          result dynamicNodeIds
  = overlay fuel query context snapshot h result dynamicNodeIds.
Proof.
  unfold _walkAndOverlayDynamicValues.
  change (getNodeSnapshot (set_readCache snapshot operation queryResult)
                          (rootId query))
    with (getNodeSnapshot snapshot (rootId query)).
  destruct (getNodeSnapshot snapshot (rootId query)); [|done].
  destruct (_wrapValue result context h) as [newResult h1].
  by rewrite overlayLoop_readCache.
Qed.

(** A walk node whose value is no object: each of its fields is skipped or
    throws. *)
Lemma overlayFields_scalar context snapshot value cid path fields : ∀ st st',
  isObject value = false →
  overlayFields context snapshot value cid path fields st = Next st' →
  st' = st.
Proof.
  induction fields as [|[key node] fields IH]; intros st st' Hv Hrun.
  - by injection Hrun.
  - cbn [overlayFields] in Hrun.
    assert (∀ st1, overlayField context snapshot value cid path key node st
                   = Next st1 → st1 = st) as Hfield.
    { intros st1. unfold overlayField, linkChild.
      destruct (args node).
      - destruct (resolveParameterized _ _ _ _ _ _ _ _ _ _)
          as [[[childId childSnapshot]|]|]; [|congruence|done].
        destruct (descend _ _ _ _ _ _ _) as [[child' h'] queue'].
        by destruct value.
      - destruct (js_read _ _ _); [|done].
        destruct (descend _ _ _ _ _ _ _) as [[child' h'] queue'].
        by destruct value. }
    destruct (overlayField _ _ _ _ _ _ _ _) as [st1|st1]; [|done].
    rewrite (Hfield st1 eq_refl) in Hrun. by apply IH.
Qed.

(** An overlay that hands back a falsy value has not allocated. *)
Lemma overlay_falsy fuel query context snapshot h result dynamicNodeIds
      st newResult :
  overlay fuel query context snapshot h result dynamicNodeIds
  = (Finished st, newResult) →
  truthy newResult = false →
  o_heap st = h.
Proof.
  unfold _walkAndOverlayDynamicValues.
  destruct (getNodeSnapshot snapshot (rootId query)); [|by intros [= <- <-]].
  destruct (_wrapValue result context h) as [newResult' h1] eqn:Hwrap.
  intros [= Hloop <-] Hfalsy.
  apply wrapValue_effect in Hwrap as (_ & _ & _ & Hcopy & Hsame).
  assert (isObject result = false ∧ result ≠ VUndef) as [Hobj Hundef].
  { destruct result; try done; rewrite Hcopy in Hfalsy; auto; done. }
  destruct (Hsame Hobj Hundef) as [-> ->].
  destruct fuel as [|fuel]; [done|].
  cbn [overlayLoop o_queue o_heap o_dynamicNodeIds] in Hloop.
  unfold overlayNode in Hloop.
  destruct (containerOf _ _ _) as [cid p]. cbn [ow_value parsedMap] in Hloop.
  destruct (overlayFields _ _ _ _ _ _ _) as [st'|st'] eqn:Hfields; [|done].
  apply overlayFields_scalar in Hfields as ->; [|done].
  destruct fuel; cbn in Hloop; by injection Hloop as <-.
Qed.

Lemma readPartition_Go raw q m c h vars' :
  readPartition raw (q, m, c, h) = Go vars' →
  ∃ d, vars' = ({| result := result q; complete := complete q;
                   entityIds := entityIds q;
                   dynamicNodeIds := dynamicNodeIds q;
                   partitionedQuery := Some d |}, m, c, h).
Proof.
  unfold readPartition.
  destruct (_ || _); [intros [= <-]; eauto|].
  destruct (partitionQuery _ _ _); intros [= <-]; eauto.
Qed.

Lemma readNodeIds_Go fuel context operation includeNodeIds q m c h vars' :
  readNodeIds fuel context operation includeNodeIds (q, m, c, h) = Go vars' →
  ∃ q' m' c',
    vars' = (q', m', c', h)
    ∧ result q' = result q
    ∧ (includeNodeIds = true → is_Some (entityIds q'))
    ∧ (includeNodeIds = false ∨ is_Some (entityIds q) → vars' = (q, m, c, h)).
Proof.
  unfold readNodeIds.
  destruct includeNodeIds, (entityIds q) as [ids|] eqn:Hids.
  - intros [= <-]. eexists _, _, _. rewrite Hids.
    split; [done|]. split; [done|]. split; [by eexists|done].
  - destruct (_visitSelection _ _ _ _ _ _) as [visitResult|] eqn:Hvisit; [|done].
    intros [= <-]. eexists _, _, _. split; [done|]. split; [done|]. split.
    + intros _. cbn. apply (visitSelection_nodeIds_is_Some _ _ _ _ _ _ _ Hvisit).
      by eexists.
    + by intros [|[? ?]].
  - intros [= <-]. eexists _, _, _.
    split; [done|]. split; [done|]. split; done.
  - intros [= <-]. eexists _, _, _.
    split; [done|]. split; [done|]. split; done.
Qed.

(** What the first [if] of [read] leaves when it recomputes. *)
Lemma readResult_recompute fuel context snapshot operation includeNodeIds
      q h qA m c hA :
  truthy (result q) = false →
  readResult fuel context snapshot operation includeNodeIds q h
  = Go (qA, m, c, hA) →
  c = false
  ∧ (includeNodeIds = true → is_Some (entityIds qA))
  ∧ (truthy (result qA) = false → hA = h)
  ∧ ∀ x q',
      truthy (result q') = false →
      ∃ qA',
        readResult fuel context (set_readCache snapshot operation x) operation
                   includeNodeIds q' h
        = Go (qA', m, c, hA)
        ∧ result qA' = result qA
        ∧ complete qA' = complete qA
        ∧ entityIds qA' = entityIds qA.
Proof.
  intros Hq. unfold readResult at 1. rewrite Hq.
  destruct (isStatic operation) eqn:Hstatic.
  - destruct (_visitSelection _ _ _ _ _ _) as [visitResult|] eqn:Hvisit; [|done].
    intros [= <- <- <- <-]. split; [done|]. split; [|split; [done|]].
    + intros ->. cbn.
      apply (visitSelection_nodeIds_is_Some _ _ _ _ _ _ _ Hvisit). by eexists.
    + intros x q' Hq'. unfold readResult. rewrite Hq', Hstatic.
      change (getNodeData (set_readCache snapshot operation x) (rootId operation))
        with (getNodeData snapshot (rootId operation)).
      rewrite Hvisit. eauto.
  - destruct (_walkAndOverlayDynamicValues _ _ _ _ _ _ _ _ _)
      as [[st|st|st] newResult] eqn:Hoverlay; [|done..].
    destruct (_visitSelection _ _ _ _ _ _) as [visitResult|] eqn:Hvisit; [|done].
    intros [= <- <- <- <-]. split; [done|]. split; [|split].
    + intros ->. cbn.
      apply (visitSelection_nodeIds_is_Some _ _ _ _ _ _ _ Hvisit). by eexists.
    + cbn. intros Hfalsy. by eapply overlay_falsy.
    + intros x q' Hq'. unfold readResult. rewrite Hq', Hstatic.
      change (getNodeData (set_readCache snapshot operation x) (rootId operation))
        with (getNodeData snapshot (rootId operation)).
      rewrite overlay_readCache, Hoverlay, Hvisit. eauto.
Qed.

(** C8, as the code has it.  When [read] has returned, reading again with
    the same arguments, against the snapshot and the store the first call
    left, returns the same [complete] and [entityIds]; the second call is a
    cache hit, with nothing recomputed, exactly when the first left a truthy
    [result], and otherwise (the root has no data) recomputes. *)
Theorem read_twice_same_verdict
        (fuel : nat) (context : CacheContext) (raw : RawOperation)
        (snapshot snapshot1 : GraphSnapshot) (h h1 : Heap)
        (includeNodeIds : bool) (queryResult : QueryResult) (cacheHit : bool) :
  read fuel context raw snapshot h includeNodeIds
  = Returned queryResult cacheHit snapshot1 h1 →
  ∃ queryResult2 snapshot2,
    read fuel context raw snapshot1 h1 includeNodeIds
    = Returned queryResult2 (truthy (result queryResult)) snapshot2 h1
    ∧ complete queryResult2 = complete queryResult
    ∧ entityIds queryResult2 = entityIds queryResult.
Proof.
  unfold read.
  set (operation := parseOperation context raw).
  set (q0 := default emptyQueryResult (readCache snapshot !! op_ref operation)).
  destruct (readResult fuel context snapshot operation includeNodeIds q0 h)
    as [[[[qA mA] cA] hA]| |] eqn:HA; [|done..].
  cbn [stage_bind].
  destruct (readNodeIds fuel context operation includeNodeIds (qA, mA, cA, hA))
    as [varsB| |] eqn:HB; [|done..].
  cbn [stage_bind].
  destruct (readPartition raw varsB) as [[[[qC mC] cC] hC]| |] eqn:HC; [|done..].
  intros [= <- <- <- <-].
  destruct (readNodeIds_Go _ _ _ _ _ _ _ _ _ HB)
    as (qB & mB & cB & -> & HresB & HidsB & HsameB).
  destruct (readPartition_Go _ _ _ _ _ _ HC) as (d & [= -> -> -> ->]).
  (* the second call finds what the first has left *)
  assert (readCache (set_readCache snapshot operation
                       {| result := result qB; complete := complete qB;
                          entityIds := entityIds qB;
                          dynamicNodeIds := dynamicNodeIds qB;
                          partitionedQuery := Some d |}) !! op_ref operation
          = Some {| result := result qB; complete := complete qB;
                    entityIds := entityIds qB;
                    dynamicNodeIds := dynamicNodeIds qB;
                    partitionedQuery := Some d |}) as Hcached
      by apply lookup_insert_eq.
  rewrite Hcached. cbn [from_option id result complete entityIds].
  destruct (truthy (result qB)) eqn:Htruthy.
  - (* served from the cache *)
    unfold readResult. cbn [result]. rewrite Htruthy.
    cbn [stage_bind readNodeIds entityIds].
    assert (match includeNodeIds, entityIds qB with
            | true, None => False
            | _, _ => True
            end) as Hids.
    { destruct includeNodeIds, (entityIds qB) eqn:E; try done.
      by destruct (HidsB eq_refl). }
    destruct includeNodeIds, (entityIds qB); try done;
      cbn [stage_bind readPartition result List.length Nat.eqb];
      rewrite orb_true_r; eauto.
  - (* nothing to serve: the first call had to compute, and so has this one *)
    assert (truthy (result q0) = false) as Hq0.
    { destruct (truthy (result q0)) eqn:E; [|done].
      unfold readResult in HA. rewrite E in HA.
      injection HA as <- <- <- <-. congruence. }
    destruct (readResult_recompute _ _ _ _ _ _ _ _ _ _ _ Hq0 HA)
      as (-> & HidsA & HheapA & Hagain).
    rewrite <- HresB in HheapA. pose proof (HheapA Htruthy) as ->.
    assert ((qB, mB, cB) = (qA, mA, false)) as [= -> -> ->].
    { destruct includeNodeIds.
      - specialize (HsameB (or_intror (HidsA eq_refl))). congruence.
      - specialize (HsameB (or_introl eq_refl)). congruence. }
    destruct (Hagain {| result := result qA; complete := complete qA;
                        entityIds := entityIds qA;
                        dynamicNodeIds := dynamicNodeIds qA;
                        partitionedQuery := Some d |}
                     {| result := result qA; complete := complete qA;
                        entityIds := entityIds qA;
                        dynamicNodeIds := dynamicNodeIds qA;
                        partitionedQuery := Some d |} Htruthy)
      as (qA' & -> & HresA' & HcompA' & HidsA').
    cbn [stage_bind readNodeIds].
    assert (match includeNodeIds, entityIds qA' with
            | true, None => False
            | _, _ => True
            end) as Hids.
    { rewrite HidsA'. destruct includeNodeIds, (entityIds qA) eqn:E; try done.
      by destruct (HidsA eq_refl). }
    destruct includeNodeIds, (entityIds qA') eqn:E; try done;
      cbn [stage_bind readPartition]; rewrite HresA', Htruthy;
      cbn [negb orb]; eexists _, _; (split; [reflexivity|]);
      cbn [complete entityIds]; rewrite ?E; auto.
Qed.
End ReadTwice.

(** ** The statements at work on the samples *)

Lemma unresolved_parameterized_field_is_left_alone_witness :
  overlayField sampleNodeId rootQuery (plainContext countOperation)
               (rootedAt 0) (VRef 1) rootQuery [] "count" countNode countStart
  = Next countStart.
Proof.
  apply (unresolved_parameterized_field_is_left_alone
           sampleNodeId rootQuery (plainContext countOperation) (rootedAt 0)
           (VRef 1) rootQuery [] "count" countNode [("min", VNum 1)] countStart);
    [reflexivity..|].
  intros typeName redirect redirected _ Hredirect. discriminate Hredirect.
Defined.

Lemma read_twice_same_verdict_witness :
  ∃ queryResult1 snapshot1 queryResult2 snapshot2,
    read includeAll sampleNodeId rootQuery 10 (plainContext nestedOperation)
         nestedRaw (rootedAt 0) storeBarOnly true
    = Returned queryResult1 false snapshot1 storeBarOnly
    ∧ read includeAll sampleNodeId rootQuery 10 (plainContext nestedOperation)
           nestedRaw snapshot1 storeBarOnly true
      = Returned queryResult2 true snapshot2 storeBarOnly
    ∧ complete queryResult2 = complete queryResult1
    ∧ entityIds queryResult2 = entityIds queryResult1.
Proof.
  eexists _, _.
  destruct (read_twice_same_verdict
              includeAll sampleNodeId rootQuery 10
              (plainContext nestedOperation) nestedRaw (rootedAt 0) _
              storeBarOnly _ true _ _ eq_refl)
    as (queryResult2 & snapshot2 & Hread & Hcomplete & Hids).
  exists queryResult2, snapshot2. split; [reflexivity|]. split; [exact Hread|].
  split; [exact Hcomplete|exact Hids].
Defined.

(** C8 as stated fails: read against a snapshot that has no data for the
    root, the query leaves no [result] in the cache, and the second call
    computes again ([cacheHit] is false). *)
Lemma read_again_without_root_data_recomputes :
  ∃ queryResult1 snapshot1 queryResult2 snapshot2,
    read includeAll sampleNodeId rootQuery 10 (plainContext nestedOperation)
         nestedRaw emptySnapshot [] false
    = Returned queryResult1 false snapshot1 []
    ∧ readCache snapshot1 !! op_ref nestedOperation = Some queryResult1
    ∧ read includeAll sampleNodeId rootQuery 10 (plainContext nestedOperation)
           nestedRaw snapshot1 [] false
      = Returned queryResult2 false snapshot2 [].
Proof.
  eexists _, _, _, _. split; [reflexivity|]. split; [reflexivity|]. reflexivity.
Qed.

(** ** Runs of the walker *)

Section WalkerRuns.
Context {State : Type}.
Variable h : Heap.
Variable visitor :
  val -> list (string * SelectionNode) -> option SelectionNode -> State -> bool * State.

(** A turn of the walk, as the source orders its tests. *)
Lemma walk_step_eq node stack s :
  walk_step h visitor node stack s =
  if isNull (parent node) then (stack, s)
  else
    match as_array h (parent node) with
    | Some elems =>
        (map (λ e, {| parsedOperation := parsedOperation node;
                      parentSelection := parentSelection node;
                      parent := e |}) elems ++ stack, s)
    | None =>
        match map (λ '(fieldName, n), (fieldName, selection n))
                  (parsedOperation node) with
        | [] => (stack, s)
        | f :: fs =>
            if (visitor (parent node) (f :: fs) (parentSelection node) s).1
            then (stack,
                  (visitor (parent node) (f :: fs) (parentSelection node) s).2)
            else (rev (queued_children h (parsedOperation node) (parent node))
                    ++ stack,
                  (visitor (parent node) (f :: fs) (parentSelection node) s).2)
        end
    end.
Proof.
  unfold walk_step.
  destruct (parent node); try done;
    destruct (as_array h _); try done;
    destruct (map _ (parsedOperation node)); try done;
    by destruct (visitor _ _ _ _) as [[] ?].
Qed.

(** What a turn of the walk leaves on the stack: the elements of the array
    the node holds, each with the node's selection set, or values read from
    the node's value, each with the sub-selection of the field it was read
    under. *)
Lemma walk_step_pushes node s :
  ∃ pushed s1,
    (∀ stack, walk_step h visitor node stack s = (pushed ++ stack, s1))
    ∧ Forall (λ w,
        (parsedOperation w = parsedOperation node
         ∧ parentSelection w = parentSelection node
         ∧ element_of h (parent w) (parent node))
        ∨ (∃ key n,
             (key, n) ∈ parsedOperation node
             ∧ children n = Some (parsedOperation w)
             ∧ parentSelection w = Some (selection n)
             ∧ parent w = get h (parent node) key)) pushed.
Proof.
  assert (Forall (λ w,
            ∃ key n, (key, n) ∈ parsedOperation node
                     ∧ children n = Some (parsedOperation w)
                     ∧ parentSelection w = Some (selection n)
                     ∧ parent w = get h (parent node) key)
                 (queued_children h (parsedOperation node) (parent node)))
    as Hchildren.
  { unfold queued_children.
    induction (parsedOperation node) as [|[k n] po IH]; [done|].
    cbn [flat_map]. apply Forall_app. split.
    - destruct (children n) as [sub|] eqn:Hsub; [|done].
      apply Forall_singleton. exists k, n. cbn.
      split; [apply list_elem_of_here|done].
    - eapply Forall_impl; [exact IH|].
      intros w (key & n' & Hin & Hrest). exists key, n'.
      split; [by apply list_elem_of_further|done]. }
  assert (∀ elems, as_array h (parent node) = Some elems →
            Forall (λ w, parsedOperation w = parsedOperation node
                         ∧ parentSelection w = parentSelection node
                         ∧ element_of h (parent w) (parent node))
                   (map (λ e, {| parsedOperation := parsedOperation node;
                                 parentSelection := parentSelection node;
                                 parent := e |}) elems)) as Helems.
  { intros elems Harr. apply Forall_forall. intros w Hw.
    apply list_elem_of_fmap in Hw as (e & -> & He). cbn.
    split; [done|]. split; [done|]. by exists elems. }
  setoid_rewrite walk_step_eq.
  destruct (isNull (parent node)) eqn:Hnull.
  { exists [], s. split; [done|constructor]. }
  destruct (as_array h (parent node)) as [elems|] eqn:Harr.
  { eexists _, s. split; [done|].
    eapply Forall_impl; [by apply Helems|]. intros w Hw. by left. }
  destruct (map _ (parsedOperation node)) as [|f fs] eqn:Hfields.
  { exists [], s. split; [done|constructor]. }
  destruct (visitor (parent node) (f :: fs) (parentSelection node) s)
    as [[] s1] eqn:Hvisit; cbn [fst snd].
  - exists [], s1. split; [done|constructor].
  - eexists _, s1. split; [done|].
    apply Forall_rev. eapply Forall_impl; [exact Hchildren|].
    intros w Hw. by right.
Qed.

(** The nodes on top of the stack are worked off one after the other. *)
Lemma walk_loop_works_off_all (top : list OperationWalkNode) :
  Forall (λ node, ∀ stack s, ∃ turns s', ∀ fuel,
            walk_loop h visitor (turns + fuel) (node :: stack) s
            = walk_loop h visitor fuel stack s') top →
  ∀ stack s, ∃ turns s', ∀ fuel,
    walk_loop h visitor (turns + fuel) (top ++ stack) s
    = walk_loop h visitor fuel stack s'.
Proof.
  induction top as [|node top IH]; intros Hall stack s.
  - by exists 0, s.
  - apply Forall_cons in Hall as [Hnode Hall].
    destruct (Hnode (top ++ stack) s) as (turns1 & s1 & Hrun1).
    destruct (IH Hall stack s1) as (turns2 & s2 & Hrun2).
    exists (turns1 + turns2), s2. intros fuel.
    cbn [app]. by rewrite <- Nat.add_assoc, Hrun1, Hrun2.
Qed.

(** A node is worked off, with all it queues in turn, in a number of turns
    that can be told beforehand, when no array of the store holds itself. *)
Lemma walk_loop_works_off :
  well_founded (element_of h) →
  ∀ depth po, mapDepth po < depth →
  ∀ value enclosing stack s, ∃ turns s', ∀ fuel,
    walk_loop h visitor (turns + fuel)
              ({| parsedOperation := po; parentSelection := enclosing;
                  parent := value |} :: stack) s
    = walk_loop h visitor fuel stack s'.
Proof.
  intros Hwf. induction depth as [|depth IHdepth]; intros po Hdepth; [lia|].
  intros value. induction value as [value IHvalue] using (well_founded_induction Hwf).
  intros enclosing stack s.
  destruct (walk_step_pushes
              {| parsedOperation := po; parentSelection := enclosing;
                 parent := value |} s) as (pushed & s1 & Hstep & Hpushed).
  cbn [parsedOperation parentSelection parent] in Hpushed.
  destruct (walk_loop_works_off_all pushed) with (stack := stack) (s := s1)
    as (turns & s' & Hrun).
  { eapply Forall_impl; [exact Hpushed|].
    intros [wpo wsel wparent]; cbn.
    intros [(-> & -> & Helem)|(key & n & Hin & Hsub & -> & ->)] stack' s0.
    - by apply IHvalue.
    - apply IHdepth.
      apply mapDepth_elem in Hin. rewrite (nodeDepth_children _ _ Hsub) in Hin.
      lia. }
  exists (S turns), s'. intros fuel.
  cbn [Nat.add]. by rewrite walk_loop_step, Hstep.
Qed.

(** X1.  [walkOperation] comes to an end on every store in which no array
    holds itself, directly or through other arrays, whatever the visitor does:
    from some number of turns on it has emptied its stack, with one and the
    same final state of the visitor. *)
Theorem walkOperation_comes_to_an_end
        (rootOperation : ParsedQuery) (result : val) (s : State) :
  well_founded (element_of h) →
  ∃ enough s', ∀ fuel,
    enough ≤ fuel →
    walkOperation h visitor fuel rootOperation result s = Some s'.
Proof.
  intros Hwf.
  destruct (walk_loop_works_off Hwf (S (mapDepth rootOperation)) rootOperation
              ltac:(lia) result None [] s) as (turns & s' & Hrun).
  exists turns, s'. intros fuel Hfuel. unfold walkOperation.
  replace fuel with (turns + (fuel - turns)) by lia.
  rewrite Hrun. apply walk_loop_nil.
Qed.

(** X2.  [walkOperation] calls the visitor on plain values only: never on
    [null], never on an array (its elements are visited instead), never with
    an empty list of fields.  So whatever the visitor keeps of its state at
    such calls holds when the walk is over. *)
Theorem visitor_is_called_on_plain_values
        (kept : State → Prop) (fuel : nat)
        (stack : list OperationWalkNode) (s s' : State) :
  (∀ value fields enclosing s0,
     value ≠ VNull → as_array h value = None → fields ≠ [] →
     kept s0 → kept (visitor value fields enclosing s0).2) →
  kept s →
  walk_loop h visitor fuel stack s = Some s' →
  kept s'.
Proof.
  intros Hvisitor. revert stack s.
  induction fuel as [|fuel IH]; intros stack s Hs Hrun.
  - destruct stack; [|done]. by injection Hrun as <-.
  - destruct stack as [|node stack]; [by injection Hrun as <-|].
    rewrite walk_loop_step in Hrun.
    apply IH in Hrun; [done|]. rewrite walk_step_eq.
    destruct (isNull (parent node)) eqn:Hnull; [done|].
    destruct (as_array h (parent node)) as [elems|] eqn:Harr; [done|].
    destruct (map _ (parsedOperation node)) as [|f fs] eqn:Hfields; [done|].
    assert (kept (visitor (parent node) (f :: fs) (parentSelection node) s).2)
      as Hkept.
    { apply Hvisitor; try done. by destruct (parent node). }
    by destruct (visitor (parent node) (f :: fs) (parentSelection node) s).1.
Qed.
End WalkerRuns.

(** ** What the completeness check finds *)

Section WalkerKeeps.
Context {State : Type}.
Variable h : Heap.
Variable visitor :
  val -> list (string * SelectionNode) -> option SelectionNode -> State -> bool * State.

(** What every call of the visitor keeps holds when the walk is over. *)
Lemma walk_loop_keeps (kept : State → Prop) :
  (∀ value fields enclosing s0,
     kept s0 → kept (visitor value fields enclosing s0).2) →
  ∀ fuel stack s s',
    kept s → walk_loop h visitor fuel stack s = Some s' → kept s'.
Proof.
  intros Hvisitor. induction fuel as [|fuel IH]; intros stack s s' Hs Hrun.
  - destruct stack; [|done]. by injection Hrun as <-.
  - destruct stack as [|node stack]; [by injection Hrun as <-|].
    rewrite walk_loop_step in Hrun.
    apply IH in Hrun; [done|]. rewrite walk_step_eq.
    destruct (isNull (parent node)); [done|].
    destruct (as_array h (parent node)); [done|].
    destruct (map _ (parsedOperation node)) as [|f fs]; [done|].
    specialize (Hvisitor (parent node) (f :: fs) (parentSelection node) s Hs).
    by destruct (visitor (parent node) (f :: fs) (parentSelection node) s).1.
Qed.
End WalkerKeeps.

Lemma Forall_rev_iff {A} (P : A → Prop) (l : list A) :
  Forall P (rev l) ↔ Forall P l.
Proof.
  rewrite !Forall_forall. split; intros Hall x Hx; apply Hall.
  - apply list_elem_of_In. apply -> List.in_rev. by apply list_elem_of_In.
  - apply list_elem_of_In. apply List.in_rev. by apply list_elem_of_In.
Qed.

Lemma first_absent_None h value fields :
  first_absent h value fields = None
  ↔ ∀ field fieldNode, (field, fieldNode) ∈ fields →
                       in_value h field value = true.
Proof.
  induction fields as [|[k sel] fields IH]; cbn [first_absent].
  - split; [|done]. intros _ field fieldNode Hin. by apply elem_of_nil in Hin.
  - destruct (in_value h k value) eqn:Hk; cbn [negb].
    + rewrite IH. split.
      * intros Hall field fieldNode [[= -> ->]|Hin]%elem_of_cons; [done|].
        by eapply Hall.
      * intros Hall field fieldNode Hin. eapply Hall.
        by apply list_elem_of_further.
    + split; [done|]. intros Hall.
      rewrite (Hall k sel) in Hk; [done|apply list_elem_of_here].
Qed.

Lemma first_absent_Some h value fields fieldNode :
  first_absent h value fields = Some fieldNode →
  ∃ field, (field, fieldNode) ∈ fields.
Proof.
  induction fields as [|[k sel] fields IH]; cbn [first_absent]; [done|].
  destruct (negb (in_value h k value)).
  - intros [= <-]. exists k. apply list_elem_of_here.
  - intros [field Hin]%IH. exists field. by apply list_elem_of_further.
Qed.

Lemma fields_of_elem (po : ParsedQuery) field fieldNode :
  (field, fieldNode) ∈ map (λ '(fieldName, n), (fieldName, selection n)) po
  ↔ ∃ node, (field, node) ∈ po ∧ fieldNode = selection node.
Proof.
  rewrite list_elem_of_fmap. split.
  - intros ([k n] & [= -> ->] & Hin). by exists n.
  - intros (node & Hin & ->). by exists (field, node).
Qed.

(** The values queued below a node have what their sub-selections ask for
    exactly when each field with a sub-selection has it. *)
Lemma queued_children_Satisfied h (po : ParsedQuery) value :
  Forall (λ w, Satisfied h (parsedOperation w) (parent w))
         (queued_children h po value)
  ↔ ∀ key node sub,
      (key, node) ∈ po → children node = Some sub →
      Satisfied h sub (get h value key).
Proof.
  unfold queued_children. induction po as [|[k n] po IH]; cbn [flat_map].
  - split; [|done]. intros _ key node sub Hin. by apply elem_of_nil in Hin.
  - rewrite Forall_app, IH. split.
    + intros [Hhere Hrest] key node sub [[= -> ->]|Hin]%elem_of_cons Hsub.
      * rewrite Hsub, Forall_singleton in Hhere. done.
      * by eapply Hrest.
    + intros Hall. split.
      * destruct (children n) as [sub|] eqn:Hsub; [|done].
        apply Forall_singleton. cbn. eapply Hall; [apply list_elem_of_here|done].
      * intros key node sub Hin. eapply Hall. by apply list_elem_of_further.
Qed.

(** A turn of the completeness check: the verdict is still [true] and the
    stack holds satisfied nodes only, exactly when this was so before the
    turn. *)
Lemma walk_step_complete context h node rest s :
  (v_complete (walk_step h (visit context h) node rest s).2 = true
   ∧ Forall (λ w, Satisfied h (parsedOperation w) (parent w))
            (walk_step h (visit context h) node rest s).1)
  ↔ (v_complete s = true
     ∧ Satisfied h (parsedOperation node) (parent node)
     ∧ Forall (λ w, Satisfied h (parsedOperation w) (parent w)) rest).
Proof.
  rewrite walk_step_eq.
  destruct (isNull (parent node)) eqn:Hnull.
  { assert (parent node = VNull) as -> by by destruct (parent node).
    cbn [fst snd]. split; [|tauto]. intros [? ?].
    split; [done|]. split; [constructor|done]. }
  assert (parent node ≠ VNull) as Hnotnull by by destruct (parent node).
  destruct (as_array h (parent node)) as [elems|] eqn:Harr.
  { cbn [fst snd]. rewrite Forall_app, Forall_fmap.
    assert (Satisfied h (parsedOperation node) (parent node)
            ↔ Forall (Satisfied h (parsedOperation node)) elems) as ->.
    { split.
      - inversion 1; subst; try congruence.
      - by apply Satisfied_array. }
    unfold compose. cbn [parsedOperation parent]. tauto. }
  destruct (map _ (parsedOperation node)) as [|f fs] eqn:Hfields.
  { apply map_eq_nil in Hfields. rewrite Hfields. cbn [fst snd].
    split; [|tauto]. intros [? ?]. split; [done|].
    split; [by apply Satisfied_nothing_asked|done]. }
  assert (parsedOperation node ≠ []) as Hpo
    by (intros Hnil; by rewrite Hnil in Hfields).
  destruct (parent node) as [| | b | z | str | l] eqn:Hparent; try done.
  - (* undefined: flagged, and not satisfied *)
    cbn [visit fst snd v_complete]. split; [by intros [? _]|].
    intros (_ & Hsat & _). inversion Hsat; subst; congruence.
  - (* a boolean *)
    cbn [visit isObject negb fst snd].
    rewrite Forall_app, Forall_rev_iff, queued_children_Satisfied.
    split.
    + intros (Hc & Hsub & Hrest). split; [done|]. split; [|done].
      by apply Satisfied_fields.
    + intros (Hc & Hsat & Hrest). split; [done|]. split; [|done].
      inversion Hsat; subst; try congruence. done.
  - cbn [visit isObject negb fst snd].
    rewrite Forall_app, Forall_rev_iff, queued_children_Satisfied.
    split.
    + intros (Hc & Hsub & Hrest). split; [done|]. split; [|done].
      by apply Satisfied_fields.
    + intros (Hc & Hsat & Hrest). split; [done|]. split; [|done].
      inversion Hsat; subst; try congruence. done.
  - cbn [visit isObject negb fst snd].
    rewrite Forall_app, Forall_rev_iff, queued_children_Satisfied.
    split.
    + intros (Hc & Hsub & Hrest). split; [done|]. split; [|done].
      by apply Satisfied_fields.
    + intros (Hc & Hsat & Hrest). split; [done|]. split; [|done].
      inversion Hsat; subst; try congruence. done.
  - (* an object *)
    rewrite visit_object. cbn [fst snd v_complete].
    rewrite Forall_app, Forall_rev_iff, queued_children_Satisfied.
    destruct (first_absent h (VRef l) (f :: fs)) as [absent|] eqn:Habsent.
    + split; [by intros [? _]|]. intros (_ & Hsat & _).
      inversion Hsat as [| |? ? ? Hnil|? ? ? ? ? ? Hall ?]; subst;
        try congruence.
      assert (first_absent h (VRef l) (f :: fs) = None) as Hnone; [|congruence].
      apply first_absent_None. intros field fieldNode Hin.
      rewrite <- Hfields in Hin.
      apply fields_of_elem in Hin as (n & Hin & _). by eapply Hall.
    + rewrite first_absent_None in Habsent. split.
      * intros (Hc & Hsub & Hrest). split; [done|]. split; [|done].
        apply Satisfied_fields; try done.
        intros _ key n Hin. apply (Habsent key (selection n)).
        rewrite <- Hfields. apply fields_of_elem. by exists n.
      * intros (Hc & Hsat & Hrest). split; [done|]. split; [|done].
        inversion Hsat; subst; try congruence. done.
Qed.

Lemma walk_loop_complete context h fuel : ∀ stack s s',
  walk_loop h (visit context h) fuel stack s = Some s' →
  (v_complete s' = true
   ↔ v_complete s = true
     ∧ Forall (λ w, Satisfied h (parsedOperation w) (parent w)) stack).
Proof.
  induction fuel as [|fuel IH]; intros stack s s' Hrun.
  - destruct stack; [|done]. injection Hrun as <-. split; [done|tauto].
  - destruct stack as [|node stack].
    { injection Hrun as <-. split; [done|tauto]. }
    rewrite walk_loop_step in Hrun. apply IH in Hrun. rewrite Hrun.
    rewrite walk_step_complete, Forall_cons. tauto.
Qed.

(** The verdict of the completeness check, whenever it has one. *)
Lemma visitSelection_complete fuel query context h result nodeIds s :
  _visitSelection fuel query context h result nodeIds = Some s →
  (v_complete s = true ↔ Satisfied h (info_parsed query) result).
Proof.
  unfold _visitSelection, walkOperation. intros Hrun.
  apply walk_loop_complete in Hrun. rewrite Hrun. cbn [v_complete].
  rewrite Forall_singleton. cbn. tauto.
Qed.

(** The completeness check comes to an end where no array holds itself. *)
Lemma visitSelection_ends fuel0 query context h result nodeIds :
  well_founded (element_of h) →
  ∃ enough s, fuel0 ≤ enough ∧ ∀ fuel,
    enough ≤ fuel →
    _visitSelection fuel query context h result nodeIds = Some s.
Proof.
  intros Hwf. unfold _visitSelection, walkOperation.
  set (s0 := {| v_complete := true; v_missingFields := []; v_nodeIds := _ |}).
  destruct (walk_loop_works_off h (visit context h) Hwf
              (S (mapDepth (info_parsed query))) (info_parsed query)
              ltac:(lia) result None [] s0) as (turns & s' & Hrun).
  exists (turns + fuel0), s'. split; [lia|]. intros fuel Hfuel.
  replace fuel with (turns + (fuel - turns)) by lia.
  rewrite Hrun. apply walk_loop_nil.
Qed.

(** X3.  On a store in which no array holds itself, and for a query none of
    whose response keys is the name of a member of [Object.prototype], the
    completeness check comes to an end, and its verdict is [true] exactly
    when the result has all the query asks for. *)
Theorem visitSelection_verdict_is_satisfaction
        (query : OperationInstance) (context : CacheContext) (h : Heap)
        (result : val) (nodeIds : option (gset NodeId)) :
  well_founded (element_of h) →
  ownKeysOnly (info_parsed query) = true →
  ∃ enough s,
    (∀ fuel, enough ≤ fuel →
             _visitSelection fuel query context h result nodeIds = Some s)
    ∧ (v_complete s = true ↔ Satisfied h (info_parsed query) result).
Proof.
  intros Hwf _.
  destruct (visitSelection_ends 0 query context h result nodeIds Hwf)
    as (enough & s & _ & Hrun).
  exists enough, s. split; [done|].
  by apply (visitSelection_complete enough query context h result nodeIds),
           Hrun.
Qed.

(** *** The fields reported missing *)

Lemma visit_missing context h value fields enclosing s :
  ∃ more,
    v_missingFields (visit context h value fields enclosing s).2
    = v_missingFields s ++ more
    ∧ Forall (λ m, enclosing = Some m ∨ ∃ field, (field, m) ∈ fields) more.
Proof.
  destruct value as [| | b | z | str | l];
    try (exists []; split; [by rewrite app_nil_r|constructor]).
  - exists (opt_list enclosing). split; [done|].
    destruct enclosing; [|constructor]. apply Forall_singleton. by left.
  - rewrite visit_object. cbn [snd v_missingFields].
    eexists. split; [done|].
    destruct (first_absent h (VRef l) fields) as [absent|] eqn:Habsent;
      [|constructor].
    apply Forall_singleton. right. by eapply first_absent_Some.
Qed.

(** The selections the walk has yet to report all come from the query
    [root]: those of a stacked node's selection set, and the selection the
    node was queued under. *)
Lemma walk_loop_missing_selected context h root fuel : ∀ stack s s',
  Forall (λ w, (∀ sel, selects (parsedOperation w) sel → selects root sel)
               ∧ ∀ p, parentSelection w = Some p → selects root p) stack →
  Forall (selects root) (v_missingFields s) →
  walk_loop h (visit context h) fuel stack s = Some s' →
  Forall (selects root) (v_missingFields s').
Proof.
  induction fuel as [|fuel IH]; intros stack s s' Hstack Hs Hrun.
  - destruct stack; [|done]. by injection Hrun as <-.
  - destruct stack as [|node stack]; [by injection Hrun as <-|].
    apply Forall_cons in Hstack as [[Hsub Henclosing] Hstack].
    rewrite walk_loop_step in Hrun.
    destruct (walk_step_pushes h (visit context h) node s)
      as (pushed & s1 & Hstep & Hpushed).
    rewrite Hstep in Hrun. cbn [fst snd] in Hrun.
    apply IH in Hrun; [done| |].
    + apply Forall_app. split; [|done].
      eapply Forall_impl; [exact Hpushed|].
      intros w [(Hpo & Hsel & _)|(key & n & Hin & Hch & Hsel & _)].
      * rewrite Hpo, Hsel. done.
      * split.
        -- intros sel Hw. apply Hsub. by eapply selects_below.
        -- intros p Hp. rewrite Hsel in Hp. injection Hp as <-.
           apply Hsub. by eapply selects_here.
    + specialize (Hstep stack). rewrite walk_step_eq in Hstep.
      destruct (isNull (parent node)); [by injection Hstep as _ <-|].
      destruct (as_array h (parent node)); [by injection Hstep as _ <-|].
      destruct (map _ (parsedOperation node)) as [|f fs] eqn:Hfields;
        [by injection Hstep as _ <-|].
      assert (s1 = (visit context h (parent node) (f :: fs)
                          (parentSelection node) s).2) as ->.
      { by destruct (visit context h (parent node) (f :: fs)
                           (parentSelection node) s).1;
          injection Hstep as _ <-. }
      destruct (visit_missing context h (parent node) (f :: fs)
                              (parentSelection node) s)
        as (more & -> & Hmore).
      apply Forall_app. split; [done|].
      eapply Forall_impl; [exact Hmore|].
      intros m [Hm|[field Hm]]; [by apply Henclosing|].
      rewrite <- Hfields in Hm.
      apply fields_of_elem in Hm as (n & Hin & ->).
      apply Hsub. by eapply selects_here.
Qed.

(** X4.  Every selection the completeness check reports missing is a selection
    of the compiled query it walked: the check reports no field the query does
    not ask for. *)
Theorem visitSelection_reports_selections_of_the_query
        (fuel : nat) (query : OperationInstance) (context : CacheContext)
        (h : Heap) (result : val) (nodeIds : option (gset NodeId))
        (s : VisitState) :
  _visitSelection fuel query context h result nodeIds = Some s →
  Forall (selects (info_parsed query)) (v_missingFields s).
Proof.
  unfold _visitSelection, walkOperation. intros Hrun.
  eapply walk_loop_missing_selected; [| |exact Hrun]; [|constructor].
  apply Forall_singleton. cbn. done.
Qed.

(** A field reported missing comes with a verdict of [false]: the visitor
    sets [complete] to false at every push. *)
Lemma visitSelection_missing_incomplete fuel query context h result nodeIds s :
  _visitSelection fuel query context h result nodeIds = Some s →
  v_missingFields s ≠ [] → v_complete s = false.
Proof.
  unfold _visitSelection, walkOperation. intros Hrun.
  refine (walk_loop_keeps h (visit context h)
            (λ s, v_missingFields s ≠ [] → v_complete s = false)
            _ _ _ _ _ _ Hrun); [|done].
  intros value fields enclosing s0 Hs0.
  destruct value as [| | b | z | str | l]; try done.
  rewrite visit_object. cbn [snd v_complete v_missingFields].
  destruct (first_absent h (VRef l) fields); [done|].
  cbn [opt_list]. by rewrite app_nil_r.
Qed.

(** X5.  A verdict of [true] comes with no field reported missing, and so a
    field reported missing with a verdict of [false]. *)
Theorem visitSelection_complete_reports_nothing
        (fuel : nat) (query : OperationInstance) (context : CacheContext)
        (h : Heap) (result : val) (nodeIds : option (gset NodeId))
        (s : VisitState) :
  _visitSelection fuel query context h result nodeIds = Some s →
  v_complete s = true →
  v_missingFields s = [].
Proof.
  intros Hrun Hcomplete.
  pose proof (visitSelection_missing_incomplete _ _ _ _ _ _ _ Hrun) as Hkept.
  destruct (v_missingFields s); [done|].
  rewrite Hkept in Hcomplete; done.
Qed.

(** The node ids the completeness check hands back, whenever it hands any
    back. *)
Lemma visitSelection_nodeIds_kept fuel query context h result given s :
  _visitSelection fuel query context h result (Some given) = Some s →
  ∃ ids,
    v_nodeIds s = Some ids
    ∧ given ⊆ ids
    ∧ (result ≠ VUndef → rootId query ∈ ids).
Proof.
  unfold _visitSelection, walkOperation. intros Hrun.
  set (start := match result with
                | VUndef => given
                | _ => {[rootId query]} ∪ given
                end).
  assert (∃ ids, v_nodeIds s = Some ids ∧ start ⊆ ids) as (ids & Hids & Hsub).
  { refine (walk_loop_keeps h (visit context h)
              (λ s, ∃ ids, v_nodeIds s = Some ids ∧ start ⊆ ids)
              _ _ _ _ _ _ Hrun).
    - intros value fields enclosing s0 (ids & Hids & Hsub).
      destruct value as [| | b | z | str | l]; try by exists ids.
      rewrite visit_object. cbn [snd v_nodeIds]. rewrite Hids.
      unfold noteEntity. destruct (entityIdForValue context h (VRef l)).
      + eexists. split; [done|]. set_solver.
      + by exists ids.
    - exists start. split; [|done]. subst start. cbn. by destruct result. }
  exists ids. split; [done|]. subst start.
  destruct result; split; try set_solver.
Qed.

(** X6.  Asked for node ids on a store in which no array holds itself, the
    completeness check comes to an end and hands back a set that holds the
    ids it was given and, unless the result is [undefined], the id of the
    operation's root. *)
Theorem visitSelection_collects_the_root_id
        (query : OperationInstance) (context : CacheContext)
        (h : Heap) (result : val) (given : gset NodeId) :
  well_founded (element_of h) →
  ∃ enough s ids,
    (∀ fuel, enough ≤ fuel →
             _visitSelection fuel query context h result (Some given) = Some s)
    ∧ v_nodeIds s = Some ids
    ∧ given ⊆ ids
    ∧ (result ≠ VUndef → rootId query ∈ ids).
Proof.
  intros Hwf.
  destruct (visitSelection_ends 0 query context h result (Some given) Hwf)
    as (enough & s & _ & Hrun).
  destruct (visitSelection_nodeIds_kept enough query context h result given s
              (Hrun enough ltac:(lia))) as (ids & Hids & Hgiven & Hroot).
  by exists enough, s, ids.
Qed.

(** *** Values that are not there *)

(** The visitor stops the walk at [undefined] only. *)
Lemma visit_goes_on context h value fields enclosing s :
  value ≠ VUndef → (visit context h value fields enclosing s).1 = false.
Proof.
  intros Hvalue. destruct value as [| | b | z | str | l]; try done.
  rewrite visit_object. by destruct (first_absent h (VRef l) fields).
Qed.

(** Once the verdict is [false] it stays so, and a selection reported stays
    reported. *)
Lemma visit_keeps_flag context h value fields enclosing s :
  v_complete s = false →
  v_complete (visit context h value fields enclosing s).2 = false.
Proof.
  intros Hs. destruct value as [| | b | z | str | l]; try done.
  rewrite visit_object. cbn [snd v_complete].
  by destruct (first_absent h (VRef l) fields).
Qed.

Lemma visit_keeps_missing context h value fields enclosing s sel :
  sel ∈ v_missingFields s →
  sel ∈ v_missingFields (visit context h value fields enclosing s).2.
Proof.
  intros Hsel.
  destruct (visit_missing context h value fields enclosing s) as (more & -> & _).
  apply elem_of_app. by left.
Qed.

Lemma queued_children_elem h (po : ParsedQuery) value key n sub :
  (key, n) ∈ po →
  children n = Some sub →
  {| parsedOperation := sub; parentSelection := Some (selection n);
     parent := get h value key |} ∈ queued_children h po value.
Proof.
  intros Hin Hsub. unfold queued_children.
  apply list_elem_of_In, in_flat_map. exists (key, n).
  split; [by apply list_elem_of_In|]. rewrite Hsub. by left.
Qed.

(** A node paired with [undefined] that the walk has yet to come to: when
    the walk is over the verdict is [false], and the selection the node was
    queued under is among those reported. *)
Lemma walk_loop_flags context h node fuel : ∀ stack s s' top,
  parent node = VUndef →
  parsedOperation node ≠ [] →
  top ∈ stack →
  comes_to h top node →
  walk_loop h (visit context h) fuel stack s = Some s' →
  v_complete s' = false
  ∧ ∀ enclosing, parentSelection node = Some enclosing →
                 enclosing ∈ v_missingFields s'.
Proof.
  intros stack s s' top Hundef Hfields. revert stack s s' top.
  induction fuel as [|fuel IH]; intros stack s s' top Htop Hcomes Hrun.
  { destruct stack; [by apply elem_of_nil in Htop|done]. }
  destruct stack as [|first stack]; [by apply elem_of_nil in Htop|].
  rewrite walk_loop_step in Hrun.
  apply elem_of_cons in Htop as [->|Htop]; last first.
  { destruct (walk_step_pushes h (visit context h) first s)
      as (pushed & s1 & Hstep & _).
    rewrite Hstep in Hrun. cbn [fst snd] in Hrun.
    eapply (IH _ _ _ top); [|done|exact Hrun].
    apply elem_of_app. by right. }
  inversion Hcomes as [?|? elems e ? Harr He Hbelow|
                       ? key n sub ? Hnull Hdef Harr Hin Hsub Hbelow]; subst.
  - (* the node itself *)
    destruct node as [po enclosing value]. cbn in Hundef, Hfields. subst value.
    rewrite walk_step_undefined in Hrun by done. cbn [fst snd] in Hrun.
    refine (walk_loop_keeps h (visit context h)
              (λ s, v_complete s = false
                    ∧ ∀ sel, enclosing = Some sel → sel ∈ v_missingFields s)
              _ _ _ _ _ _ Hrun).
    + intros value fields enc s0 [Hc Hm]. split.
      * by apply visit_keeps_flag.
      * intros sel Hsel. by apply visit_keeps_missing, Hm.
    + split; [done|]. intros sel ->. cbn. apply elem_of_app. right.
      apply list_elem_of_here.
  - (* an element of the array the node holds *)
    rewrite walk_step_eq, Harr in Hrun.
    assert (isNull (parent first) = false) as Hnull
      by (by destruct (parent first)).
    rewrite Hnull in Hrun. cbn [fst snd] in Hrun.
    eapply IH; [|exact Hbelow|exact Hrun].
    apply elem_of_app. left. apply list_elem_of_fmap. by exists e.
  - (* the sub-selection of a field *)
    rewrite walk_step_eq, Harr in Hrun.
    assert (isNull (parent first) = false) as Hnotnull
      by (by destruct (parent first)).
    rewrite Hnotnull in Hrun.
    destruct (map _ (parsedOperation first)) as [|f fs] eqn:Hmap.
    { apply map_eq_nil in Hmap. rewrite Hmap in Hin.
      by apply elem_of_nil in Hin. }
    rewrite (visit_goes_on context h (parent first) (f :: fs)
               (parentSelection first) s Hdef) in Hrun.
    cbn [fst snd] in Hrun.
    eapply IH; [|exact Hbelow|exact Hrun].
    apply elem_of_app. left. apply list_elem_of_In, in_rev.
    rewrite rev_involutive. apply list_elem_of_In.
    by apply queued_children_elem.
Qed.

(** C3.  On a store in which no array holds itself, and for a query none of
    whose response keys is the name of a member of [Object.prototype], the
    completeness check comes to an end.  For every node the walk comes to
    that has at least one compiled field and is paired with [undefined]: the
    verdict is [false]; the selection the node was queued under, that of the
    field whose sub-selection it is, is among those reported (nothing is
    reported for the operation's root, which is queued under no selection);
    and the turn of the walk on the node pushes that selection and nothing
    else, and leaves the stack without the node's children. *)
Theorem undefined_value_is_flagged_and_pruned
        (query : OperationInstance) (context : CacheContext) (h : Heap)
        (result : val) (nodeIds : option (gset NodeId)) :
  well_founded (element_of h) →
  ownKeysOnly (info_parsed query) = true →
  ∃ enough s,
    (∀ fuel, enough ≤ fuel →
             _visitSelection fuel query context h result nodeIds = Some s)
    ∧ ∀ node,
        comes_to h {| parsedOperation := info_parsed query;
                      parentSelection := None; parent := result |} node →
        parent node = VUndef →
        parsedOperation node ≠ [] →
        v_complete s = false
        ∧ (∀ enclosing, parentSelection node = Some enclosing →
                        enclosing ∈ v_missingFields s)
        ∧ ∀ fuel stack s0,
            walk_loop h (visit context h) (S fuel) (node :: stack) s0
            = walk_loop h (visit context h) fuel stack
                {| v_complete := false;
                   v_missingFields :=
                     v_missingFields s0 ++ opt_list (parentSelection node);
                   v_nodeIds := v_nodeIds s0 |}.
Proof.
  intros Hwf _.
  destruct (visitSelection_ends 0 query context h result nodeIds Hwf)
    as (enough & s & _ & Hrun).
  exists enough, s. split; [exact Hrun|].
  intros node Hcomes Hundef Hfields.
  specialize (Hrun enough ltac:(lia)).
  unfold _visitSelection, walkOperation in Hrun.
  destruct (walk_loop_flags context h node enough _ _ _ _ Hundef Hfields
              ltac:(apply list_elem_of_here) Hcomes Hrun) as [Hc Hm].
  split; [exact Hc|]. split; [exact Hm|].
  intros fuel stack s0. rewrite walk_loop_step.
  destruct node as [po enclosing value]. cbn in Hundef, Hfields. subst value.
  by rewrite walk_step_undefined.
Qed.

(** *** The verdict and the node ids *)

(** The visitor flags the same whether or not it collects node ids. *)
Lemma visit_verdict context h value fields enclosing s1 s2 :
  v_complete s1 = v_complete s2 →
  v_missingFields s1 = v_missingFields s2 →
  (visit context h value fields enclosing s1).1
  = (visit context h value fields enclosing s2).1
  ∧ v_complete (visit context h value fields enclosing s1).2
    = v_complete (visit context h value fields enclosing s2).2
  ∧ v_missingFields (visit context h value fields enclosing s1).2
    = v_missingFields (visit context h value fields enclosing s2).2.
Proof.
  intros Hc Hm. destruct value as [| | b | z | str | l]; cbn; try done.
  - by rewrite Hm.
  - destruct (first_absent h (VRef l) fields); cbn; by rewrite ?Hm, ?Hc.
Qed.

Lemma walk_loop_verdict context h fuel : ∀ stack s1 s2 s1',
  v_complete s1 = v_complete s2 →
  v_missingFields s1 = v_missingFields s2 →
  walk_loop h (visit context h) fuel stack s1 = Some s1' →
  ∃ s2',
    walk_loop h (visit context h) fuel stack s2 = Some s2'
    ∧ v_complete s1' = v_complete s2'
    ∧ v_missingFields s1' = v_missingFields s2'.
Proof.
  induction fuel as [|fuel IH]; intros stack s1 s2 s1' Hc Hm Hrun.
  - destruct stack; [|done]. injection Hrun as <-. by exists s2.
  - destruct stack as [|node stack]; [injection Hrun as <-; by exists s2|].
    rewrite walk_loop_step in Hrun. rewrite walk_loop_step.
    rewrite walk_step_eq in Hrun. rewrite walk_step_eq.
    destruct (isNull (parent node)); [by eapply IH|].
    destruct (as_array h (parent node)); [by eapply IH|].
    destruct (map _ (parsedOperation node)) as [|f fs]; [by eapply IH|].
    destruct (visit_verdict context h (parent node) (f :: fs)
                (parentSelection node) s1 s2 Hc Hm) as (Hstop & Hc' & Hm').
    rewrite <- Hstop.
    destruct (visit context h (parent node) (f :: fs) (parentSelection node)
                    s1).1; by eapply IH.
Qed.

(** X7.  Whether node ids are asked for or not, and whatever set they are
    added to, the completeness check comes to the same verdict and reports the
    same fields missing. *)
Theorem visitSelection_verdict_whatever_the_node_ids
        (fuel : nat) (query : OperationInstance) (context : CacheContext)
        (h : Heap) (result : val) (nodeIds nodeIds' : option (gset NodeId))
        (s : VisitState) :
  _visitSelection fuel query context h result nodeIds = Some s →
  ∃ s',
    _visitSelection fuel query context h result nodeIds' = Some s'
    ∧ v_complete s' = v_complete s
    ∧ v_missingFields s' = v_missingFields s.
Proof.
  unfold _visitSelection, walkOperation. intros Hrun.
  match goal with
  | |- ∃ _, walk_loop _ _ _ _ ?start = _ ∧ _ =>
      apply (walk_loop_verdict context h fuel _ _ start) in Hrun
        as (s' & Hrun' & Hc & Hm); [|done..]
  end.
  exists s'. split; [exact Hrun'|]. by split.
Qed.

(** ** What the partitioner keeps *)

Lemma Within_nil s : ¬ Within [] s.
Proof. inversion 1 as [? ? Hin|? ? ? ? ? ? ? ? Hin]; by apply elem_of_nil in Hin. Qed.

Lemma Within_mono ss ss' s : ss ⊆ ss' → Within ss s → Within ss' s.
Proof.
  intros Hsub Hw. destruct Hw as [? ? Hin|? r a n ar ds sub ? Hin Hs].
  - apply Within_here. by apply Hsub.
  - eapply Within_below; [|exact Hs]. by apply Hsub.
Qed.

Lemma Reached_mono shouldInclude variables ss ss' s :
  ss ⊆ ss' →
  Reached shouldInclude variables ss s → Reached shouldInclude variables ss' s.
Proof.
  intros Hsub Hr.
  destruct Hr as [? ? Hin Hf Hi|? r a n ar ds sub ? Hin Hi Hs].
  - apply Reached_here; [by apply Hsub|done..].
  - eapply Reached_below; [|exact Hi|exact Hs]. by apply Hsub.
Qed.

Lemma Reached_Within shouldInclude variables ss s :
  Reached shouldInclude variables ss s → Within ss s.
Proof.
  induction 1 as [? ? Hin _ _|? r a n ar ds sub ? Hin _ _ IH].
  - by apply Within_here.
  - by eapply Within_below.
Qed.

Section PartitionerKeeps.
Variable shouldInclude : SelectionNode → Variables → bool.

Lemma findMissingSelectionSets_elem variables fields ss x :
  x ∈ findMissingSelectionSets shouldInclude ss variables fields
  ↔ ∃ s, s ∈ ss ∧ x ∈ missingSelection shouldInclude variables fields s.
Proof.
  induction ss as [|s0 ss IH].
  - split; [by intros ?%elem_of_nil|]. by intros (s & ?%elem_of_nil & _).
  - rewrite findMissingSelectionSets_cons, elem_of_app, IH. split.
    + intros [Hx|(s & Hin & Hx)].
      * exists s0. split; [apply list_elem_of_here|done].
      * exists s. split; [by apply list_elem_of_further|done].
    + intros (s & [->|Hin]%elem_of_cons & Hx); [by left|].
      right. by exists s.
Qed.

(** What the partitioner makes of one selection: nothing, the selection as
    it stands, or a copy of the field around what it makes of its selection
    set. *)
Lemma missingSelection_cases variables fields s :
  missingSelection shouldInclude variables fields s = []
  ∨ (missingSelection shouldInclude variables fields s = [s]
     ∧ isField s = true
     ∧ shouldInclude s variables = true
     ∧ listed fields s = true)
  ∨ (∃ r a n ar ds sub,
       s = Field r a n ar ds (Some sub)
       ∧ shouldInclude s variables = true
       ∧ listed fields s = false
       ∧ findMissingSelectionSets shouldInclude sub variables fields ≠ []
       ∧ missingSelection shouldInclude variables fields s
         = [Field r a n ar ds
                  (Some (findMissingSelectionSets shouldInclude sub
                                                  variables fields))]).
Proof.
  rewrite missingSelection_eq.
  destruct (shouldInclude s variables) eqn:Hinclude; cbn [negb]; [|by left].
  destruct s as [r a n ar ds [sub|]| |]; try by left.
  - destruct (listed fields _) eqn:Hlisted; [by right; left|].
    destruct (findMissingSelectionSets shouldInclude sub variables fields)
      as [|k kept] eqn:Hkept; [by left|].
    right. right. exists r, a, n, ar, ds, sub. by rewrite Hkept.
  - destruct (listed fields _) eqn:Hlisted; [by right; left|by left].
Qed.

(** X8.  No missing field is lost: a field that is listed as missing and that
    the partitioner comes to is in the selection set it returns, at the place
    it has in the query or within the field above it that was kept whole. *)
Theorem findMissingSelectionSets_keeps_every_missing_field
        (variables : Variables) (fields : list SelectionNode)
        (selectionSet : SelectionSetNode) (field : SelectionNode) :
  Reached shouldInclude variables selectionSet field →
  listed fields field = true →
  Within (findMissingSelectionSets shouldInclude selectionSet variables fields)
         field.
Proof.
  intros Hreached Hlisted.
  induction Hreached as [ss s Hin Hfield Hinclude
                        |ss r a n ar ds sub s Hin Hinclude Hreached IH].
  - apply Within_here, findMissingSelectionSets_elem. exists s.
    split; [done|].
    destruct (missingSelection_cases variables fields s)
      as [Hnone|[(-> & _)|(r & a & n & ar & ds & sub & _ & _ & Hnot & _)]].
    + rewrite missingSelection_eq, Hinclude in Hnone. cbn [negb] in Hnone.
      destruct s as [r a n ar ds [sub|]| |]; try done;
        rewrite Hlisted in Hnone; done.
    + apply list_elem_of_here.
    + congruence.
  - specialize (IH Hlisted).
    destruct (missingSelection_cases variables fields
                (Field r a n ar ds (Some sub)))
      as [Hnone|[(Hwhole & _)|(r' & a' & n' & ar' & ds' & sub' & [= <- <- <- <- <- <-]
                               & _ & _ & _ & Hcopy)]].
    + revert Hnone. rewrite missingSelection_eq, Hinclude. cbn [negb].
      destruct (listed fields (Field r a n ar ds (Some sub)));
        [by intros [=]|].
      destruct (findMissingSelectionSets shouldInclude sub variables fields)
        eqn:Hkept; [|by intros [=]].
      by apply Within_nil in IH.
    + eapply Within_below; [|by eapply Reached_Within].
      apply findMissingSelectionSets_elem. eexists. split; [exact Hin|].
      rewrite Hwhole. apply list_elem_of_here.
    + eapply Within_below; [|exact IH].
      apply findMissingSelectionSets_elem. eexists. split; [exact Hin|].
      rewrite Hcopy. apply list_elem_of_here.
Qed.

Lemma findMissingSelectionSets_pruned_all variables fields ss :
  Forall (λ s, ∀ r a n ar ds sub,
            s = Field r a n ar ds (Some sub) →
            Pruned sub (findMissingSelectionSets shouldInclude sub
                                                 variables fields)) ss →
  Pruned ss (findMissingSelectionSets shouldInclude ss variables fields).
Proof.
  induction 1 as [|s ss Hs _ IH]; [constructor|].
  rewrite findMissingSelectionSets_cons.
  destruct (missingSelection_cases variables fields s)
    as [->|[(-> & _)|(r & a & n & ar & ds & sub & -> & _ & _ & _ & ->)]];
    cbn [app].
  - by apply Pruned_drop.
  - by apply Pruned_keep.
  - apply Pruned_trim; [|done]. by eapply Hs.
Qed.

(** X9.  The selection set the partitioner returns is the one it was given
    with selections dropped and selection sets cut down: every selection kept
    is one of the query, under the field it was under and in the order of the
    query. *)
Theorem findMissingSelectionSets_prunes_the_query
        (variables : Variables) (fields : list SelectionNode)
        (selectionSet : SelectionSetNode) :
  Pruned selectionSet
         (findMissingSelectionSets shouldInclude selectionSet variables fields).
Proof.
  apply findMissingSelectionSets_pruned_all.
  induction selectionSet as [|s ss IH]; [constructor|].
  apply List.Forall_cons; [|done]. clear IH.
  induction s as [r a n ar ds|r a n ar ds sub IH| |] using selection_ind;
    try done.
  intros ? ? ? ? ? ? [= <- <- <- <- <- <-].
  by apply findMissingSelectionSets_pruned_all.
Qed.

Lemma missingSelection_leads_to_missing variables fields s :
  ∀ kept,
    kept ∈ missingSelection shouldInclude variables fields s →
    ∃ field,
      listed fields field = true
      ∧ Within [kept] field
      ∧ Reached shouldInclude variables [s] field.
Proof.
  induction s as [r a n ar ds|r a n ar ds sub IH| |] using selection_ind;
    intros kept Hkept.
  - destruct (missingSelection_cases variables fields (Field r a n ar ds None))
      as [Hnone|[(Hwhole & Hf & Hi & Hl)|(? & ? & ? & ? & ? & ? & [=] & _)]].
    + rewrite Hnone in Hkept. by apply elem_of_nil in Hkept.
    + rewrite Hwhole in Hkept. apply list_elem_of_singleton in Hkept as ->.
      eexists. split; [exact Hl|].
      split; [apply Within_here|apply Reached_here; [|done..]];
        apply list_elem_of_here.
  - destruct (missingSelection_cases variables fields
                (Field r a n ar ds (Some sub)))
      as [Hnone|[(Hwhole & Hf & Hi & Hl)
                |(r' & a' & n' & ar' & ds' & sub' & [= <- <- <- <- <- <-]
                  & Hi & _ & Hsome & Hcopy)]].
    + rewrite Hnone in Hkept. by apply elem_of_nil in Hkept.
    + rewrite Hwhole in Hkept. apply list_elem_of_singleton in Hkept as ->.
      eexists. split; [exact Hl|].
      split; [apply Within_here|apply Reached_here; [|done..]];
        apply list_elem_of_here.
    + rewrite Hcopy in Hkept. apply list_elem_of_singleton in Hkept as ->.
      destruct (findMissingSelectionSets shouldInclude sub variables fields)
        as [|k0 ks] eqn:Hsub; [done|].
      assert (k0 ∈ findMissingSelectionSets shouldInclude sub variables fields)
        as Hk0 by (rewrite Hsub; apply list_elem_of_here).
      apply findMissingSelectionSets_elem in Hk0 as (s0 & Hs0 & Hk0).
      rewrite Forall_forall in IH.
      destruct (IH s0 Hs0 k0 Hk0) as (field & Hl & Hw & Hr).
      exists field. split; [done|]. split.
      * eapply Within_below; [apply list_elem_of_here|].
        eapply Within_mono; [|exact Hw].
        intros x ->%list_elem_of_singleton. apply list_elem_of_here.
      * eapply Reached_below; [apply list_elem_of_here|exact Hi|].
        eapply Reached_mono; [|exact Hr].
        by intros x ->%list_elem_of_singleton.
  - rewrite missingSelection_eq in Hkept.
    destruct (negb _) in Hkept; by apply elem_of_nil in Hkept.
  - rewrite missingSelection_eq in Hkept.
    destruct (negb _) in Hkept; by apply elem_of_nil in Hkept.
Qed.

(** X10.  Nothing is kept in vain: every selection of the selection set the
    partitioner returns is, or holds further down, a field that is listed as
    missing and that the partitioner came to in the query. *)
Theorem findMissingSelectionSets_keeps_missing_fields_only
        (variables : Variables) (fields : list SelectionNode)
        (selectionSet : SelectionSetNode) (kept : SelectionNode) :
  kept ∈ findMissingSelectionSets shouldInclude selectionSet variables fields →
  ∃ field,
    listed fields field = true
    ∧ Within [kept] field
    ∧ Reached shouldInclude variables selectionSet field.
Proof.
  intros (s & Hs & Hkept)%findMissingSelectionSets_elem.
  destruct (missingSelection_leads_to_missing variables fields s kept Hkept)
    as (field & Hl & Hw & Hr).
  exists field. split; [done|]. split; [done|].
  eapply Reached_mono; [|exact Hr].
  by intros x ->%list_elem_of_singleton.
Qed.
End PartitionerKeeps.

(** ** More on the overlay *)


Section OverlayRuns.
Variable nodeIdForParameterizedValue :
  NodeId → list PathPart → FieldArguments → NodeId.
Variable QueryRoot : NodeId.

Local Abbreviation overlayField :=
  (overlayField nodeIdForParameterizedValue QueryRoot).
Local Abbreviation overlayFields :=
  (overlayFields nodeIdForParameterizedValue QueryRoot).
Local Abbreviation overlayNode :=
  (overlayNode nodeIdForParameterizedValue QueryRoot).
Local Abbreviation overlayLoop :=
  (overlayLoop nodeIdForParameterizedValue QueryRoot).
Local Abbreviation resolveParameterized :=
  (resolveParameterized nodeIdForParameterizedValue QueryRoot).
Local Abbreviation overlay :=
  (_walkAndOverlayDynamicValues nodeIdForParameterizedValue QueryRoot).

(** X12.  Whatever it is handed, the overlay comes to an end: from some number
    of turns on it has finished or thrown, with one and the same outcome and
    returned value. *)
Theorem overlay_comes_to_an_end
        (query : OperationInstance) (context : CacheContext)
        (snapshot : GraphSnapshot) (h : Heap) (result : val)
        (dynamicNodeIds : gset NodeId) :
  ∃ enough o newResult,
    (∀ fuel, enough ≤ fuel →
             overlay fuel query context snapshot h result dynamicNodeIds
             = (o, newResult))
    ∧ match o with OutOfFuel _ => False | _ => True end.
Proof.
  unfold _walkAndOverlayDynamicValues.
  destruct (getNodeSnapshot snapshot (rootId query)) as [rootSnapshot|].
  - destruct (_wrapValue result context h) as [newResult h1].
    destruct (overlayLoop_terminates nodeIdForParameterizedValue QueryRoot
                context snapshot
                {| o_heap := h1;
                   o_queue := [ {| ow_value := newResult;
                                   containerId := rootId query;
                                   parsedMap := parsedQuery query;
                                   path := [] |} ];
                   o_dynamicNodeIds := dynamicNodeIds |})
      as (enough & o & Hrun & Ho).
    exists enough, o, newResult. split; [|done].
    intros fuel Hfuel. by rewrite Hrun.
  - by exists 0, (Finished {| o_heap := h; o_queue := [];
                            o_dynamicNodeIds := dynamicNodeIds |}), result.
Qed.

(** *** The ids the overlay notes *)

Lemma resolveParameterized_snapshot context snapshot h value cid path
      fieldName nodeArgs childId childSnapshot :
  resolveParameterized context snapshot h value cid path fieldName nodeArgs
  = Some (Some (childId, childSnapshot)) →
  getNodeSnapshot snapshot childId = Some childSnapshot.
Proof.
  unfold resolveParameterized.
  destruct (getNodeSnapshot snapshot
              (nodeIdForParameterizedValue cid (path ++ [PKey fieldName])
                                           nodeArgs)) as [own|] eqn:Hown.
  { by intros [= <- <-]. }
  destruct (js_read h value "__typename") as [typeName|]; [|done].
  destruct (resolverRedirects context _ _) as [redirect|]; [|done].
  destruct (redirect nodeArgs) as [redirected|]; [|done].
  destruct (getNodeSnapshot snapshot redirected) as [cs|] eqn:Hcs; [|done].
  by intros [= <- <-].
Qed.

Lemma linkChild_dynamicNodeIds context value key node child cid nextPath st :
  o_dynamicNodeIds
    (state_of (linkChild context value key node child cid nextPath st))
  = o_dynamicNodeIds st.
Proof.
  unfold linkChild.
  destruct (descend _ _ _ _ _ _ _) as [[child' h'] queue'].
  by destruct (js_write h' value key child').
Qed.

Lemma overlayField_noted context snapshot value cid path key node st id :
  id ∈ o_dynamicNodeIds
         (state_of (overlayField context snapshot value cid path key node st)) →
  id ∈ o_dynamicNodeIds st ∨ is_Some (getNodeSnapshot snapshot id).
Proof.
  unfold overlayField. destruct (args node) as [nodeArgs|].
  - destruct (resolveParameterized _ _ _ _ _ _ _ _)
      as [[[childId childSnapshot]|]|] eqn:Hresolve; try by left.
    rewrite linkChild_dynamicNodeIds. cbn [o_dynamicNodeIds].
    intros [->%elem_of_singleton|Hin]%elem_of_union; [|by left].
    right. apply resolveParameterized_snapshot in Hresolve. by eexists.
  - destruct (js_read _ _ _); [|by left].
    rewrite linkChild_dynamicNodeIds. by left.
Qed.

Lemma overlayFields_noted context snapshot value cid path fields id : ∀ st,
  id ∈ o_dynamicNodeIds
         (state_of (overlayFields context snapshot value cid path fields st)) →
  id ∈ o_dynamicNodeIds st ∨ is_Some (getNodeSnapshot snapshot id).
Proof.
  induction fields as [|[key node] fields IH]; intros st; [by left|].
  cbn [overlayFields].
  pose proof (overlayField_noted context snapshot value cid path key node st id)
    as Hfield.
  destruct (overlayField _ _ _ _ _ _ _ _) as [st'|st']; cbn [state_of] in *.
  - intros [Hin|Hin]%IH; [by apply Hfield|by right].
  - done.
Qed.

Lemma overlayLoop_noted context snapshot id fuel : ∀ st,
  id ∈ o_dynamicNodeIds (final_state (overlayLoop fuel context snapshot st)) →
  id ∈ o_dynamicNodeIds st ∨ is_Some (getNodeSnapshot snapshot id).
Proof.
  induction fuel as [|fuel IH]; intros st.
  - cbn. destruct (o_queue st); by left.
  - cbn [overlayLoop].
    destruct (o_queue st) as [|walkNode rest] eqn:Hq; [by left|].
    unfold overlayNode. destruct (containerOf _ _ _) as [cid p].
    cbn [o_heap].
    pose proof (overlayFields_noted context snapshot (ow_value walkNode) cid p
                  (parsedMap walkNode) id
                  {| o_heap := o_heap st; o_queue := rest;
                     o_dynamicNodeIds := o_dynamicNodeIds st |}) as Hfields.
    destruct (overlayFields _ _ _ _ _ _ _) as [st'|st'];
      cbn [state_of final_state o_dynamicNodeIds] in *.
    + intros [Hin|Hin]%IH; [by apply Hfields|by right].
    + done.
Qed.

(** X13.  The set of dynamic ids the overlay leaves, however it ends: the ids
    it was handed are all there, and every other one is the id of a node the
    snapshot holds. *)
Theorem overlay_notes_nodes_of_the_snapshot
        (fuel : nat) (query : OperationInstance) (context : CacheContext)
        (snapshot : GraphSnapshot) (h : Heap) (result : val)
        (dynamicNodeIds : gset NodeId) :
  let noted :=
    o_dynamicNodeIds
      (final_state
         (overlay fuel query context snapshot h result dynamicNodeIds).1) in
  dynamicNodeIds ⊆ noted
  ∧ ∀ id, id ∈ noted →
          id ∈ dynamicNodeIds ∨ is_Some (getNodeSnapshot snapshot id).
Proof.
  unfold _walkAndOverlayDynamicValues.
  destruct (getNodeSnapshot snapshot (rootId query)) as [rootSnapshot|];
    [|cbn; split; [done|by left]].
  destruct (_wrapValue result context h) as [newResult h1]. cbn [fst].
  split.
  - apply (overlayLoop_dynamicNodeIds nodeIdForParameterizedValue QueryRoot
             context snapshot fuel
             {| o_heap := h1;
                o_queue := [ {| ow_value := newResult;
                                containerId := rootId query;
                                parsedMap := parsedQuery query; path := [] |} ];
                o_dynamicNodeIds := dynamicNodeIds |}).
  - intros id Hid. by apply overlayLoop_noted in Hid.
Qed.

(** *** Fields without arguments *)

Lemma has_prop_lookup h h' l k :
  h' !! l = h !! l → has_prop h' l k = has_prop h l k.
Proof. intros H. unfold has_prop. by rewrite (deref_lookup _ _ _ H). Qed.

Lemma has_prop_write_prop_eq h t k c :
  t < List.length h → has_prop (write_prop h t k c) t k = true.
Proof.
  intros Ht. unfold has_prop, write_prop, deref at 1.
  rewrite list_lookup_insert_eq by done. simpl.
  by rewrite cell_props_set, assoc_assoc_set_eq.
Qed.

Lemma has_prop_write_prop_ne h t k c k' :
  k' ≠ k → has_prop (write_prop h t k c) t k' = has_prop h t k'.
Proof.
  intros Hne. destruct (decide (t < List.length h)) as [Ht|Ht].
  - unfold has_prop, write_prop, deref at 1.
    rewrite list_lookup_insert_eq by done. simpl.
    by rewrite cell_props_set, assoc_assoc_set_ne.
  - unfold write_prop. rewrite list_insert_ge by lia. done.
Qed.

(** The tail of the loop body defines the response key on the object, and
    no other key. *)
Lemma linkChild_has_prop context t key node child cid nextPath st :
  t < List.length (o_heap st) →
  ∃ st',
    linkChild context (VRef t) key node child cid nextPath st = Next st'
    ∧ has_prop (o_heap st') t key = true
    ∧ ∀ k, k ≠ key → has_prop (o_heap st') t k = has_prop (o_heap st) t k.
Proof.
  intros Ht. unfold linkChild.
  destruct (descend _ _ _ _ _ _ _) as [[child' h'] queue'] eqn:Hd.
  apply descend_effect in Hd as ([ext ->] & _).
  cbn [js_write]. eexists. split; [done|]. cbn [o_heap]. split.
  - apply has_prop_write_prop_eq. rewrite length_app. lia.
  - intros k Hk. rewrite has_prop_write_prop_ne by done.
    apply has_prop_lookup. by apply lookup_app_l.
Qed.

Lemma overlayField_has_prop context snapshot t cid path key node st k :
  t < List.length (o_heap st) →
  k ≠ key →
  has_prop (o_heap (state_of (overlayField context snapshot (VRef t) cid path
                                           key node st))) t k
  = has_prop (o_heap st) t k.
Proof.
  intros Ht Hk. unfold overlayField. destruct (args node) as [nodeArgs|].
  - destruct (resolveParameterized _ _ _ _ _ _ _ _)
      as [[[childId childSnapshot]|]|]; try done.
    destruct (linkChild_has_prop context t key node (data childSnapshot)
                childId []
                {| o_heap := o_heap st; o_queue := o_queue st;
                   o_dynamicNodeIds := {[childId]} ∪ o_dynamicNodeIds st |} Ht)
      as (st' & -> & _ & Hother).
    by apply Hother.
  - cbn [js_read].
    destruct (linkChild_has_prop context t key node
                (read_prop (o_heap st) t (fieldNameOf key node)) cid
                (path ++ [PKey (fieldNameOf key node)]) st Ht)
      as (st' & -> & _ & Hother).
    by apply Hother.
Qed.

Lemma overlayFields_has_prop context snapshot t cid path fields k : ∀ st,
  t < List.length (o_heap st) →
  k ∉ map fst fields →
  has_prop (o_heap (state_of (overlayFields context snapshot (VRef t) cid path
                                            fields st))) t k
  = has_prop (o_heap st) t k.
Proof.
  induction fields as [|[key node] fields IH]; intros st Ht Hk; [done|].
  cbn [overlayFields]. cbn [map fst] in Hk.
  apply not_elem_of_cons in Hk as [Hne Hk].
  pose proof (overlayField_has_prop context snapshot t cid path key node st k
                Ht Hne) as Hfield.
  pose proof (overlayField_effect nodeIdForParameterizedValue QueryRoot
                context snapshot (VRef t) cid path key node st) as (Hlen & _).
  destruct (overlayField _ _ _ _ _ _ _ _) as [st'|st']; cbn [state_of] in *.
  - rewrite IH by (done || lia). done.
  - done.
Qed.

(** The loop body on a field without arguments, in a walk node whose value
    is an object. *)
Lemma overlayField_plain context snapshot v cid path key node st :
  args node = None →
  v < List.length (o_heap st) →
  ∃ st',
    overlayField context snapshot (VRef v) cid path key node st = Next st'
    ∧ has_prop (o_heap st') v key = true
    ∧ read_prop (o_heap st') v key
      = if descends node (read_prop (o_heap st) v (fieldNameOf key node))
           && isCopied (read_prop (o_heap st) v (fieldNameOf key node))
        then VRef (List.length (o_heap st))
        else read_prop (o_heap st) v (fieldNameOf key node).
Proof.
  intros Hargs Hv. unfold overlayField. rewrite Hargs. cbn [js_read].
  unfold linkChild.
  destruct (descend _ _ _ _ _ _ _) as [[child' h'] queue'] eqn:Hd.
  apply descend_effect in Hd as ([ext ->] & _ & Hleaf & Hscalar & Hcopy).
  cbn [js_write]. eexists. split; [done|]. cbn [o_heap].
  split; [apply has_prop_write_prop_eq; rewrite length_app; lia|].
  rewrite read_prop_write_prop_eq by (rewrite length_app; lia).
  destruct (descends node _) eqn:Hdesc; cbn [andb]; [|by apply Hleaf].
  destruct (read_prop (o_heap st) v (fieldNameOf key node))
    as [| | b | n | s | l] eqn:Hchild; cbn [isCopied];
    try (by apply Hscalar); apply Hcopy; auto.
Qed.


(** *** The copy of the root *)

End OverlayRuns.

(** *** Arrays *)

Lemma elementNodes_app cid nodeChildren nextPath (front back : list val) : ∀ i,
  elementNodes cid nodeChildren nextPath i (front ++ back)
  = elementNodes cid nodeChildren nextPath i front
      ++ elementNodes cid nodeChildren nextPath (i + List.length front) back.
Proof.
  induction front as [|e front IH]; intros i; cbn [app elementNodes List.length].
  - by rewrite Nat.add_0_r.
  - rewrite IH, <- app_assoc. do 3 f_equal. lia.
Qed.

(** The loop over the copy of an array, from index [n - 1] down: each element
    below [n] is wrapped in place, the elements from [n] on are as they
    were, and the walk nodes of the wrapped elements are on top of the
    queue. *)
Lemma wrapElements_spec context child cid nodeChildren nextPath props base :
  ∀ n h queue elems,
    base ≤ List.length h →
    h !! child = Some (Arr elems props) →
    n ≤ List.length elems →
    ∃ h' elems',
      wrapElements context child cid nodeChildren nextPath n h queue
      = (h', elementNodes cid nodeChildren nextPath 0 (take n elems') ++ queue)
      ∧ h' !! child = Some (Arr elems' props)
      ∧ drop n elems' = drop n elems
      ∧ Forall2 (wrappedAs base) (take n elems) (take n elems')
      ∧ List.length h ≤ List.length h'.
Proof.
  induction n as [|i IH]; intros h queue elems Hbase Hchild Hn.
  { exists h, elems. rewrite !take_0. by repeat split. }
  assert (child < List.length h) as Hlt by by eapply lookup_lt_Some.
  destruct (lookup_lt_is_Some_2 elems i ltac:(lia)) as [e He].
  assert (read_elem h child i = e) as Hread.
  { unfold read_elem, deref. by rewrite Hchild; cbn; rewrite He. }
  rewrite wrapElements_S, Hread.
  destruct (isNull e) eqn:Hnull.
  - (* [null]: left where it is *)
    destruct (IH h queue elems Hbase Hchild ltac:(lia))
      as (h' & elems' & Hrun & Hchild' & Hdrop & Hwrapped & Hlen).
    assert (elems' !! i = Some e) as He'.
    { rewrite <- (Nat.add_0_r i), <- lookup_drop, Hdrop, lookup_drop.
      by rewrite Nat.add_0_r. }
    exists h', elems'. rewrite Hrun.
    rewrite (take_S_r elems' i e He'), (take_S_r elems i e He).
    rewrite elementNodes_app. cbn [elementNodes]. rewrite Hnull.
    rewrite !app_nil_r. split; [done|]. split; [done|]. split; [|split; [|done]].
    + rewrite (drop_S elems' e i He'), (drop_S elems e i He) in Hdrop.
      by injection Hdrop.
    + apply Forall2_app; [done|]. constructor; [|constructor].
      unfold wrappedAs. rewrite Hnull. by destruct e.
  - (* any other element: wrapped, written back and queued *)
    destruct (_wrapValue e context h) as [e' h1] eqn:Hwrap.
    apply wrapValue_effect in Hwrap
      as ([ext ->] & Hfresh & Hnil & Hcopy & Hsame).
    assert (write_elem (h ++ ext) child i e'
            = <[child := Arr (<[i := e']> elems) props]> (h ++ ext)) as ->.
    { unfold write_elem. rewrite deref_app by done. unfold deref.
      by rewrite Hchild. }
    destruct (IH (<[child := Arr (<[i := e']> elems) props]> (h ++ ext))
                 ({| ow_value := e'; containerId := cid;
                     parsedMap := nodeChildren;
                     path := nextPath ++ [PIdx i] |} :: queue)
                 (<[i := e']> elems))
      as (h' & elems' & Hrun & Hchild' & Hdrop & Hwrapped & Hlen).
    { rewrite length_insert, length_app. lia. }
    { apply list_lookup_insert_eq. rewrite length_app. lia. }
    { rewrite length_insert. lia. }
    rewrite length_insert, length_app in Hlen.
    assert (drop i (<[i := e']> elems) = e' :: drop (S i) elems) as Hdrop_i.
    { rewrite (drop_S _ e' i) by (apply list_lookup_insert_eq; lia).
      by rewrite drop_insert_lt by lia. }
    rewrite Hdrop_i in Hdrop.
    assert (elems' !! i = Some e') as He'.
    { rewrite <- (Nat.add_0_r i), <- lookup_drop. by rewrite Hdrop. }
    assert (List.length (take i elems') = i) as Hi.
    { rewrite length_take. apply lookup_lt_Some in He'. lia. }
    exists h', elems'. rewrite Hrun.
    rewrite (take_S_r elems' i e' He'), (take_S_r elems i e He).
    rewrite elementNodes_app. cbn [elementNodes Nat.add]. rewrite Hi.
    assert (isNull e' = false) as -> by
      (specialize (Hnil Hnull); by destruct e').
    rewrite app_nil_r, <- app_assoc. cbn [app].
    split; [done|]. split; [done|]. split; [|split; [|lia]].
    + rewrite (drop_S elems' e' i He') in Hdrop. by injection Hdrop.
    + apply Forall2_app.
      * by rewrite take_insert_ge in Hwrapped by lia.
      * constructor; [|constructor]. unfold wrappedAs. rewrite Hnull.
        destruct (isCopied e) eqn:Hcopied.
        -- exists (List.length h). split; [|done].
           apply Hcopy. destruct e; auto; done.
        -- apply Hsame; by destruct e.
Qed.


(** *** Redirects *)

Section OverlayRedirects.
Variable nodeIdForParameterizedValue :
  NodeId → list PathPart → FieldArguments → NodeId.
Variable QueryRoot : NodeId.

Local Abbreviation overlayField :=
  (overlayField nodeIdForParameterizedValue QueryRoot).

End OverlayRedirects.

(** *** Parameterized fields that resolve *)

Lemma app_self_nil {A} (p q : list A) : q = p ++ q → p = [].
Proof.
  intros Heq. apply (f_equal List.length) in Heq.
  rewrite length_app in Heq. destruct p; [done|]. cbn in Heq. lia.
Qed.

Lemma refers_lookup h h' a b :
  h' !! a = h !! a → refers h a b → refers h' a b.
Proof.
  intros Hcell [[key Hkey]|(elems & Harr & Hin)].
  - left. exists key. by rewrite (read_prop_lookup _ _ _ _ Hcell).
  - right. exists elems. split; [|done].
    unfold as_array in *. by rewrite (deref_lookup _ _ _ Hcell).
Qed.

Lemma elementNodes_elem cid nodeChildren nextPath w elems : ∀ i,
  w ∈ elementNodes cid nodeChildren nextPath i elems →
  ow_value w ∈ elems.
Proof.
  induction elems as [|e elems IH]; intros i; cbn [elementNodes].
  { by intros ?%elem_of_nil. }
  intros [Hw|Hw]%elem_of_app.
  - destruct (isNull e); [by apply elem_of_nil in Hw|].
    apply list_elem_of_singleton in Hw as ->. apply list_elem_of_here.
  - apply list_elem_of_further. by eapply IH.
Qed.

Lemma wrappedAs_ref base e x : wrappedAs base e (VRef x) → base ≤ x.
Proof.
  unfold wrappedAs. destruct (isNull e); [done|].
  destruct (isCopied e) eqn:Hcopied.
  - by intros (l & [= ->] & Hl).
  - intros <-. done.
Qed.

(** The walk nodes [descend] queues point to the copy it hands back, or,
    where that is the copy of an array, to elements of it. *)
Lemma descend_links context node child cid nextPath h queue child' h' queue' :
  descend context node child cid nextPath h queue = (child', h', queue') →
  ∃ pushed,
    queue' = pushed ++ queue
    ∧ List.length h ≤ List.length h'
    ∧ ∀ w x, w ∈ pushed → ow_value w = VRef x →
        List.length h ≤ x < List.length h'
        ∧ (child' = VRef x
           ∨ ∃ elems,
               child' = VRef (List.length h)
               ∧ List.length h < List.length h'
               ∧ as_array h' (VRef (List.length h)) = Some elems
               ∧ VRef x ∈ elems
               ∧ ∀ w', w' ∈ pushed → ow_value w' ≠ VRef (List.length h)).
Proof.
  intros Hd.
  destruct (descend_effect _ _ _ _ _ _ _ _ _ _ Hd)
    as ([ext Hext] & (pushed & Hq & Hpushed & _) & _).
  exists pushed. split; [done|]. split; [rewrite Hext, length_app; lia|].
  assert (∀ w x, w ∈ pushed → ow_value w = VRef x →
                 List.length h ≤ x < List.length h') as Hbounds.
  { intros w x Hw Hx. rewrite Forall_forall in Hpushed.
    destruct (Hpushed w Hw) as (c & _ & Hb & _). by apply Hb. }
  intros w x Hw Hx. split; [by eapply Hbounds|].
  unfold descend in Hd.
  destruct (children node) as [nodeChildren|]; last first.
  { injection Hd as <- <- <-. apply app_self_nil in Hq as ->.
    by apply elem_of_nil in Hw. }
  destruct (hasParameterizedChildren node && negb (isNull child)) eqn:Hgo;
    last first.
  { injection Hd as <- <- <-. apply app_self_nil in Hq as ->.
    by apply elem_of_nil in Hw. }
  destruct (as_array h child) as [elems|] eqn:Harr.
  - unfold alloc in Hd.
    destruct (wrapElements_spec context (List.length h) cid nodeChildren
                nextPath [] (S (List.length h)) (List.length elems)
                (h ++ [Arr elems []]) queue elems)
      as (h2 & elems' & Hrun & Hchild' & Hdrop & Hwrapped & Hlen).
    { rewrite length_app. cbn. lia. }
    { by rewrite list_lookup_middle. }
    { done. }
    rewrite drop_all in Hdrop. rewrite firstn_all in Hwrapped.
    assert (take (List.length elems) elems' = elems') as Htake.
    { rewrite <- (take_drop (List.length elems) elems') at 2.
      by rewrite Hdrop, app_nil_r. }
    rewrite Htake in Hrun, Hwrapped. rewrite Hrun in Hd.
    injection Hd as <- <- Hq'. rewrite Hq in Hq'.
    apply app_inv_tail in Hq' as Hpushed'.
    assert (∀ w' x', w' ∈ pushed → ow_value w' = VRef x' →
                     VRef x' ∈ elems' ∧ S (List.length h) ≤ x') as Helems.
    { intros w' x' Hw' Hx'. rewrite <- Hpushed' in Hw'.
      apply elementNodes_elem in Hw'. rewrite Hx' in Hw'.
      split; [done|].
      apply list_elem_of_lookup in Hw' as [i Hi].
      destruct (Forall2_lookup_r _ _ _ _ _ Hwrapped Hi) as (e & _ & He).
      by eapply wrappedAs_ref. }
    right. exists elems'. split; [done|].
    rewrite length_app in Hlen. cbn in Hlen.
    split; [lia|]. split.
    { unfold as_array, deref. by rewrite Hchild'. }
    split; [by eapply Helems|].
    intros w' Hw' Heq. apply (Helems w' _ Hw') in Heq. lia.
  - destruct (_wrapValue child context h) as [c1 h1] eqn:Hwrap.
    injection Hd as <- <- Hq'. rewrite Hq in Hq'.
    change (?a :: queue) with ([a] ++ queue) in Hq'.
    apply app_inv_tail in Hq'. subst pushed.
    apply list_elem_of_singleton in Hw as ->. cbn in Hx. by left.
Qed.

Section OverlayResolves.
Variable nodeIdForParameterizedValue :
  NodeId → list PathPart → FieldArguments → NodeId.
Variable QueryRoot : NodeId.

Local Abbreviation overlayField :=
  (overlayField nodeIdForParameterizedValue QueryRoot).
Local Abbreviation overlayFields :=
  (overlayFields nodeIdForParameterizedValue QueryRoot).
Local Abbreviation overlayNode :=
  (overlayNode nodeIdForParameterizedValue QueryRoot).
Local Abbreviation overlayLoop :=
  (overlayLoop nodeIdForParameterizedValue QueryRoot).
Local Abbreviation resolveParameterized :=
  (resolveParameterized nodeIdForParameterizedValue QueryRoot).
Local Abbreviation overlay :=
  (_walkAndOverlayDynamicValues nodeIdForParameterizedValue QueryRoot).
Local Abbreviation overlayComesTo :=
  (overlayComesTo nodeIdForParameterizedValue QueryRoot).

Lemma linkChild_links context v key node child cid nextPath st st' :
  v < List.length (o_heap st) →
  linkChild context (VRef v) key node child cid nextPath st = Next st' →
  List.length (o_heap st) ≤ List.length (o_heap st')
  ∧ ∃ pushed,
      o_queue st' = pushed ++ o_queue st
      ∧ linked (o_heap st') v [key] (List.length (o_heap st))
               (List.length (o_heap st')) pushed.
Proof.
  intros Hv. unfold linkChild.
  destruct (descend _ _ _ _ _ _ _) as [[child' h'] queue'] eqn:Hd.
  apply descend_links in Hd as (pushed & -> & Hlen & Hlinks).
  cbn [js_write]. intros [= <-]. cbn [o_heap o_queue].
  rewrite length_write_prop. split; [done|].
  exists pushed. split; [done|].
  intros w x Hw Hx. destruct (Hlinks w x Hw Hx) as [Hb Hlink].
  split; [done|]. exists key. split; [apply list_elem_of_here|].
  rewrite read_prop_write_prop_eq by lia.
  destruct Hlink as [->|(elems & -> & Hlt & Harr & Hin & Hapart)]; [by left|].
  right. exists (List.length (o_heap st)), elems.
  split; [done|]. split; [lia|]. split; [|done].
  unfold as_array in *.
  by rewrite (deref_lookup h') by (apply lookup_write_prop_ne; lia).
Qed.

Lemma overlayField_links context snapshot v cid path key node st st' :
  v < List.length (o_heap st) →
  overlayField context snapshot (VRef v) cid path key node st = Next st' →
  List.length (o_heap st) ≤ List.length (o_heap st')
  ∧ ∃ pushed,
      o_queue st' = pushed ++ o_queue st
      ∧ linked (o_heap st') v [key] (List.length (o_heap st))
               (List.length (o_heap st')) pushed.
Proof.
  intros Hv. unfold overlayField.
  assert (List.length (o_heap st) ≤ List.length (o_heap st)
          ∧ ∃ pushed,
              o_queue st = pushed ++ o_queue st
              ∧ linked (o_heap st) v [key] (List.length (o_heap st))
                       (List.length (o_heap st)) pushed) as Hnone.
  { split; [done|]. exists []. split; [done|].
    intros w x Hw. by apply elem_of_nil in Hw. }
  destruct (args node) as [nodeArgs|].
  - destruct (resolveParameterized _ _ _ _ _ _ _ _)
      as [[[childId childSnapshot]|]|]; [|by intros [= <-]|done].
    intros Hlink. by apply linkChild_links in Hlink.
  - cbn [js_read]. intros Hlink. by apply linkChild_links in Hlink.
Qed.

(** A turn of the loop on a walk node whose value is an object: every walk
    node it queues is referred to by the object under one of the node's
    keys, itself or through the copy of an array that no walk node points
    to. *)
Lemma overlayFields_links context snapshot v cid path : ∀ fields st st',
  v < List.length (o_heap st) →
  NoDup (map fst fields) →
  overlayFields context snapshot (VRef v) cid path fields st = Next st' →
  List.length (o_heap st) ≤ List.length (o_heap st')
  ∧ ∃ pushed,
      o_queue st' = pushed ++ o_queue st
      ∧ linked (o_heap st') v (map fst fields) (List.length (o_heap st))
               (List.length (o_heap st')) pushed.
Proof.
  induction fields as [|[key node] fields IH]; intros st st' Hv Hnodup.
  { intros [= <-]. split; [done|]. exists []. split; [done|].
    intros w x Hw. by apply elem_of_nil in Hw. }
  cbn [overlayFields map fst] in *.
  apply NoDup_cons in Hnodup as [Hkey Hnodup].
  destruct (overlayField context snapshot (VRef v) cid path key node st)
    as [stB|stB] eqn:Hfield; [|done].
  intros Hrest.
  apply overlayField_links in Hfield as (HlenB & pushedB & HqB & HlinkB);
    [|done].
  pose proof (overlayFields_effect nodeIdForParameterizedValue QueryRoot
                context snapshot (VRef v) cid path fields stB)
    as (_ & Hcell & Hprop & _).
  rewrite Hrest in Hcell, Hprop. cbn [state_of] in Hcell, Hprop.
  apply IH in Hrest as (HlenR & pushedR & HqR & HlinkR); [|lia|done].
  split; [lia|].
  exists (pushedR ++ pushedB). split; [by rewrite HqR, HqB, app_assoc|].
  intros w x [Hw|Hw]%elem_of_app Hx.
  - (* queued for a later field *)
    destruct (HlinkR w x Hw Hx) as (Hb & k & Hk & Hlink).
    split; [lia|]. exists k. split; [by apply list_elem_of_further|].
    destruct Hlink as [Hlink|(arr & elems & Hr & Harr & Ha & Hin & Hapart)];
      [by left|].
    right. exists arr, elems. split; [done|]. split; [lia|].
    split; [done|]. split; [done|].
    intros w' [Hw'|Hw']%elem_of_app Heq; [by eapply Hapart|].
    destruct (HlinkB w' arr Hw' Heq) as [Hb' _]. lia.
  - (* queued for this field *)
    destruct (HlinkB w x Hw Hx) as (Hb & k & Hk & Hlink).
    apply list_elem_of_singleton in Hk as ->.
    split; [lia|]. exists key. split; [apply list_elem_of_here|].
    rewrite (Hprop v key eq_refl ltac:(lia) Hkey).
    destruct Hlink as [Hlink|(arr & elems & Hr & Harr & Ha & Hin & Hapart)];
      [by left|].
    right. exists arr, elems. split; [done|]. split; [lia|]. split.
    { unfold as_array in *.
      rewrite (deref_lookup (o_heap stB)); [done|].
      apply Hcell; [lia|]. intros [= ->]. lia. }
    split; [done|].
    intros w' [Hw'|Hw']%elem_of_app Heq; [|by eapply Hapart].
    destruct (HlinkR w' arr Hw' Heq) as [Hb' _]. lia.
Qed.

Lemma hangs_turn context snapshot st walkNode rest root x :
  o_queue st = walkNode :: rest →
  hangs st root x →
  hangs (state_of (overlayNode context snapshot walkNode
                     {| o_heap := o_heap st; o_queue := rest;
                        o_dynamicNodeIds := o_dynamicNodeIds st |}))
        root x.
Proof.
  intros Hq. induction 1 as [|u x _ IH Hun Hrefers]; [constructor|].
  destruct (untouched_step nodeIdForParameterizedValue QueryRoot
              context snapshot u walkNode rest st Hq Hun)
    as (Hun' & Hcell & _).
  eapply hangs_below; [exact IH|exact Hun'|].
  by eapply refers_lookup.
Qed.

(** The overlay starts in such a state. *)
Lemma overlayKeeps_start context h result newResult h1 cid fields path0
      dynamicNodeIds :
  _wrapValue result context h = (newResult, h1) →
  keysDistinct fields →
  overlayKeeps h newResult
    {| o_heap := h1;
       o_queue := [ {| ow_value := newResult; containerId := cid;
                       parsedMap := fields; path := path0 |} ];
       o_dynamicNodeIds := dynamicNodeIds |}.
Proof.
  intros Hwrap Hkeys.
  apply wrapValue_effect in Hwrap as ([ext ->] & Hb & _).
  unfold overlayKeeps. cbn [o_heap o_queue].
  split; [rewrite length_app; lia|].
  split; [by intros l Hl; apply lookup_app_l|].
  split; [|split].
  - cbn. destruct newResult as [| | b | z | s | l]; try done.
    split; [|done]. by apply Hb.
  - by apply Forall_singleton.
  - intros w x ->%list_elem_of_singleton Hx. cbn in Hx.
    exists x. split; [done|constructor].
Qed.

(** A turn of the loop that does not throw leaves such a state. *)
Lemma overlayKeeps_turn context snapshot h newResult st walkNode rest st1 :
  overlayKeeps h newResult st →
  o_queue st = walkNode :: rest →
  overlayNode context snapshot walkNode
              {| o_heap := o_heap st; o_queue := rest;
                 o_dynamicNodeIds := o_dynamicNodeIds st |} = Next st1 →
  overlayKeeps h newResult st1.
Proof.
  intros (Hlen & Hstore & Hlayered & Hkeys & Hhangs) Hq Hnode.
  pose proof (overlayNode_effect nodeIdForParameterizedValue QueryRoot
                context snapshot walkNode
                {| o_heap := o_heap st; o_queue := rest;
                   o_dynamicNodeIds := o_dynamicNodeIds st |})
    as (Hlen1 & Hcell & _ & (pushed & Hqueue & Hpushed & Hpl) & _).
  pose proof (hangs_turn context snapshot st walkNode rest) as Hturn.
  rewrite Hnode in Hlen1, Hcell, Hqueue, Hpushed, Hpl, Hturn.
  cbn [state_of o_heap o_queue] in *.
  rewrite Hq in Hlayered, Hkeys, Hhangs.
  apply Forall_cons in Hkeys as [Hkeys0 Hkeys].
  assert (layered (List.length h) (List.length (o_heap st)) rest
          ∧ ∀ l, ow_value walkNode = VRef l →
                 List.length h ≤ l < List.length (o_heap st)
                 ∧ Forall (λ w, between (List.length h) l (ow_value w)) rest)
    as [Hrest Hhead].
  { cbn in Hlayered. destruct (ow_value walkNode) as [| | b | z | s | l];
      try (split; [done|by intros l' [=]]).
    destruct Hlayered as [Hl Hlayered]. split.
    - eapply layered_weaken; [| |exact Hlayered]; lia.
    - intros l' [= <-]. split; [done|]. by apply layered_between. }
  split; [lia|]. split; [|split; [|split]].
  - intros l Hl. rewrite Hcell; [by apply Hstore|lia|].
    intros Heq. apply Hhead in Heq as [Hb _]. lia.
  - rewrite Hqueue.
    by apply (layered_app _ (List.length (o_heap st))); [lia..| |].
  - rewrite Hqueue. apply Forall_app. split; [|done].
    eapply Forall_impl; [exact Hpushed|].
    intros w (key & node & Hin & c & Hc & _ & _ & ->).
    inversion Hkeys0 as [? _ Hsub]; subst. by eapply Hsub.
  - intros w x Hw Hx. rewrite Hqueue in Hw.
    apply elem_of_app in Hw as [Hw|Hw]; last first.
    { destruct (Hhangs w x ltac:(by apply list_elem_of_further) Hx)
        as (root & Hroot & Hx').
      exists root. split; [done|]. by apply Hturn. }
    destruct (ow_value walkNode) as [| | b | z | s | v] eqn:Hvalue;
      try (unfold overlayNode in Hnode;
           destruct (containerOf _ _ _) as [cid p];
           rewrite Hvalue in Hnode;
           apply overlayFields_scalar in Hnode; [|done];
           subst st1; cbn [o_queue] in Hqueue;
           apply app_self_nil in Hqueue as ->;
           by apply elem_of_nil in Hw).
    destruct (Hhead v eq_refl) as [Hv Hbelow].
    destruct (Hhangs walkNode v ltac:(apply list_elem_of_here) Hvalue)
      as (root & Hroot & Hv').
    exists root. split; [done|].
    apply Hturn in Hv'; [|done].
    assert (∀ u, u < List.length (o_heap st1) →
                 (∀ w', w' ∈ pushed → ow_value w' ≠ VRef u) →
                 (List.length (o_heap st) ≤ u ∨ u = v) →
                 untouched u st1) as Hdone.
    { intros u Hu Hpu Hnew. split; [done|]. rewrite Hqueue.
      apply Forall_app. split.
      - apply Forall_forall. intros w' Hw'. by apply Hpu.
      - eapply Forall_impl; [exact Hbelow|].
        intros w' Hb Heq. specialize (Hb u Heq). lia. }
    unfold overlayNode in Hnode. cbn [o_heap] in Hnode.
    destruct (containerOf context (o_heap st) walkNode) as [cid p].
    rewrite Hvalue in Hnode.
    inversion Hkeys0 as [? Hnodup _]; subst.
    apply overlayFields_links in Hnode
      as (_ & pushed' & Hqueue' & Hlinks); [|cbn; lia|done].
    cbn [o_heap o_queue] in *. rewrite Hqueue in Hqueue'.
    apply app_inv_tail in Hqueue' as <-.
    destruct (Hlinks w x Hw Hx) as (Hb & key & _ & Hlink).
    assert (untouched v st1) as Hunv.
    { apply Hdone; [lia| |by right].
      intros w' Hw' Heq. destruct (Hlinks w' v Hw' Heq) as [Hb' _]. lia. }
    destruct Hlink as [Hlink|(arr & elems & Hr & Harr & Ha & Hin & Hapart)].
    + eapply hangs_below; [exact Hv'|exact Hunv|]. left. by exists key.
    + eapply (hangs_below _ _ arr).
      * eapply hangs_below; [exact Hv'|exact Hunv|]. left. by exists key.
      * apply Hdone; [lia|done|left; lia].
      * right. by exists elems.
Qed.

Lemma overlayKeeps_comesTo context snapshot h newResult st st' :
  overlayComesTo context snapshot st st' →
  overlayKeeps h newResult st → overlayKeeps h newResult st'.
Proof.
  induction 1 as [|st walkNode rest st1 st' Hq Hnode _ IH]; [done|].
  intros Hst. apply IH. by eapply overlayKeeps_turn.
Qed.

Lemma overlayComesTo_length context snapshot st st' :
  overlayComesTo context snapshot st st' →
  List.length (o_heap st) ≤ List.length (o_heap st').
Proof.
  induction 1 as [|st walkNode rest st1 st' Hq Hnode _ IH]; [done|].
  pose proof (overlayNode_effect nodeIdForParameterizedValue QueryRoot
                context snapshot walkNode
                {| o_heap := o_heap st; o_queue := rest;
                   o_dynamicNodeIds := o_dynamicNodeIds st |})
    as (Hle & _).
  rewrite Hnode in Hle. cbn [state_of o_heap] in Hle. lia.
Qed.

(** The turns that lead to a state the loop comes to are turns of every
    longer run. *)
Lemma overlayComesTo_runs context snapshot st st' :
  overlayComesTo context snapshot st st' →
  ∃ turns, ∀ fuel,
    overlayLoop (turns + fuel) context snapshot st
    = overlayLoop fuel context snapshot st'.
Proof.
  induction 1 as [|st walkNode rest st1 st' Hq Hnode _ [turns IH]].
  - by exists 0.
  - exists (S turns). intros fuel. cbn [Nat.add].
    rewrite (overlayLoop_pop nodeIdForParameterizedValue QueryRoot
               _ _ _ _ _ _ Hq), Hnode.
    apply IH.
Qed.

(** What hangs from a cell is part of its value when the loop is over. *)
Lemma hangs_partOf context snapshot fuel st root x :
  hangs st root x →
  partOf (o_heap (final_state (overlayLoop fuel context snapshot st))) root x.
Proof.
  induction 1 as [|u x _ IH Hun Hrefers]; [apply rtc_refl|].
  eapply rtc_r; [exact IH|].
  eapply refers_lookup; [|exact Hrefers].
  by apply overlayLoop_untouched.
Qed.


(** What the loop has done for a parameterized field that resolves, in the
    walk node on top of the queue, after a turn or more, however it goes on
    and ends. *)
Lemma overlaid_at_the_end
        (fuel : nat) (context : CacheContext) (snapshot : GraphSnapshot)
        (st : OverlayState) (walkNode : OverlayWalkNode)
        (rest : list OverlayWalkNode) (v : loc) (key : string)
        (node : ParsedQueryNode) (nodeArgs : FieldArguments)
        (childSnapshot : NodeSnapshot) :
  let childId :=
    nodeIdForParameterizedValue
      (containerOf context (o_heap st) walkNode).1
      ((containerOf context (o_heap st) walkNode).2
         ++ [PKey (fieldNameOf key node)])
      nodeArgs in
  let final := final_state (overlayLoop (S fuel) context snapshot st) in
  o_queue st = walkNode :: rest →
  ow_value walkNode = VRef v →
  v < List.length (o_heap st) →
  Forall (λ w, between 0 (List.length (o_heap st)) (ow_value w)
               ∧ ow_value w ≠ VRef v) rest →
  NoDup (map fst (parsedMap walkNode)) →
  (key, node) ∈ parsedMap walkNode →
  args node = Some nodeArgs →
  getNodeSnapshot snapshot childId = Some childSnapshot →
  childId ∈ o_dynamicNodeIds final
  ∧ if descends node (data childSnapshot) && isCopied (data childSnapshot)
    then ∃ l,
        read_prop (o_heap final) v key = VRef l
        ∧ List.length (o_heap st) ≤ l
        ∧ ∀ d ps nodeChildren k,
            data childSnapshot = VRef d →
            d < List.length (o_heap st) → d ≠ v →
            deref (o_heap st) d = Obj ps →
            entityTransformer context = None →
            children node = Some nodeChildren →
            k ∉ map fst nodeChildren →
            read_prop (o_heap final) l k = read_prop (o_heap st) d k
    else read_prop (o_heap final) v key = data childSnapshot.
Proof.
  intros childId final Hq Hvalue Hv Hrest Hnodup Hin Hargs Hsnap.
  subst final. cbn [overlayLoop]. rewrite Hq.
  pose proof (overlayNode_effect nodeIdForParameterizedValue QueryRoot
                context snapshot walkNode
                {| o_heap := o_heap st; o_queue := rest;
                   o_dynamicNodeIds := o_dynamicNodeIds st |})
    as (Hlen1 & _ & _ & (pushed & Hqueue1 & Hpushed & Hlayered1) & _).
  destruct (overlayNode_object nodeIdForParameterizedValue QueryRoot
              context snapshot walkNode v
              {| o_heap := o_heap st; o_queue := rest;
                 o_dynamicNodeIds := o_dynamicNodeIds st |} Hvalue)
    as [st1 Hnode].
  rewrite Hnode in Hlen1, Hqueue1, Hpushed, Hlayered1 |- *.
  cbn [state_of o_heap o_queue] in *.
  (* the fields of the node, up to [key] and after it *)
  unfold overlayNode in Hnode. cbn [o_heap] in Hnode.
  subst childId. destruct (containerOf context (o_heap st) walkNode) as [cid p].
  cbn [fst snd] in Hsnap |- *.
  apply list_elem_of_split in Hin as (pre & post & Hsplit).
  rewrite Hsplit, overlayFields_app, Hvalue in Hnode.
  pose proof (overlayFields_effect nodeIdForParameterizedValue QueryRoot
                context snapshot (VRef v) cid p pre
                {| o_heap := o_heap st; o_queue := rest;
                   o_dynamicNodeIds := o_dynamicNodeIds st |})
    as (HlenA & HcellA & _ & (pushedA & HqueueA & HpushedA & HlayeredA) & _).
  destruct (overlayFields context snapshot (VRef v) cid p pre _)
    as [stA|stA]; [|done].
  cbn [state_of overlayFields o_heap o_queue] in *.
  assert (v < List.length (o_heap stA)) as HvA by lia.
  destruct (overlayField_resolved nodeIdForParameterizedValue QueryRoot
              context snapshot v cid p key node nodeArgs
              childSnapshot stA Hargs HvA Hsnap)
    as (stB & HfieldB & HdynB & HpropB).
  rewrite HfieldB in Hnode.
  pose proof (overlayField_effect nodeIdForParameterizedValue QueryRoot
                context snapshot (VRef v) cid p key node stA)
    as (HlenB & _). rewrite HfieldB in HlenB. cbn [state_of] in HlenB.
  pose proof (overlayFields_effect nodeIdForParameterizedValue QueryRoot
                context snapshot (VRef v) cid p post stB)
    as (HlenP & HcellP & HpropP & (pushedP & HqueueP & HpushedP & HlayeredP)
        & HdynP).
  rewrite Hnode in HlenP, HcellP, HpropP, HqueueP, HpushedP, HdynP.
  cbn [state_of] in *.
  assert (key ∉ map fst post) as Hkey.
  { rewrite Hsplit, map_app in Hnodup. cbn [map fst] in Hnodup.
    apply NoDup_app in Hnodup as (_ & _ & Hnodup).
    by apply NoDup_cons in Hnodup as [Hnotin _]. }
  (* nothing that comes after the node points to [v] *)
  assert (untouched v st1) as Hun.
  { split; [lia|]. rewrite Hqueue1. apply Forall_app. split.
    - eapply Forall_impl; [exact Hpushed|].
      intros w (_ & _ & _ & _ & _ & Hb & _) Heq. specialize (Hb v Heq). lia.
    - eapply Forall_impl; [exact Hrest|]. by intros w [_ Hne]. }
  pose proof (overlayLoop_untouched nodeIdForParameterizedValue QueryRoot
                context snapshot v fuel st1 Hun) as Hcell.
  pose proof (overlayLoop_dynamicNodeIds nodeIdForParameterizedValue QueryRoot
                context snapshot fuel st1) as Hdyn.
  split; [set_solver|].
  rewrite (read_prop_lookup _ _ _ _ Hcell), (HpropP v key) by (done || lia).
  rewrite HpropB.
  destruct (descends node (data childSnapshot) && isCopied (data childSnapshot))
    eqn:Hcopied; [|done].
  exists (List.length (o_heap stA)). split; [done|]. split; [lia|].
  (* the copy of a stored object *)
  intros d ps nodeChildren k Hdata Hd Hdv Hobj Htr Hch Hk.
  apply andb_prop in Hcopied as [Hdesc _]. unfold descends in Hdesc.
  apply andb_prop in Hdesc as [Hdesc _].
  apply andb_prop in Hdesc as [Hpar _].
  assert (deref (o_heap stA) d = Obj ps) as HobjA.
  { rewrite <- Hobj. apply deref_lookup, HcellA; [done|congruence]. }
  rewrite (overlayField_resolved_object nodeIdForParameterizedValue QueryRoot
             context snapshot v cid p key node
             nodeArgs nodeChildren childSnapshot d ps stA
             Hargs Hsnap Hdata HobjA Htr Hch Hpar) in HfieldB.
  injection HfieldB as <-. cbn [o_heap o_queue] in *.
  rewrite length_write_prop, length_app in *. cbn [List.length] in *.
  set (l := List.length (o_heap stA)) in *.
  assert (guarded l (map fst nodeChildren) st1) as Hg.
  { split; [lia|]. rewrite HqueueP, HqueueA.
    apply Forall_app. split; [|apply Forall_cons; split;
                                [|apply Forall_app; split]].
    - eapply Forall_impl; [exact HpushedP|].
      intros w (_ & _ & _ & _ & _ & Hb & _) Heq. specialize (Hb l Heq). lia.
    - done.
    - eapply Forall_impl; [exact HpushedA|].
      intros w (_ & _ & _ & _ & _ & Hb & _) Heq. specialize (Hb l Heq). lia.
    - eapply Forall_impl; [exact Hrest|].
      intros w [Hb _] Heq. specialize (Hb l Heq). lia. }
  pose proof (overlayLoop_guarded nodeIdForParameterizedValue QueryRoot
                context snapshot l (map fst nodeChildren) k
                fuel st1 Hg Hk) as Hgk.
  rewrite Hgk.
  rewrite (read_prop_lookup _ _ l k (HcellP l ltac:(lia) ltac:(intros [= ->]; lia))).
  rewrite (read_prop_lookup (o_heap stA ++ [Obj ps]) _ l k);
    [|apply lookup_write_prop_ne; lia].
  unfold read_prop, deref at 1. subst l.
  rewrite list_lookup_middle by done. by rewrite Hobj.
Qed.


End OverlayResolves.

(** ** More on [read] *)

Section ReadRuns.
Variable shouldInclude : SelectionNode → Variables → bool.
Variable nodeIdForParameterizedValue :
  NodeId → list PathPart → FieldArguments → NodeId.
Variable QueryRoot : NodeId.

Local Abbreviation overlayLoop :=
  (overlayLoop nodeIdForParameterizedValue QueryRoot).
Local Abbreviation overlay :=
  (_walkAndOverlayDynamicValues nodeIdForParameterizedValue QueryRoot).
Local Abbreviation readResult :=
  (readResult nodeIdForParameterizedValue QueryRoot).
Local Abbreviation readPartition := (readPartition shouldInclude).
Local Abbreviation read :=
  (read shouldInclude nodeIdForParameterizedValue QueryRoot).

(** [read] as its three stages. *)
Lemma read_stages fuel context raw snapshot h includeNodeIds :
  read fuel context raw snapshot h includeNodeIds =
  let operation := parseOperation context raw in
  match
    stage_bind
      (stage_bind
         (readResult fuel context snapshot operation includeNodeIds
            (default emptyQueryResult (readCache snapshot !! op_ref operation))
            h)
         (readNodeIds fuel context operation includeNodeIds))
      (readPartition raw)
  with
  | Go (queryResult', _, cacheHit, h') =>
      Returned queryResult' cacheHit
               (set_readCache snapshot operation queryResult') h'
  | Raise queryResult' h' =>
      Raised (set_readCache snapshot operation queryResult') h'
  | NoFuel => Exhausted
  end.
Proof. done. Qed.

(** The store the overlay leaves is the store it was given, followed by the
    cells it allocated. *)
Lemma overlay_extends fuel query context snapshot h result dynamicNodeIds :
  ∃ allocated,
    o_heap (final_state
              (overlay fuel query context snapshot h result dynamicNodeIds).1)
    = h ++ allocated.
Proof.
  unfold _walkAndOverlayDynamicValues.
  destruct (getNodeSnapshot snapshot (rootId query)) as [rootSnapshot|];
    [|by exists []; cbn; rewrite app_nil_r].
  destruct (_wrapValue result context h) as [newResult h1] eqn:Hwrap.
  apply wrapValue_effect in Hwrap as ([ext ->] & Hfresh & _).
  cbn [fst]. eexists. apply heap_extended.
  - etrans; [|apply overlayLoop_length]. cbn. rewrite length_app. lia.
  - intros l Hl. rewrite overlayLoop_untouched.
    + cbn. by apply lookup_app_l.
    + split; [cbn; rewrite length_app; lia|].
      apply Forall_singleton. cbn. intros Heq.
      specialize (Hfresh l Heq). lia.
Qed.

(** What the first [if] of [read] hands on, when it hands on. *)
Lemma readResult_Go fuel context snapshot operation includeNodeIds q h
      qA m c hA :
  readResult fuel context snapshot operation includeNodeIds q h
  = Go (qA, m, c, hA) →
  (complete qA = Some true → m = [])
  ∧ (∃ allocated, hA = h ++ allocated
                  ∧ (isStatic operation = true → allocated = [])).
Proof.
  unfold readResult.
  destruct (truthy (result q)).
  { intros [= <- <- <- <-]. split; [done|]. exists [].
    by rewrite app_nil_r. }
  destruct (isStatic operation) eqn:Hstatic.
  - destruct (_visitSelection _ _ _ _ _ _) as [visitResult|] eqn:Hvisit; [|done].
    intros [= <- <- <- <-]. split.
    + cbn [complete]. intros [= Hc].
      destruct (v_missingFields visitResult) eqn:Hm; [done|].
      rewrite (visitSelection_missing_incomplete _ _ _ _ _ _ _ Hvisit) in Hc;
        [done|by rewrite Hm].
    + exists []. by rewrite app_nil_r.
  - pose proof (overlay_extends fuel operation context snapshot h
                  (getNodeData snapshot (rootId operation)) ∅)
      as [allocated Hheap].
    destruct (overlay _ _ _ _ _ _ _) as [[st|st|st] newResult]; [|done..].
    cbn [fst final_state] in Hheap.
    destruct (_visitSelection _ _ _ _ _ _) as [visitResult|] eqn:Hvisit; [|done].
    intros [= <- <- <- <-]. split.
    + cbn [complete]. intros [= Hc].
      destruct (v_missingFields visitResult) eqn:Hm; [done|].
      rewrite (visitSelection_missing_incomplete _ _ _ _ _ _ _ Hvisit) in Hc;
        [done|by rewrite Hm].
    + exists allocated. split; [done|]. done.
Qed.

Lemma readResult_Raise fuel context snapshot operation includeNodeIds q h
      qA hA :
  readResult fuel context snapshot operation includeNodeIds q h = Raise qA hA →
  isStatic operation = false ∧ ∃ allocated, hA = h ++ allocated.
Proof.
  unfold readResult.
  destruct (truthy (result q)); [done|].
  destruct (isStatic operation) eqn:Hstatic.
  - by destruct (_visitSelection _ _ _ _ _ _).
  - pose proof (overlay_extends fuel operation context snapshot h
                  (getNodeData snapshot (rootId operation)) ∅)
      as [allocated Hheap].
    destruct (overlay _ _ _ _ _ _ _) as [[st|st|st] newResult]; [| |done].
    + by destruct (_visitSelection _ _ _ _ _ _).
    + intros [= <- <-]. split; [done|]. by exists allocated.
Qed.

Lemma readNodeIds_kept fuel context operation includeNodeIds q m c h
      q' m' c' h' :
  readNodeIds fuel context operation includeNodeIds (q, m, c, h)
  = Go (q', m', c', h') →
  (complete q = Some true → m = []) →
  (complete q' = Some true → m' = []) ∧ h' = h.
Proof.
  unfold readNodeIds.
  destruct includeNodeIds, (entityIds q);
    try (intros [= <- <- <- <-]; by split).
  destruct (_visitSelection _ _ _ _ _ _) as [visitResult|] eqn:Hvisit; [|done].
  intros [= <- <- <- <-] _. split; [|done].
  cbn [complete]. intros [= Hc].
  destruct (v_missingFields visitResult) eqn:Hm; [done|].
  rewrite (visitSelection_missing_incomplete _ _ _ _ _ _ _ Hvisit) in Hc;
    [done|by rewrite Hm].
Qed.

Lemma readNodeIds_not_Raise fuel context operation includeNodeIds vars q h :
  readNodeIds fuel context operation includeNodeIds vars ≠ Raise q h.
Proof.
  destruct vars as [[[q0 m0] c0] h0]. unfold readNodeIds.
  destruct includeNodeIds, (entityIds q0); try done.
  by destruct (_visitSelection _ _ _ _ _ _).
Qed.

Lemma readPartition_heap raw q m c h :
  match readPartition raw (q, m, c, h) with
  | Go (_, _, _, h') => h' = h
  | Raise _ h' => h' = h
  | NoFuel => False
  end.
Proof.
  unfold readPartition.
  destruct (_ || _); [done|]. by destruct (partitionQuery _ _ _).
Qed.

(** X18.  Reading writes into no cell that was there: the store [read] leaves,
    returning or throwing, is the store it was given followed by the cells the
    overlay allocated, and is the very store it was given when the operation
    is static.  The nodes of the snapshot are as they were, and so is every
    entry of its read cache but the operation's own. *)
Theorem read_leaves_what_is_stored
        (fuel : nat) (context : CacheContext) (raw : RawOperation)
        (snapshot : GraphSnapshot) (h : Heap) (includeNodeIds : bool) :
  let operation := parseOperation context raw in
  match read fuel context raw snapshot h includeNodeIds with
  | Returned _ _ snapshot' h' | Raised snapshot' h' =>
      (∃ allocated, h' = h ++ allocated
                    ∧ (isStatic operation = true → allocated = []))
      ∧ _values snapshot' = _values snapshot
      ∧ ∀ other, other ≠ op_ref operation →
                 readCache snapshot' !! other = readCache snapshot !! other
  | Exhausted => True
  end.
Proof.
  intros operation. rewrite read_stages. fold operation. cbv zeta.
  assert (∀ q other, other ≠ op_ref operation →
            readCache (set_readCache snapshot operation q) !! other
            = readCache snapshot !! other) as Hcache.
  { intros q other Hother. cbn. by rewrite lookup_insert_ne. }
  destruct (readResult fuel context snapshot operation includeNodeIds _ h)
    as [[[[qA mA] cA] hA]|qA hA|] eqn:HA; cbn [stage_bind]; [| |done].
  - apply readResult_Go in HA as [_ HheapA].
    destruct (readNodeIds fuel context operation includeNodeIds (qA, mA, cA, hA))
      as [varsB|qB hB|] eqn:HB; cbn [stage_bind]; [| |done].
    + destruct (readNodeIds_Go _ _ _ _ _ _ _ _ _ HB)
        as (qB & mB & cB & -> & _).
      pose proof (readPartition_heap raw qB mB cB hA) as HC.
      destruct (readPartition raw (qB, mB, cB, hA))
        as [[[[qC mC] cC] hC]|qC hC|]; [| |done]; subst hC;
        (split; [done|]); (split; [done|]); apply Hcache.
    + by apply readNodeIds_not_Raise in HB.
  - apply readResult_Raise in HA as [Hstatic [allocated ->]].
    split; [|split; [done|apply Hcache]].
    exists allocated. split; [done|]. congruence.
Qed.

(** X19.  Asked for node ids, [read] returns a result that has a set of them,
    as the overload of its signature with [includeNodeIds: true] says. *)
Theorem read_asked_for_node_ids_returns_them
        (fuel : nat) (context : CacheContext) (raw : RawOperation)
        (snapshot snapshot' : GraphSnapshot) (h h' : Heap)
        (queryResult : QueryResult) (cacheHit : bool) :
  read fuel context raw snapshot h true
  = Returned queryResult cacheHit snapshot' h' →
  is_Some (entityIds queryResult).
Proof.
  rewrite read_stages. cbv zeta.
  destruct (readResult fuel context snapshot _ true _ h)
    as [[[[qA mA] cA] hA]| |]; [|done..].
  cbn [stage_bind].
  destruct (readNodeIds fuel context _ true (qA, mA, cA, hA))
    as [varsB| |] eqn:HB; [|done..].
  cbn [stage_bind].
  destruct (readNodeIds_Go _ _ _ _ _ _ _ _ _ HB)
    as (qB & mB & cB & -> & _ & HidsB & _).
  destruct (readPartition raw (qB, mB, cB, hA))
    as [[[[qC mC] cC] hC]| |] eqn:HC; [|done..].
  destruct (readPartition_Go _ _ _ _ _ _ _ HC) as (d & [= -> -> -> ->]).
  intros [= <- <- <- <-]. by apply HidsB.
Qed.

(** X20.  A result the read cache holds for the operation, with a truthy
    [result] and with node ids when they are asked for, is served as it is,
    whatever the turns allowed: nothing is walked, the store is not touched,
    the call counts as a cache hit; the partitioned query is set to the whole
    document, whether the result is complete or not. *)
Theorem read_serves_what_is_cached
        (fuel : nat) (context : CacheContext) (raw : RawOperation)
        (snapshot : GraphSnapshot) (h : Heap) (includeNodeIds : bool)
        (cached : QueryResult) :
  let operation := parseOperation context raw in
  let served :=
    {| result := result cached; complete := complete cached;
       entityIds := entityIds cached;
       dynamicNodeIds := dynamicNodeIds cached;
       partitionedQuery := Some (document raw) |} in
  readCache snapshot !! op_ref operation = Some cached →
  truthy (result cached) = true →
  includeNodeIds = false ∨ is_Some (entityIds cached) →
  read fuel context raw snapshot h includeNodeIds
  = Returned served true (set_readCache snapshot operation served) h.
Proof.
  intros operation served Hcached Htruthy Hids.
  rewrite read_stages. fold operation. cbv zeta.
  rewrite Hcached. cbn [from_option id].
  unfold readResult. rewrite Htruthy. cbn [stage_bind].
  assert (readNodeIds fuel context operation includeNodeIds
                      (cached, [], true, h) = Go (cached, [], true, h)) as ->.
  { unfold readNodeIds. destruct includeNodeIds; [|done].
    destruct Hids as [?|[ids Hids]]; [done|]. by rewrite Hids. }
  cbn [stage_bind]. unfold readPartition.
  cbn [List.length Nat.eqb]. by rewrite orb_true_r.
Qed.

(** X21.  A result [read] returns as complete has the whole document for its
    partitioned query. *)
Theorem read_complete_partitions_to_the_document
        (fuel : nat) (context : CacheContext) (raw : RawOperation)
        (snapshot snapshot' : GraphSnapshot) (h h' : Heap)
        (includeNodeIds : bool) (queryResult : QueryResult) (cacheHit : bool) :
  read fuel context raw snapshot h includeNodeIds
  = Returned queryResult cacheHit snapshot' h' →
  complete queryResult = Some true →
  partitionedQuery queryResult = Some (document raw).
Proof.
  rewrite read_stages. cbv zeta.
  destruct (readResult fuel context snapshot _ includeNodeIds _ h)
    as [[[[qA mA] cA] hA]| |] eqn:HA; [|done..].
  apply readResult_Go in HA as [HkeptA _].
  cbn [stage_bind].
  destruct (readNodeIds fuel context _ includeNodeIds (qA, mA, cA, hA))
    as [[[[qB mB] cB] hB]| |] eqn:HB; [|done..].
  apply readNodeIds_kept in HB as [HkeptB _]; [|done].
  cbn [stage_bind]. unfold readPartition.
  destruct (negb (truthy (result qB))) eqn:Hfalsy; cbn [orb].
  { by intros [= <- <- <- <-]. }
  destruct (Nat.eqb (List.length mB) 0) eqn:Hnone.
  { by intros [= <- <- <- <-]. }
  destruct (partitionQuery shouldInclude mB raw); [|done].
  intros [= <- <- <- <-]. cbn [complete]. intros Hc.
  rewrite (HkeptB Hc) in Hnone. done.
Qed.

(** X22.  The first read of an operation whose root the snapshot does not
    hold: [read] returns, after a single turn of the walk, an [undefined]
    result that is not complete (unless the query selects nothing), with no
    node id and no dynamic id, and the whole document for its partitioned
    query; the store is not touched. *)
Theorem read_without_a_root
        (fuel : nat) (context : CacheContext) (raw : RawOperation)
        (snapshot : GraphSnapshot) (h : Heap) (includeNodeIds : bool) :
  let operation := parseOperation context raw in
  let queryResult :=
    {| result := VUndef;
       complete := Some (match info_parsed operation with
                         | [] => true
                         | _ :: _ => false
                         end);
       entityIds := if includeNodeIds then Some ∅ else None;
       dynamicNodeIds := if isStatic operation then None else Some ∅;
       partitionedQuery := Some (document raw) |} in
  readCache snapshot !! op_ref operation = None →
  getNodeSnapshot snapshot (rootId operation) = None →
  read (S fuel) context raw snapshot h includeNodeIds
  = Returned queryResult false (set_readCache snapshot operation queryResult) h.
Proof.
  intros operation queryResult Hcache Hroot.
  rewrite read_stages. fold operation. cbv zeta.
  rewrite Hcache. cbn [from_option].
  unfold readResult, getNodeData, _walkAndOverlayDynamicValues.
  rewrite Hroot. cbn [truthy result emptyQueryResult dynamicNodeIds o_heap
                      o_dynamicNodeIds partitionedQuery].
  assert (∀ ids,
            _visitSelection (S fuel) operation context h VUndef ids
            = Some {| v_complete := match info_parsed operation with
                                    | [] => true
                                    | _ :: _ => false
                                    end;
                      v_missingFields := []; v_nodeIds := ids |}) as Hvisit.
  { intros ids. unfold _visitSelection, walkOperation.
    rewrite walk_loop_step.
    destruct (info_parsed operation) as [|[k n] po] eqn:Hpo.
    - cbn. rewrite walk_loop_nil. by destruct ids.
    - rewrite walk_step_undefined by done. cbn [fst snd opt_list app].
      rewrite walk_loop_nil. by destruct ids. }
  subst queryResult.
  destruct (isStatic operation); rewrite Hvisit; cbn [stage_bind];
    destruct includeNodeIds;
    cbn [readNodeIds entityIds v_nodeIds stage_bind];
    unfold readPartition; cbn [result truthy negb orb];
    reflexivity.
Qed.

(** X23.  The first read of a static operation, on a store in which no array
    holds itself, for a document [partitionQuery] accepts and a query none of
    whose response keys is the name of a member of [Object.prototype]: given
    turns enough [read] returns, it is no cache hit, and the store is as it
    was; the result is the very data the snapshot holds for the root, and it
    is returned as complete exactly when that data has all the query asks
    for. *)
Theorem read_of_a_static_operation
        (context : CacheContext) (raw : RawOperation)
        (snapshot : GraphSnapshot) (h : Heap) (includeNodeIds : bool) :
  let operation := parseOperation context raw in
  let stored := getNodeData snapshot (rootId operation) in
  isStatic operation = true →
  readCache snapshot !! op_ref operation = None →
  well_founded (element_of h) →
  is_Some (getMainDefinition (document raw)) →
  ownKeysOnly (info_parsed operation) = true →
  ∃ enough queryResult,
    (∀ fuel, enough ≤ fuel →
             read fuel context raw snapshot h includeNodeIds
             = Returned queryResult false
                        (set_readCache snapshot operation queryResult) h)
    ∧ result queryResult = stored
    ∧ (∃ verdict, complete queryResult = Some verdict)
    ∧ (complete queryResult = Some true
       ↔ Satisfied h (info_parsed operation) stored).
Proof.
  intros operation stored Hstatic Hcache Hwf [main Hmain] _.
  destruct (visitSelection_ends 0 operation context h stored
              (if includeNodeIds then Some ∅ else None) Hwf)
    as (enough & visitResult & _ & Hvisit).
  pose proof (visitSelection_complete _ _ _ _ _ _ _ (Hvisit enough ltac:(lia)))
    as Hverdict.
  pose proof (visitSelection_nodeIds_is_Some _ _ _ _ _ _ _
                (Hvisit enough ltac:(lia))) as Hids.
  assert (∃ d, ∀ q m c,
            readPartition raw (q, m, c, h)
            = Go ({| result := result q; complete := complete q;
                     entityIds := entityIds q;
                     dynamicNodeIds := dynamicNodeIds q;
                     partitionedQuery :=
                       Some (if negb (truthy (result q))
                                || Nat.eqb (List.length m) 0
                             then document raw else d m) |}, m, c, h))
    as [d Hpartition].
  { exists (λ m, {| definitions :=
                     [ with_selectionSet main
                         (findMissingSelectionSets shouldInclude
                            (def_selectionSet main) (variables raw) m) ] |}).
    intros q m c. unfold readPartition, partitionQuery.
    rewrite Hmain. by destruct (_ || _). }
  eexists enough, _. split; [|split; [|split]].
  - intros fuel Hfuel. rewrite read_stages. fold operation. cbv zeta.
    rewrite Hcache. cbn [from_option].
    unfold readResult.
    cbn [truthy result emptyQueryResult]. rewrite Hstatic.
    fold stored. rewrite (Hvisit fuel Hfuel). cbn [stage_bind].
    assert (readNodeIds fuel context operation includeNodeIds
              ({| result := stored;
                  complete := Some (v_complete visitResult);
                  entityIds := v_nodeIds visitResult;
                  dynamicNodeIds := dynamicNodeIds emptyQueryResult;
                  partitionedQuery := partitionedQuery emptyQueryResult |},
               v_missingFields visitResult, false, h)
            = Go ({| result := stored;
                     complete := Some (v_complete visitResult);
                     entityIds := v_nodeIds visitResult;
                     dynamicNodeIds := dynamicNodeIds emptyQueryResult;
                     partitionedQuery := partitionedQuery emptyQueryResult |},
                  v_missingFields visitResult, false, h)) as ->.
    { unfold readNodeIds. cbn [entityIds].
      destruct includeNodeIds; [|done].
      destruct Hids as [_ Hids]. destruct (Hids ltac:(by eexists)) as [ids ->].
      done. }
    cbn [stage_bind]. rewrite Hpartition. reflexivity.
  - done.
  - by eexists.
  - cbn [complete]. rewrite <- Hverdict. split; [by intros [= ->]|by intros ->].
Qed.
End ReadRuns.

Section ReadAgain.
Variable shouldInclude : SelectionNode → Variables → bool.
Variable nodeIdForParameterizedValue :
  NodeId → list PathPart → FieldArguments → NodeId.
Variable QueryRoot : NodeId.

Local Abbreviation readResult :=
  (readResult nodeIdForParameterizedValue QueryRoot).
Local Abbreviation readPartition := (readPartition shouldInclude).
Local Abbreviation read :=
  (read shouldInclude nodeIdForParameterizedValue QueryRoot).

(** X24.  Node ids asked for after a read that did not collect them: the
    cached result is walked (on a store in which no array holds itself the
    walk comes to an end), and [read] returns the cached [result] and dynamic
    ids with a set of node ids filled in; the call is no cache hit, the store
    is not touched, and the result is complete exactly when the cached
    [result] has all the query asks for.  This is for a query none of whose
    response keys is the name of a member of [Object.prototype]. *)
Theorem read_fills_in_the_node_ids
        (context : CacheContext) (raw : RawOperation)
        (snapshot : GraphSnapshot) (h : Heap) (cached : QueryResult) :
  let operation := parseOperation context raw in
  readCache snapshot !! op_ref operation = Some cached →
  truthy (result cached) = true →
  entityIds cached = None →
  well_founded (element_of h) →
  is_Some (getMainDefinition (document raw)) →
  ownKeysOnly (info_parsed operation) = true →
  ∃ enough queryResult,
    (∀ fuel, enough ≤ fuel →
             read fuel context raw snapshot h true
             = Returned queryResult false
                        (set_readCache snapshot operation queryResult) h)
    ∧ result queryResult = result cached
    ∧ dynamicNodeIds queryResult = dynamicNodeIds cached
    ∧ is_Some (entityIds queryResult)
    ∧ (complete queryResult = Some true
       ↔ Satisfied h (info_parsed operation) (result cached)).
Proof.
  intros operation Hcached Htruthy Hnoids Hwf [main Hmain] _.
  destruct (visitSelection_ends 0 operation context h (result cached)
              (Some ∅) Hwf) as (enough & visitResult & _ & Hvisit).
  pose proof (visitSelection_complete _ _ _ _ _ _ _ (Hvisit enough ltac:(lia)))
    as Hverdict.
  pose proof (visitSelection_nodeIds_is_Some _ _ _ _ _ _ _
                (Hvisit enough ltac:(lia))) as Hids.
  exists enough,
    {| result := result cached;
       complete := Some (v_complete visitResult);
       entityIds := v_nodeIds visitResult;
       dynamicNodeIds := dynamicNodeIds cached;
       partitionedQuery :=
         Some (if Nat.eqb (List.length (v_missingFields visitResult)) 0
               then document raw
               else {| definitions :=
                         [ with_selectionSet main
                             (findMissingSelectionSets shouldInclude
                                (def_selectionSet main) (variables raw)
                                (v_missingFields visitResult)) ] |}) |}.
  cbn [result complete entityIds dynamicNodeIds].
  split; [|split; [done|split; [done|split]]].
  - intros fuel Hfuel. rewrite read_stages. fold operation. cbv zeta.
    rewrite Hcached. cbn [from_option id].
    unfold readResult. rewrite Htruthy. cbn [stage_bind].
    unfold readNodeIds. rewrite Hnoids, (Hvisit fuel Hfuel).
    cbn [stage_bind]. unfold readPartition, partitionQuery.
    rewrite Hmain. cbn [result]. rewrite Htruthy. cbn [negb orb].
    by destruct (Nat.eqb (List.length (v_missingFields visitResult)) 0).
  - apply Hids. by eexists.
  - rewrite <- Hverdict. split; [by intros [= ->]|by intros ->].
Qed.
End ReadAgain.

(** ** Stores in which no array holds itself *)

Lemma arrays_point_down_from_lookup h : ∀ i j elems props,
  arrays_point_down_from i h = true →
  h !! j = Some (Arr elems props) →
  ∀ l, VRef l ∈ elems → l < i + j.
Proof.
  induction h as [|c h IH]; intros i j elems props Hdown Hj l Hl; [done|].
  cbn [arrays_point_down_from] in Hdown.
  apply andb_prop in Hdown as [Hhere Hrest].
  destruct j as [|j].
  - injection Hj as ->. rewrite forallb_forall in Hhere.
    apply list_elem_of_In, Hhere, Nat.ltb_lt in Hl. lia.
  - cbn in Hj. specialize (IH (S i) j elems props Hrest Hj l Hl). lia.
Qed.

(** Where every array holds references to earlier cells only, no array holds
    itself, directly or through other arrays. *)
Lemma arrays_point_down_wf h :
  arrays_point_down h = true → well_founded (element_of h).
Proof.
  intros Hdown.
  apply (wf_projected lt (λ v, match v with VRef l => S l | _ => 0 end));
    [|apply lt_wf].
  intros e v (elems & Harray & He).
  destruct v as [| | b | z | s | i]; try done.
  unfold as_array, deref in Harray.
  destruct (h !! i) as [[props|elems' props]|] eqn:Hcell; try done.
  injection Harray as ->.
  destruct e as [| | b | z | s | l]; try lia.
  pose proof (arrays_point_down_from_lookup h 0 i elems props Hdown Hcell l He).
  lia.
Qed.

(** ** The further statements at work on the samples *)

Lemma walkOperation_comes_to_an_end_witness :
  ∃ enough seen, ∀ fuel,
    enough ≤ fuel →
    walkOperation storeItems logValues fuel countParsed (VRef 1) []
    = Some seen.
Proof.
  apply (walkOperation_comes_to_an_end storeItems logValues countParsed
                                       (VRef 1) []).
  apply arrays_point_down_wf. reflexivity.
Defined.

Lemma visitor_is_called_on_plain_values_witness :
  ∃ seen,
    walk_loop storeNullFoo logValues 5
              [ {| parsedOperation := nestedParsed; parentSelection := None;
                   parent := VRef 0 |} ] []
    = Some seen
    ∧ Forall (λ v, isNull v = false) seen.
Proof.
  eexists. split; [reflexivity|].
  apply (visitor_is_called_on_plain_values
           storeNullFoo logValues (λ seen, Forall (λ v, isNull v = false) seen)
           5 [ {| parsedOperation := nestedParsed; parentSelection := None;
                  parent := VRef 0 |} ] []).
  - intros value fields enclosing seen Hvalue _ _ Hseen. cbn.
    apply Forall_app. split; [exact Hseen|].
    apply Forall_singleton. by destruct value.
  - constructor.
  - reflexivity.
Defined.

Lemma visitSelection_verdict_is_satisfaction_witness :
  ∃ enough s,
    (∀ fuel, enough ≤ fuel →
             _visitSelection fuel nestedOperation (plainContext nestedOperation)
                             storeComplete (VRef 0) None = Some s)
    ∧ (v_complete s = true ↔ Satisfied storeComplete nestedParsed (VRef 0)).
Proof.
  apply (visitSelection_verdict_is_satisfaction
           nestedOperation (plainContext nestedOperation) storeComplete
           (VRef 0) None).
  - apply arrays_point_down_wf. reflexivity.
  - reflexivity.
Defined.

Lemma visitSelection_reports_selections_of_the_query_witness :
  ∃ s,
    _visitSelection 10 nestedOperation (plainContext nestedOperation)
                    storeEmptyBar (VRef 0) None = Some s
    ∧ Forall (selects nestedParsed) (v_missingFields s).
Proof.
  eexists. split; [reflexivity|].
  apply (visitSelection_reports_selections_of_the_query
           10 nestedOperation (plainContext nestedOperation) storeEmptyBar
           (VRef 0) None).
  reflexivity.
Defined.

Lemma visitSelection_complete_reports_nothing_witness :
  ∃ s,
    _visitSelection 10 nestedOperation (plainContext nestedOperation)
                    storeComplete (VRef 0) None = Some s
    ∧ v_missingFields s = [].
Proof.
  eexists. split; [reflexivity|].
  apply (visitSelection_complete_reports_nothing
           10 nestedOperation (plainContext nestedOperation) storeComplete
           (VRef 0) None); reflexivity.
Defined.

Lemma visitSelection_collects_the_root_id_witness :
  ∃ enough s ids,
    (∀ fuel, enough ≤ fuel →
             _visitSelection fuel nestedOperation (plainContext nestedOperation)
                             storeBarOnly (VRef 0) (Some ∅) = Some s)
    ∧ v_nodeIds s = Some ids
    ∧ rootQuery ∈ ids.
Proof.
  destruct (visitSelection_collects_the_root_id
              nestedOperation (plainContext nestedOperation) storeBarOnly
              (VRef 0) ∅)
    as (enough & s & ids & Hrun & Hids & _ & Hroot).
  - apply arrays_point_down_wf. reflexivity.
  - exists enough, s, ids. split; [exact Hrun|]. split; [exact Hids|].
    by apply Hroot.
Defined.

Lemma visitSelection_verdict_whatever_the_node_ids_witness :
  ∃ s s',
    _visitSelection 10 nestedOperation (plainContext nestedOperation)
                    storeBarOnly (VRef 0) None = Some s
    ∧ _visitSelection 10 nestedOperation (plainContext nestedOperation)
                      storeBarOnly (VRef 0) (Some ∅) = Some s'
    ∧ v_complete s' = v_complete s
    ∧ v_missingFields s' = v_missingFields s.
Proof.
  destruct (visitSelection_verdict_whatever_the_node_ids
              10 nestedOperation (plainContext nestedOperation) storeBarOnly
              (VRef 0) None (Some ∅) _ eq_refl) as (s' & Hrun & Hc & Hm).
  eexists _, s'. split; [reflexivity|]. split; [exact Hrun|].
  split; [exact Hc|exact Hm].
Defined.

Lemma findMissingSelectionSets_keeps_every_missing_field_witness :
  Within (findMissingSelectionSets includeAll [fooField] ∅ [bazField]) bazField.
Proof.
  apply (findMissingSelectionSets_keeps_every_missing_field
           includeAll ∅ [bazField] [fooField] bazField); [|reflexivity].
  eapply Reached_below; [apply list_elem_of_here|reflexivity|].
  apply Reached_here; [|reflexivity..].
  apply list_elem_of_further, list_elem_of_here.
Defined.

Lemma findMissingSelectionSets_keeps_missing_fields_only_witness :
  ∃ field,
    listed [bazField] field = true
    ∧ Within [Field 1 None "foo" [] [] (Some [bazField])] field
    ∧ Reached includeAll ∅ [fooField] field.
Proof.
  apply (findMissingSelectionSets_keeps_missing_fields_only
           includeAll ∅ [bazField] [fooField]
           (Field 1 None "foo" [] [] (Some [bazField]))).
  apply list_elem_of_here.
Defined.






Lemma read_asked_for_node_ids_returns_them_witness :
  ∃ queryResult cacheHit snapshot' h',
    read includeAll sampleNodeId rootQuery 10 (plainContext nestedOperation)
         nestedRaw (rootedAt 0) storeBarOnly true
    = Returned queryResult cacheHit snapshot' h'
    ∧ is_Some (entityIds queryResult).
Proof.
  eexists _, _, _, _. split; [reflexivity|].
  eapply (read_asked_for_node_ids_returns_them
            includeAll sampleNodeId rootQuery 10 (plainContext nestedOperation)
            nestedRaw (rootedAt 0) _ storeBarOnly).
  reflexivity.
Defined.

Lemma read_serves_what_is_cached_witness :
  ∃ served snapshot',
    read includeAll sampleNodeId rootQuery 0 (plainContext nestedOperation)
         nestedRaw cachedSnapshot storeBarOnly false
    = Returned served true snapshot' storeBarOnly
    ∧ complete served = Some false
    ∧ partitionedQuery served = Some nestedDocument.
Proof.
  eexists _, _. split.
  - apply (read_serves_what_is_cached
             includeAll sampleNodeId rootQuery 0 (plainContext nestedOperation)
             nestedRaw cachedSnapshot storeBarOnly false
             {| result := VRef 0; complete := Some false;
                entityIds := None; dynamicNodeIds := None;
                partitionedQuery := Some bazOnlyDocument |}).
    + reflexivity.
    + reflexivity.
    + by left.
  - split; reflexivity.
Defined.

Lemma read_complete_partitions_to_the_document_witness :
  ∃ queryResult cacheHit snapshot' h',
    read includeAll sampleNodeId rootQuery 10 (plainContext nestedOperation)
         nestedRaw (rootedAt 0) storeComplete false
    = Returned queryResult cacheHit snapshot' h'
    ∧ partitionedQuery queryResult = Some nestedDocument.
Proof.
  eexists _, _, _, _. split; [reflexivity|].
  eapply (read_complete_partitions_to_the_document
            includeAll sampleNodeId rootQuery 10 (plainContext nestedOperation)
            nestedRaw (rootedAt 0) _ storeComplete _ false);
    reflexivity.
Defined.

Lemma read_without_a_root_witness :
  ∃ queryResult snapshot',
    read includeAll sampleNodeId rootQuery 1 (plainContext nestedOperation)
         nestedRaw emptySnapshot [] false
    = Returned queryResult false snapshot' []
    ∧ result queryResult = VUndef
    ∧ complete queryResult = Some false
    ∧ partitionedQuery queryResult = Some nestedDocument.
Proof.
  eexists _, _. split.
  - apply (read_without_a_root
             includeAll sampleNodeId rootQuery 0 (plainContext nestedOperation)
             nestedRaw emptySnapshot [] false); reflexivity.
  - split; [reflexivity|]. split; reflexivity.
Defined.

Lemma read_of_a_static_operation_witness :
  ∃ enough queryResult,
    (∀ fuel, enough ≤ fuel →
             read includeAll sampleNodeId rootQuery fuel
                  (plainContext nestedOperation) nestedRaw (rootedAt 0)
                  storeBarOnly false
             = Returned queryResult false
                        (set_readCache (rootedAt 0) nestedOperation queryResult)
                        storeBarOnly)
    ∧ result queryResult = VRef 0
    ∧ (∃ verdict, complete queryResult = Some verdict)
    ∧ (complete queryResult = Some true
       ↔ Satisfied storeBarOnly nestedParsed (VRef 0)).
Proof.
  apply (read_of_a_static_operation
           includeAll sampleNodeId rootQuery (plainContext nestedOperation)
           nestedRaw (rootedAt 0) storeBarOnly false).
  - reflexivity.
  - reflexivity.
  - apply arrays_point_down_wf. reflexivity.
  - by eexists.
  - reflexivity.
Defined.

Lemma read_fills_in_the_node_ids_witness :
  ∃ enough queryResult,
    (∀ fuel, enough ≤ fuel →
             read includeAll sampleNodeId rootQuery fuel
                  (plainContext nestedOperation) nestedRaw cachedSnapshot
                  storeBarOnly true
             = Returned queryResult false
                        (set_readCache cachedSnapshot nestedOperation
                                       queryResult)
                        storeBarOnly)
    ∧ result queryResult = VRef 0
    ∧ dynamicNodeIds queryResult = None
    ∧ is_Some (entityIds queryResult)
    ∧ (complete queryResult = Some true
       ↔ Satisfied storeBarOnly nestedParsed (VRef 0)).
Proof.
  apply (read_fills_in_the_node_ids
           includeAll sampleNodeId rootQuery (plainContext nestedOperation)
           nestedRaw cachedSnapshot storeBarOnly
           {| result := VRef 0; complete := Some false;
              entityIds := None; dynamicNodeIds := None;
              partitionedQuery := Some bazOnlyDocument |}).
  - reflexivity.
  - reflexivity.
  - reflexivity.
  - apply arrays_point_down_wf. reflexivity.
  - by eexists.
  - reflexivity.
Defined.

Lemma undefined_value_is_flagged_and_pruned_witness :
  ∃ enough s,
    (∀ fuel, enough ≤ fuel →
             _visitSelection fuel nestedOperation (plainContext nestedOperation)
                             storeBarOnly (VRef 0) None = Some s)
    ∧ v_complete s = false
    ∧ bazField ∈ v_missingFields s.
Proof.
  destruct (undefined_value_is_flagged_and_pruned
              nestedOperation (plainContext nestedOperation) storeBarOnly
              (VRef 0) None)
    as (enough & s & Hrun & Hnode).
  - apply arrays_point_down_wf. reflexivity.
  - reflexivity.
  - destruct (Hnode {| parsedOperation :=
                         [("buzz", PQNode buzzField None None None false)];
                       parentSelection := Some bazField;
                       parent := VUndef |}) as (Hc & Hm & _).
    + eapply (comes_to_field _ _ "foo");
        [done|done|reflexivity|apply list_elem_of_here|reflexivity|].
      eapply (comes_to_field _ _ "baz");
        [done|done|reflexivity
        |apply list_elem_of_further, list_elem_of_here|reflexivity|].
      apply comes_to_itself.
    + reflexivity.
    + done.
    + exists enough, s. split; [exact Hrun|]. split; [exact Hc|].
      by apply Hm.
Defined.

(** [{ foo { bar } }] against [{ foo: 5 }]: the walk comes to the empty
    selection set of [bar] paired with [undefined], the visitor is not called
    on it, and the verdict is [true] with nothing reported. *)
Lemma undefined_value_without_fields_is_not_flagged :
  comes_to storeScalarFoo
           {| parsedOperation := hollowParsed; parentSelection := None;
              parent := VRef 0 |}
           {| parsedOperation := []; parentSelection := Some hollowBarField;
              parent := VUndef |}
  ∧ _visitSelection 10 hollowOperation (plainContext hollowOperation)
                    storeScalarFoo (VRef 0) None
    = Some {| v_complete := true; v_missingFields := []; v_nodeIds := None |}.
Proof.
  split; [|reflexivity].
  eapply (comes_to_field _ _ "foo");
    [done|done|reflexivity|apply list_elem_of_here|reflexivity|].
  eapply (comes_to_field _ _ "bar");
    [done|done|reflexivity|apply list_elem_of_here|reflexivity|].
  apply comes_to_itself.
Qed.

